(** * Time-distortion map: the numerical engine, embedded and verified

    The TypeScript sources compute on JavaScript numbers, which are IEEE 754
    binary64 values.  They are embedded here on Rocq's primitive [float], the
    same format with the same rounding, so that every definition below can be
    run on the inputs the program would receive.

    - [JS]: numbers, [Math.max], [Math.min], [Math.floor], array indexing by a
      number, and exceptions.
    - [Visualization]: [createStreamlines] of src/utils/visualization.ts.
    - [Statistical]: the metrics of src/utils/statistical.ts.
    - [DistortionMap]: [distortPoints] and [generateTimeMatrix] of
      src/components/Map/TimeDistortionMap.tsx, and the [distortPoints] of
      src/components/Map/utils/distortion.ts.
    - [Builtins]: loops that may throw, [Math.round], indices in strings.
    - [Scaling]: doubling a binary64 number.
    - [TensorField]: [generateTensorField] of src/utils/visualization.ts.
    - [Displacement]: [calculateTimeDistortion] and [calculateMaxDistortion]
      of src/utils/statistical.ts.
    - [Layers]: the data of the heat-map, network and isochrone layers of
      src/components/Map/Layers.tsx.
    - [MapView] and [Animation]: [generateGrid], [updateGrid],
      [getCurrentPosition], the animation state and the key metrics of
      src/components/Map/TimeDistortionMap.tsx.

    The facts follow the definitions: first those on binary64 arithmetic,
    then those on each part of the program. *)

From Stdlib Require Import String List ZArith Lia Bool Arith.
From Stdlib Require Import Floats.
From Stdlib Require Import DecimalString DecimalNat FinFun.
Import ListNotations.

Set Warnings "-inexact-float".

(** ** JavaScript numbers *)

Module JS.

Local Open Scope float_scope.

(** An array length or a loop counter read as a number.  Exact below 2^53,
    which covers every array a JavaScript engine can hold. *)
Definition float_of_Z (z : Z) : float := of_uint63 (Uint63.of_Z z).

Definition float_of_nat (n : nat) : float := float_of_Z (Z.of_nat n).

(** [ToBoolean] of a number: [NaN], [+0] and [-0] are falsy. *)
Definition truthy (x : float) : bool := negb (is_nan x || is_zero x).

(** [x || 0] where [x] is a number or [undefined]. *)
Definition or_zero (x : option float) : float :=
  match x with
  | Some v => if truthy v then v else 0
  | None => 0
  end.

(** A finite number other than zero. *)
Definition finite_nonzero (x : float) : bool :=
  negb (is_nan x || is_infinity x || is_zero x).

(** [Math.max(a, b)]: [NaN] if either is, and [+0] above [-0]. *)
Definition max2 (a b : float) : float :=
  if is_nan a || is_nan b then nan
  else if a <? b then b
  else if b <? a then a
  else if get_sign a then b else a.

(** [Math.min(a, b)]: [NaN] if either is, and [-0] below [+0]. *)
Definition min2 (a b : float) : float :=
  if is_nan a || is_nan b then nan
  else if a <? b then a
  else if b <? a then b
  else if get_sign a then a else b.

(** [Math.max(...l)] and [Math.min(...l)]; on no argument they are
    [-Infinity] and [+Infinity]. *)
Definition Math_max (l : list float) : float := fold_left max2 l neg_infinity.
Definition Math_min (l : list float) : float := fold_left min2 l infinity.

(** [Math.floor]. *)
Definition Math_floor (x : float) : float :=
  match Prim2SF x with
  | S754_finite s m e =>
      if (0 <=? e)%Z then x
      else
        let q := Z.shiftr (Zpos m) (- e) in
        if s then
          if (Z.shiftl q (- e) =? Zpos m)%Z then - float_of_Z q
          else - float_of_Z (q + 1)
        else float_of_Z q
  | _ => x
  end.

(** The integer a number denotes, if it denotes one. *)
Definition to_integer (x : float) : option Z :=
  match Prim2SF x with
  | S754_zero _ => Some 0%Z
  | S754_finite s m e =>
      let v := if s then Zneg m else Zpos m in
      if (0 <=? e)%Z then Some (Z.shiftl v e)
      else if (Z.shiftl (Z.shiftr v (- e)) (- e) =? v)%Z then Some (Z.shiftr v (- e))
      else None
  | _ => None
  end.

(** [arr[i]] for a number [i]: [undefined] ([None]) unless [i] is an index
    of the array. *)
Definition array_get {A : Type} (arr : list A) (i : float) : option A :=
  match to_integer i with
  | Some z => if (0 <=? z)%Z then nth_error arr (Z.to_nat z) else None
  | None => None
  end.

(** [arr.map((a, i) => f a i)]. *)
Fixpoint mapi_from {A B : Type} (f : A -> nat -> B) (i : nat) (l : list A) : list B :=
  match l with
  | [] => []
  | a :: l' => f a i :: mapi_from f (S i) l'
  end.

Definition mapi {A B : Type} (f : A -> nat -> B) (l : list A) : list B :=
  mapi_from f 0 l.

(** [arr.filter((a, i) => f a i)]. *)
Fixpoint filteri_from {A : Type} (f : A -> nat -> bool) (i : nat) (l : list A) : list A :=
  match l with
  | [] => []
  | a :: l' => if f a i then a :: filteri_from f (S i) l' else filteri_from f (S i) l'
  end.

Definition filteri {A : Type} (f : A -> nat -> bool) (l : list A) : list A :=
  filteri_from f 0 l.

(** [arr.reduce((a, b) => a + b, 0)]. *)
Definition sum (l : list float) : float := fold_left add l 0.

(** A computation that returns a value or throws. *)
Inductive result (A : Type) : Type :=
| Ret (a : A)
| Throw.

Arguments Ret {A} a.
Arguments Throw {A}.

Definition bind {A B : Type} (r : result A) (k : A -> result B) : result B :=
  match r with
  | Ret a => k a
  | Throw => Throw
  end.

(** [try { body } catch (e) { handler }]. *)
Definition try_catch {A : Type} (body handler : result A) : result A :=
  match body with
  | Ret a => Ret a
  | Throw => handler
  end.

(** [arr.forEach] / [arr.map] with a callback that may throw. *)
Fixpoint mapM {A B : Type} (f : A -> result B) (l : list A) : result (list B) :=
  match l with
  | [] => Ret []
  | a :: l' =>
      bind (f a) (fun b => bind (mapM f l') (fun bs => Ret (b :: bs)))
  end.

(** [arr.map((a, i) => f a i)] with a callback that may throw. *)
Fixpoint mapiM_from {A B : Type} (f : A -> nat -> result B) (i : nat) (l : list A)
  : result (list B) :=
  match l with
  | [] => Ret []
  | a :: l' =>
      bind (f a i) (fun b => bind (mapiM_from f (S i) l') (fun bs => Ret (b :: bs)))
  end.

Definition mapiM {A B : Type} (f : A -> nat -> result B) (l : list A) : result (list B) :=
  mapiM_from f 0 l.

End JS.

Notation "'let*' x ':=' c 'in' k" := (JS.bind c (fun x => k))
  (at level 10, x name, c at level 100, k at level 200).

(** ** src/utils/visualization.ts: streamlines *)

Module Visualization.

Import JS.
Local Open Scope float_scope.

(** [interface Point] and [interface VectorField] have the same two fields;
    [interpolateVector] returns a cell of the field as a [Point]. *)
Record Point : Type := mkPoint { px : float; py : float }.

Definition VectorField : Type := Point.

(** [bounds: [number, number, number, number]], read as
    [bounds[0]] .. [bounds[3]]. *)
Record Bounds : Type := mkBounds { b0 : float; b1 : float; b2 : float; b3 : float }.

(** [interface StreamlineOptions]: every field is optional.  [maxSteps] is a
    count of loop iterations (a [u32] in the interface description). *)
Record StreamlineOptions : Type := mkOptions {
  opt_stepSize : option float;
  opt_maxSteps : option nat;
  opt_lineLength : option float
}.

Definition no_options : StreamlineOptions := mkOptions None None None.

Definition default {A : Type} (o : option A) (d : A) : A :=
  match o with Some a => a | None => d end.

Definition seedDensity : nat := 10.

Section Streamlines.

Variable vectorField : list (list VectorField).
Variable bounds : Bounds.
Variable options : StreamlineOptions.

Definition stepSize : float := default (opt_stepSize options) 0.1.
Definition maxSteps : nat := default (opt_maxSteps options) 1000%nat.
Definition lineLength : float := default (opt_lineLength options) 10.

Definition width : float := float_of_nat (length vectorField).

(** [const height = vectorField[0].length]: a [TypeError] on an empty
    field. *)
Definition field_height : result float :=
  match vectorField with
  | col :: _ => Ret (float_of_nat (length col))
  | [] => Throw
  end.

(** [interpolateVector(x, y)].  [Ret None] is the value [undefined]; reading
    [vectorField[i][j]] throws when [vectorField[i]] is [undefined], which
    happens when [i] is [NaN]. *)
Definition interpolateVector (height : float) (x y : float) : result (option Point) :=
  let i := Math_floor ((x - b0 bounds) / (b2 bounds - b0 bounds) * (width - 1)) in
  let j := Math_floor ((y - b1 bounds) / (b3 bounds - b1 bounds) * (height - 1)) in
  if (i <? 0) || (width - 1 <=? i) || (j <? 0) || (height - 1 <=? j) then
    Ret (Some (mkPoint 0 0))
  else
    match array_get vectorField i with
    | Some col => Ret (array_get col j)
    | None => Throw
    end.

(** The [for] loop of [integrateLine]: [fuel] is the number of iterations
    left before [step] reaches [maxSteps]; every [break] returns the line
    built so far. *)
Fixpoint integrate_loop (height : float) (fuel : nat) (x y : float) (line : list Point)
  : result (list Point) :=
  match fuel with
  | O => Ret line
  | S fuel' =>
      let* v := interpolateVector height x y in
      match v with
      | None => Ret line
      | Some vector =>
          let magnitude := sqrt (px vector * px vector + py vector * py vector) in
          if magnitude <? 1e-6 then Ret line
          else
            let x' := x + (px vector / magnitude) * stepSize in
            let y' := y + (py vector / magnitude) * stepSize in
            if (x' <? b0 bounds) || (b2 bounds <? x') || (y' <? b1 bounds) || (b3 bounds <? y')
            then Ret line
            else
              let line' := line ++ [mkPoint x' y'] in
              if lineLength <? float_of_nat (length line') * stepSize then Ret line'
              else integrate_loop height fuel' x' y' line'
      end
  end.

Definition integrateLine (height : float) (startX startY : float) : result (list Point) :=
  integrate_loop height maxSteps startX startY [mkPoint startX startY].

(** The seed lattice, in the order the two nested loops push it. *)
Definition seedPoint (i j : nat) : Point :=
  mkPoint
    (b0 bounds + (b2 bounds - b0 bounds) * (float_of_nat i + 0.5) / float_of_nat seedDensity)
    (b1 bounds + (b3 bounds - b1 bounds) * (float_of_nat j + 0.5) / float_of_nat seedDensity).

Definition seedPoints : list Point :=
  flat_map (fun i => map (fun j => seedPoint i j) (seq 0 seedDensity)) (seq 0 seedDensity).

Definition createStreamlines : result (list (list Point)) :=
  let* h := field_height in
  let* lines := mapM (fun seed => integrateLine h (px seed) (py seed)) seedPoints in
  Ret (filter (fun line => (1 <? length line)%nat) lines).

End Streamlines.

(** The number of integration steps behind a line, and the length the loop
    accounts for them. *)
Definition steps_of (line : list Point) : nat := length line - 1.

Definition traversed (stepSize : float) (line : list Point) : float :=
  float_of_nat (steps_of line) * stepSize.

End Visualization.

(** ** Grid points *)

Module Grid.

Definition Coord : Type := (float * float)%type.

(** [interface GridPoint] of TimeDistortionMap.tsx; the interfaces of
    statistical.ts and utils/distortion.ts name a subset of these fields. *)
Record GridPoint : Type := mkGridPoint {
  id : string;
  coordinates : Coord;
  originalCoordinates : option Coord;
  travelTime : option float;
  animationProgress : option float
}.

(** [p.travelTime || 0]. *)
Definition time_of (p : GridPoint) : float := JS.or_zero (travelTime p).


End Grid.

(** ** src/utils/statistical.ts: metrics *)

Module Statistical.

Import JS Grid.
Local Open Scope float_scope.

Definition calculateAverageTime (points : list GridPoint) : float :=
  let times := map time_of points in
  sum times / float_of_nat (length times).

Record HeatmapDatum : Type := mkHeatmapDatum {
  heat_coordinates : Coord;
  intensity : float
}.

Definition generateHeatmapData (points : list GridPoint) : list HeatmapDatum :=
  let maxTime := Math_max (map time_of points) in
  let minTime := Math_min (map time_of points) in
  map (fun point =>
         mkHeatmapDatum (coordinates point)
                        ((time_of point - minTime) / (maxTime - minTime)))
      points.

Record IsochroneBand : Type := mkBand {
  threshold : float;
  band_coordinates : list Coord
}.

(** [points.filter(point => (point.travelTime || 0) <= threshold)]. *)
Definition accessible (points : list GridPoint) (threshold : float) : list GridPoint :=
  filter (fun point => time_of point <=? threshold) points.

(** The callback of the inner [points.filter((p, j) => ...)] of
    [calculateConnectivity], for the outer index [i]. *)
Definition connected (timeThreshold : float) (i : nat) (p : GridPoint) (j : nat) : bool :=
  if (i =? j)%nat then false
  else let time := time_of p in time <? timeThreshold.

(** [calculateConnectivity(points, timeThreshold = 20)]. *)
Definition calculateConnectivity (points : list GridPoint) (timeThreshold : option float)
  : list nat :=
  let timeThreshold := match timeThreshold with Some t => t | None => 20 end in
  mapi (fun point i => length (filteri (connected timeThreshold i) points)) points.

(** [connectivity[i] / maxConnectivity]; an index outside the array reads
    [undefined], and [undefined / x] is [NaN]. *)
Definition findCentralPoints (points : list GridPoint) (timeThreshold : option float)
  : list float :=
  let connectivity := calculateConnectivity points timeThreshold in
  let maxConnectivity := Math_max (map float_of_nat connectivity) in
  mapi (fun _ i =>
          match nth_error connectivity i with
          | Some c => float_of_nat c / maxConnectivity
          | None => nan
          end)
       points.

(** The functions of the geometry library (turf) the metrics call.  Each may
    throw; [turf.convex] and [turf.buffer] may also return [null]/[undefined],
    read here as [None].  [ring_of] is the read
    [buffer.geometry.coordinates[0]] followed by the copy of every position. *)
Section Turf.

Variables FeatureCollection Polygon : Type.
Variable turf_points : list Coord -> result FeatureCollection.
Variable turf_convex : FeatureCollection -> result (option Polygon).
Variable turf_buffer : Polygon -> result (option Polygon).
Variable ring_of : Polygon -> result (list Coord).
Variable turf_area : Polygon -> result float.

(** The [try] block of [calculateIsochrones]. *)
Definition isochrone_body (accessiblePoints : list Coord) (threshold : float)
  : result IsochroneBand :=
  let* pointsCollection := turf_points accessiblePoints in
  let* hull := turf_convex pointsCollection in
  match hull with
  | None => Ret (mkBand threshold [])
  | Some hull =>
      let* buffer := turf_buffer hull in
      match buffer with
      | None => Ret (mkBand threshold [])
      | Some buffer =>
          let* coords := ring_of buffer in
          Ret (mkBand threshold coords)
      end
  end.

(** The callback of [timeThresholds.map]. *)
Definition isochrone (points : list GridPoint) (threshold : float) : result IsochroneBand :=
  let accessiblePoints := map coordinates (accessible points threshold) in
  if (length accessiblePoints <? 3)%nat then Ret (mkBand threshold [])
  else try_catch (isochrone_body accessiblePoints threshold) (Ret (mkBand threshold [])).

Definition calculateIsochrones (points : list GridPoint) (timeThresholds : list float)
  : result (list IsochroneBand) :=
  mapM (isochrone points) timeThresholds.

(** The band the callback returns for a threshold. *)
Definition band_of (points : list GridPoint) (t : float) : IsochroneBand :=
  match isochrone points t with
  | Ret b => b
  | Throw => mkBand t []
  end.

(** The [try] block of [calculateAreaCoverage]. *)
Definition coverage_body (accessiblePoints : list GridPoint) : result float :=
  let* pointsCollection := turf_points (map coordinates accessiblePoints) in
  let* hull := turf_convex pointsCollection in
  match hull with
  | None => Ret 0
  | Some hull =>
      let* a := turf_area hull in
      Ret (a * 3.861e-7)
  end.

Definition calculateAreaCoverage (points : list GridPoint) (timeThreshold : float)
  : result float :=
  let accessiblePoints := accessible points timeThreshold in
  if (length accessiblePoints <? 3)%nat then Ret 0
  else try_catch (coverage_body accessiblePoints) (Ret 0).

(** What [calculateAreaCoverage] returns for a set of three points or more:
    the area of its hull in square miles, or [0] on a failure. *)
Definition hull_coverage (accessiblePoints : list GridPoint) : float :=
  match try_catch (coverage_body accessiblePoints) (Ret 0) with
  | Ret a => a
  | Throw => 0
  end.

End Turf.

Arguments isochrone_body {FeatureCollection Polygon}.
Arguments isochrone {FeatureCollection Polygon}.
Arguments calculateIsochrones {FeatureCollection Polygon}.
Arguments band_of {FeatureCollection Polygon}.
Arguments coverage_body {FeatureCollection Polygon}.
Arguments calculateAreaCoverage {FeatureCollection Polygon}.
Arguments hull_coverage {FeatureCollection Polygon}.

End Statistical.

(** ** src/components/Map: distortion and the travel-time matrix *)

Module DistortionMap.

Import JS Grid.
Local Open Scope float_scope.

(** The functions of [Math] that have no counterpart on [float]. *)
Record MathLib : Type := mkMathLib {
  Math_atan2 : float -> float -> float;
  Math_cos : float -> float;
  Math_sin : float -> float
}.

Section Distortion.

Variable M : MathLib.

(** The callback of [points.map] in [distortPoints] (TimeDistortionMap.tsx).
    [timeMatrix[i].reduce] throws when the matrix has no row [i]. *)
Definition distortPoint (points : list GridPoint) (timeMatrix : list (list float))
  (distortionFactor : float) (point : GridPoint) (i : nat) : result GridPoint :=
  let* row := match nth_error timeMatrix i with Some row => Ret row | None => Throw end in
  let avgTime := sum row / float_of_nat (length points) in
  let scaleFactor := (avgTime / 60) * distortionFactor in
  let* centerPoint := match nth_error points 0 with Some c => Ret c | None => Throw end in
  let direction :=
    Math_atan2 M (snd (coordinates point) - snd (coordinates centerPoint))
                 (fst (coordinates point) - fst (coordinates centerPoint)) in
  Ret (mkGridPoint (id point)
         (fst (coordinates point) + Math_cos M direction * scaleFactor,
          snd (coordinates point) + Math_sin M direction * scaleFactor)
         (originalCoordinates point)
         (Some avgTime)
         (animationProgress point)).

(** [distortPoints(points, timeMatrix, distortionFactor = 1)]. *)
Definition distortPoints (points : list GridPoint) (timeMatrix : list (list float))
  (distortionFactor : option float) : result (list GridPoint) :=
  let distortionFactor := match distortionFactor with Some f => f | None => 1 end in
  mapiM (distortPoint points timeMatrix distortionFactor) points.

(** [distortPoints(points, timeMatrix)] of utils/distortion.ts.  The
    matrices it builds before the [map] are never read, and its callback
    copies every field of the point but [coordinates]. *)
Definition distortPoint_utils (points : list GridPoint) (timeMatrix : list (list float))
  (point : GridPoint) (i : nat) : result GridPoint :=
  let* row := match nth_error timeMatrix i with Some row => Ret row | None => Throw end in
  let avgTime := sum row / float_of_nat (length points) in
  let distortionFactor := avgTime / 60 in
  let* centerPoint := match nth_error points 0 with Some c => Ret c | None => Throw end in
  let direction :=
    Math_atan2 M (snd (coordinates point) - snd (coordinates centerPoint))
                 (fst (coordinates point) - fst (coordinates centerPoint)) in
  Ret (mkGridPoint (id point)
         (fst (coordinates point) + Math_cos M direction * distortionFactor,
          snd (coordinates point) + Math_sin M direction * distortionFactor)
         (originalCoordinates point)
         (travelTime point)
         (animationProgress point)).

Definition distortPoints_utils (points : list GridPoint) (timeMatrix : list (list float))
  : result (list GridPoint) :=
  mapiM (distortPoint_utils points timeMatrix) points.

End Distortion.

Section TimeMatrix.

(** [turf.distance(from, to, { units: 'miles' })]. *)
Variable turf_distance : Coord -> Coord -> float.

Definition generateTimeMatrix (points : list GridPoint) : list (list float) :=
  map (fun point1 =>
         map (fun point2 =>
                let distance := turf_distance (coordinates point1) (coordinates point2) in
                (distance / 30) * 60)
             points)
      points.

End TimeMatrix.

(** The mean of a row of the matrix. *)
Definition mean (row : list float) : float := sum row / float_of_nat (length row).

(** [avgTime] and [direction] of point [i], as the callback computes them:
    neither reads [distortionFactor]. *)
Definition avgTime (points : list GridPoint) (row : list float) : float :=
  sum row / float_of_nat (length points).

Definition direction (M : MathLib) (centerPoint point : GridPoint) : float :=
  Math_atan2 M (snd (coordinates point) - snd (coordinates centerPoint))
               (fst (coordinates point) - fst (coordinates centerPoint)).


(** The displacement of a point: distorted minus original coordinates, and
    its Euclidean length. *)
Definition displacement (original distorted : GridPoint) : Coord :=
  (fst (coordinates distorted) - fst (coordinates original),
   snd (coordinates distorted) - snd (coordinates original)).

Definition norm (v : Coord) : float := sqrt (fst v * fst v + snd v * snd v).

End DistortionMap.

(** ** Signs of binary64 numbers *)

Module Signs.

(** The result of an operation is not [NaN] and has sign [s]. *)
Definition signed (s : bool) (x : spec_float) : Prop :=
  match x with
  | S754_zero s' | S754_infinity s' | S754_finite s' _ _ => s' = s
  | S754_nan => False
  end.

(** A number that is at least zero: a zero of either sign, or positive. *)
Definition nonneg_sf (x : spec_float) : Prop :=
  match x with
  | S754_zero _ => True
  | S754_infinity s | S754_finite s _ _ => s = false
  | S754_nan => False
  end.

End Signs.

(** ** Inputs the properties are tried on *)

Module Scenarios.

Import JS Visualization Grid Statistical DistortionMap.
Local Open Scope float_scope.

(** Scenario C: a uniform field

    A 20 x 20 field that is [(1, 0)] everywhere over the bounds
    [(0, 0, 10, 10)], integrated from the centre [(5, 5)] with
    [stepSize = 0.1] and [lineLength = 1]. *)

Definition uniform_field : list (list VectorField) :=
  repeat (repeat (mkPoint 1 0) 20) 20.

Definition scenario_bounds : Bounds := mkBounds 0 0 10 10.

Definition scenario_options : StreamlineOptions :=
  mkOptions (Some 0.1) None (Some 1).

Definition scenario_line : result (list Point) :=
  integrateLine uniform_field scenario_bounds scenario_options 20 5 5.

(** The same field with a negative [lineLength]. *)
Definition negative_length_options : StreamlineOptions :=
  mkOptions (Some 0.1) None (Some (-1)).

(** The same field over the unit square: the bounds leave room for five
    steps from the centre. *)
Definition unit_square_line : result (list Point) :=
  integrateLine uniform_field (mkBounds 0 0 1 1) scenario_options 20 0.5 0.5.

(** Scenario A: the points [(0,0)], [(1,0)], [(0,1)] (miles) under the
    planar distance. *)
Definition planar_distance (a b : Coord) : float :=
  sqrt ((fst a - fst b) * (fst a - fst b) + (snd a - snd b) * (snd a - snd b)).

Definition scenario_A : list GridPoint :=
  [mkGridPoint "point-0" (0, 0) None None None;
   mkGridPoint "point-1" (1, 0) None None None;
   mkGridPoint "point-2" (0, 1) None None None].

(** Two points on a parallel

    Two points of the same latitude, with a matrix that gives each an
    average time of six minutes.  The anchor is the first point; both
    directions are [atan2(+0, x)] with [x >= 0], which is [+0], and
    [cos(+0) = 1], [sin(+0) = +0]. *)

(** The values ECMAScript fixes for [Math.atan2], [Math.cos] and
    [Math.sin] at zero. *)
Definition exact_at_zero (M : MathLib) : Prop :=
  Math_atan2 M 0 0 = 0 /\ Math_cos M 0 = 1 /\ Math_sin M 0 = 0.

(** A [Math] that answers as ECMAScript does on the directions of the two
    points: [atan2] is [+0], its cosine [1] and its sine [+0]. *)
Definition Math_eastward : MathLib :=
  mkMathLib (fun _ _ => 0) (fun _ => 1) (fun _ => 0).

Definition parallel_points : list GridPoint :=
  [mkGridPoint "point-0" (-73.97, 40.78) None None None;
   mkGridPoint "point-1" (-73.96, 40.78) None None None].

Definition parallel_matrix : list (list float) := [[0; 12]; [12; 0]].

(** The displacement of the first point under a given factor. *)
Definition first_displacement (M : MathLib) (f : float) : option Coord :=
  match distortPoints M parallel_points parallel_matrix (Some f), parallel_points with
  | Ret (d :: _), p :: _ => Some (displacement p d)
  | _, _ => None
  end.

(** Sample sets for the heat map and the metrics: travel times 5, 15 and
    25 minutes; a constant set; a set with a point that has no travel
    time; a set with no point within 20 minutes. *)
Definition sample (name : string) (x y : float) (t : option float) : GridPoint :=
  mkGridPoint name (x, y) None t None.

Definition samples_5_15_25 : list GridPoint :=
  [sample "a" 0 0 (Some 5); sample "b" 1 0 (Some 15); sample "c" 0 1 (Some 25)].

Definition samples_constant : list GridPoint :=
  [sample "a" 0 0 (Some 5); sample "b" 1 0 (Some 5)].

Definition samples_missing : list GridPoint :=
  [sample "a" 0 0 (Some 5); sample "b" 1 0 None; sample "c" 0 1 (Some 25)].

Definition samples_far : list GridPoint :=
  [sample "a" 0 0 (Some 25); sample "b" 1 0 (Some 30)].

Definition samples_unbounded : list GridPoint :=
  [sample "a" 0 0 (Some 5); sample "b" 1 0 (Some infinity)].

(** A stand-in for the geometry library in which every hull has area [1]
    (in square metres): the coverage steps from [0] to [1 * 3.861e-7] once
    three points qualify. *)
Definition unit_points (coords : list Coord) : result (list Coord) := Ret coords.
Definition unit_convex (fc : list Coord) : result (option (list Coord)) := Ret (Some fc).
Definition unit_buffer (hull : list Coord) : result (option (list Coord)) := Ret (Some hull).
Definition unit_ring (buffer : list Coord) : result (list Coord) := Ret buffer.

End Scenarios.

(** ** More of JavaScript: loops that may throw, [Math.round], indices in
    template strings *)

Module Builtins.

Import JS.
Local Open Scope float_scope.

(** [arr[i].field]: reading a field of [arr[i]] is a [TypeError] when [i]
    is not an index of the array. *)
Definition element {A : Type} (arr : list A) (i : nat) : result A :=
  match nth_error arr i with
  | Some a => Ret a
  | None => Throw
  end.

(** [arr.forEach((a, i) => ...)] with a callback that updates the local
    variables [St] of the enclosing function and may throw. *)
Fixpoint forEachM_from {A St : Type} (f : St -> A -> nat -> result St) (i : nat)
  (l : list A) (s : St) : result St :=
  match l with
  | [] => Ret s
  | a :: l' => let* s' := f s a i in forEachM_from f (S i) l' s'
  end.

Definition forEachM {A St : Type} (f : St -> A -> nat -> result St) (l : list A) (s : St)
  : result St :=
  forEachM_from f 0 l s.

(** [arr.filter((a, i) => ...)] with a callback that may throw. *)
Fixpoint filteriM_from {A : Type} (f : A -> nat -> result bool) (i : nat) (l : list A)
  : result (list A) :=
  match l with
  | [] => Ret []
  | a :: l' =>
      let* keep := f a i in
      let* rest := filteriM_from f (S i) l' in
      Ret (if keep then a :: rest else rest)
  end.

Definition filteriM {A : Type} (f : A -> nat -> result bool) (l : list A) : result (list A) :=
  filteriM_from f 0 l.

(** [arr.filter(Boolean)] on an array of objects and [null]s. *)
Fixpoint filter_Boolean {A : Type} (l : list (option A)) : list A :=
  match l with
  | [] => []
  | Some a :: l' => a :: filter_Boolean l'
  | None :: l' => filter_Boolean l'
  end.

(** An array index inside a template string: its decimal digits. *)
Definition index_to_string (index : nat) : string :=
  NilEmpty.string_of_uint (Nat.to_uint index).

(** [Math.round]: the nearest integer, a tie going towards [+Infinity];
    a result that is zero keeps the sign of the argument. *)
Definition Math_round (x : float) : float :=
  match Prim2SF x with
  | S754_finite s m e =>
      if (0 <=? e)%Z then x
      else
        let d := Z.shiftl 1 (- e) in
        let v := if s then Zneg m else Zpos m in
        let n := ((2 * v + d) / (2 * d))%Z in
        match n with
        | Z0 => if s then -0 else 0
        | Zpos _ => float_of_Z n
        | Zneg _ => - float_of_Z (- n)
        end
  | _ => x
  end.

End Builtins.

(** ** src/utils/visualization.ts: the tensor field *)

Module TensorField.

Import JS Builtins Visualization Grid.
Local Open Scope float_scope.

Definition gridSize : nat := 20.

(** The three accumulators of a cell. *)
Record Sums : Type := mkSums { sumX : float; sumY : float; weightSum : float }.

(** The callback of [points.forEach((point, idx) => ...)] for the cell
    [(i, j)].  [distortions[idx][0]] is a [TypeError] when [distortions] has
    no entry [idx]; it is read only for a point at a positive distance. *)
Definition accumulate (distortions : list Coord) (i j : nat) (acc : Sums) (point : Coord)
  (idx : nat) : result Sums :=
  let dx := float_of_nat i / float_of_nat gridSize - fst point in
  let dy := float_of_nat j / float_of_nat gridSize - snd point in
  let distance := sqrt (dx * dx + dy * dy) in
  if 0 <? distance then
    let weight := 1 / (distance * distance) in
    let* d := element distortions idx in
    Ret (mkSums (sumX acc + fst d * weight) (sumY acc + snd d * weight)
                (weightSum acc + weight))
  else Ret acc.

(** The body of the two nested loops: the cell keeps its initial
    [{ x: 0, y: 0 }] unless the weights sum to a positive number. *)
Definition cell (points distortions : list Coord) (i j : nat) : result VectorField :=
  let* s := forEachM (accumulate distortions i j) points (mkSums 0 0 0) in
  Ret (if 0 <? weightSum s
       then mkPoint (sumX s / weightSum s) (sumY s / weightSum s)
       else mkPoint 0 0).

Definition generateTensorField (points distortions : list Coord)
  : result (list (list VectorField)) :=
  mapM (fun i => mapM (fun j => cell points distortions i j) (seq 0 gridSize))
       (seq 0 gridSize).

(** The length of a vector, as [integrateLine] computes it. *)
Definition magnitude (v : VectorField) : float := sqrt (px v * px v + py v * py v).

(** A point that passes the bounds test of [integrateLine]. *)
Definition inside (bounds : Bounds) (p : Point) : Prop :=
  (px p <? b0 bounds) = false /\ (b2 bounds <? px p) = false /\
  (py p <? b1 bounds) = false /\ (b3 bounds <? py p) = false.

End TensorField.

(** ** src/utils/statistical.ts: how far the points moved *)

Module Displacement.

Import JS Builtins Grid.
Local Open Scope float_scope.

Section Turf.

Variable Feature : Type.
Variable turf_point : Coord -> result Feature.
Variable turf_distance : Feature -> Feature -> result float.

(** The callback of [points.map((point, i) => ...)]. *)
Definition timeDistortion (distortedPoints : list GridPoint) (point : GridPoint) (i : nat)
  : result float :=
  let* originalPoint := turf_point (coordinates point) in
  let* distorted := element distortedPoints i in
  let* distortedPoint := turf_point (coordinates distorted) in
  turf_distance originalPoint distortedPoint.

Definition calculateTimeDistortion (points distortedPoints : list GridPoint)
  : result (list float) :=
  mapiM (timeDistortion distortedPoints) points.

Definition calculateMaxDistortion (points distortedPoints : list GridPoint) : result float :=
  let* distortions := calculateTimeDistortion points distortedPoints in
  Ret (Math_max distortions).

End Turf.

Arguments timeDistortion {Feature}.
Arguments calculateTimeDistortion {Feature}.
Arguments calculateMaxDistortion {Feature}.

End Displacement.

(** ** src/components/Map/Layers.tsx: the data behind the three layers *)

Module Layers.

Import JS Builtins Grid.
Local Open Scope float_scope.

(** *** [HeatmapLayer] *)

Record HeatmapCircle : Type := mkHeatmapCircle {
  heat_center : Coord;
  color : string
}.

Section Heatmap.

(** The digits of a number inside a template string. *)
Variable Number_toString : float -> string.

(** [`hsl(${hue}, 70%, 50%)`]. *)
Definition hsl (hue : float) : string :=
  ("hsl(" ++ Number_toString hue ++ ", 70%, 50%)")%string.

Definition normalizedTime (maxTime minTime time : float) : float :=
  (time - minTime) / (maxTime - minTime).

Definition heatmapData (points distortedPoints : list GridPoint)
  : result (list HeatmapCircle) :=
  let maxTime := Math_max (map time_of distortedPoints) in
  let minTime := Math_min (map time_of distortedPoints) in
  mapiM (fun point i =>
           let* distorted := element distortedPoints i in
           let time := time_of distorted in
           let normalizedTime := (time - minTime) / (maxTime - minTime) in
           Ret (mkHeatmapCircle (coordinates point) (hsl (240 - normalizedTime * 240))))
        points.

End Heatmap.

(** *** [NetworkLayer] *)

Record NetworkCircle : Type := mkNetworkCircle {
  network_center : Coord;
  size : float;
  connections : nat
}.

(** The callback of [distortedPoints.filter((_, j) => ...)] for the outer
    index [i]: it reads the travel time of point [i], not of point [j]. *)
Definition nearby (distortedPoints : list GridPoint) (i : nat) (_ : GridPoint) (j : nat)
  : result bool :=
  if (i =? j)%nat then Ret false
  else
    let* own := element distortedPoints i in
    let time := time_of own in
    Ret (time <? 20).

Definition networkData (points distortedPoints : list GridPoint)
  : result (list NetworkCircle) :=
  mapiM (fun point i =>
           let* near := filteriM (nearby distortedPoints i) distortedPoints in
           let nearbyPoints := length near in
           Ret (mkNetworkCircle (coordinates point)
                                (50 + float_of_nat nearbyPoints * 10)
                                nearbyPoints))
        points.

(** *** [IsochroneLayer] *)

Record IsochroneZone : Type := mkZone {
  interval : float;
  zone_coordinates : list Coord
}.

Definition timeIntervals : list float := [5; 10; 15; 20; 25]%float.

Section Isochrone.

(** [turf.buffer] of a collection of point features, [0.2] miles wide, and
    [turf.coordAll]; either may throw, and the buffer may be [undefined]. *)
Variable Buffered : Type.
Variable turf_buffer : list Coord -> result (option Buffered).
Variable turf_coordAll : Buffered -> result (list Coord).

(** The [try] block. *)
Definition zone_body (accessiblePoints : list GridPoint) (interval : float)
  : result (option IsochroneZone) :=
  let pointFeatures := map coordinates accessiblePoints in
  let* buffer := turf_buffer pointFeatures in
  match buffer with
  | None => Ret None
  | Some buffer =>
      let* coords := turf_coordAll buffer in
      Ret (Some (mkZone interval (map (fun coord => (snd coord, fst coord)) coords)))
  end.

(** The callback of [timeIntervals.map]: the filter runs outside the
    [try]. *)
Definition zone (points distortedPoints : list GridPoint) (interval : float)
  : result (option IsochroneZone) :=
  let* accessiblePoints :=
    filteriM (fun _ i =>
                let* distorted := element distortedPoints i in
                Ret (time_of distorted <=? interval))
             points in
  if (length accessiblePoints <? 3)%nat then Ret None
  else try_catch (zone_body accessiblePoints interval) (Ret None).

Definition isochroneData (points distortedPoints : list GridPoint)
  : result (list IsochroneZone) :=
  let* zones := mapM (zone points distortedPoints) timeIntervals in
  Ret (filter_Boolean zones).

End Isochrone.

Arguments zone_body {Buffered}.
Arguments zone {Buffered}.
Arguments isochroneData {Buffered}.

(** The points of index [i] whose distorted twin is within [interval]. *)
Fixpoint within (interval : float) (points distortedPoints : list GridPoint)
  : list GridPoint :=
  match points, distortedPoints with
  | p :: points', d :: distorted' =>
      if time_of d <=? interval then p :: within interval points' distorted'
      else within interval points' distorted'
  | _, _ => []
  end.

End Layers.

(** ** src/components/Map/TimeDistortionMap.tsx: grid, animation, metrics *)

Module MapView.

Import JS Builtins Grid DistortionMap.
Local Open Scope float_scope.

(** [getCurrentPosition(original, distorted)] under a given
    [animationProgress]. *)
Definition getCurrentPosition (progress : float) (original distorted : Coord) : Coord :=
  (fst original + (fst distorted - fst original) * progress,
   snd original + (snd distorted - snd original) * progress).

(** The centre of the red circle of a point: [getCurrentPosition] on the
    two positions as [[lat, lng]]. *)
Definition distortedCenter (progress : float) (point distorted : GridPoint) : Coord :=
  getCurrentPosition progress
    (snd (coordinates point), fst (coordinates point))
    (snd (coordinates distorted), fst (coordinates distorted)).

(** [`point-${index}`]. *)
Definition point_id (index : nat) : string := ("point-" ++ index_to_string index)%string.

Section Grid.

(** [turf.circle(center, radius, { steps: 64 })], [turf.bbox] and
    [turf.pointGrid(bbox, cellSize, { mask: circle })], the last read
    through [grid.features] and [point.geometry.coordinates]. *)
Variables Circle BBox : Type.
Variable turf_circle : Coord -> float -> result Circle.
Variable turf_bbox : Circle -> result BBox.
Variable turf_pointGrid : BBox -> float -> Circle -> result (list Coord).

Definition generateGrid (center : Coord) (radius pointCount : float)
  : result (list GridPoint) :=
  let* circle := turf_circle center radius in
  let* bbox := turf_bbox circle in
  let cellSize := (radius * 2) / sqrt pointCount in
  let* grid := turf_pointGrid bbox cellSize circle in
  Ret (mapi (fun point index =>
               mkGridPoint (point_id index) point (Some point) None None)
            grid).

Variable M : MathLib.
Variable turf_distance : Coord -> Coord -> float.

(** [updateGrid] once the map is there: the new [points] and
    [distortedPoints]. *)
Definition updateGrid (center : Coord) (radius gridDensity distortionFactor : float)
  : result (list GridPoint * list GridPoint) :=
  let* gridPoints := generateGrid center radius gridDensity in
  let timeMatrix := generateTimeMatrix turf_distance gridPoints in
  let* distorted := distortPoints M gridPoints timeMatrix (Some distortionFactor) in
  Ret (gridPoints, distorted).

End Grid.

Arguments generateGrid {Circle BBox}.
Arguments updateGrid {Circle BBox}.

(** *** Key metrics *)

(** "Average Travel Time". *)
Definition averageTravelTime (distortedPoints : list GridPoint) : float :=
  if (0 <? length distortedPoints)%nat then
    Math_round
      (fold_left (fun sum point => sum + time_of point) distortedPoints 0
       / float_of_nat (length distortedPoints))
  else 0.

(** The callback of "Connected Points":
    [distortedPoints[i].travelTime && distortedPoints[i].travelTime < 20]. *)
Definition is_connected (distorted : GridPoint) : bool :=
  match travelTime distorted with
  | Some t => truthy t && (t <? 20)
  | None => false
  end.

Definition connectedPoints (points distortedPoints : list GridPoint) : result nat :=
  if (0 <? length points)%nat then
    let* kept :=
      filteriM (fun _ i => let* distorted := element distortedPoints i in
                           Ret (is_connected distorted))
               points in
    Ret (length kept)
  else Ret 0%nat.

End MapView.

(** ** The animation of TimeDistortionMap.tsx *)

Module Animation.

Local Open Scope float_scope.

(** The three pieces of state the animation reads and writes. *)
Record State : Type := mkState {
  showDistortion : bool;
  animationProgress : float;
  isAnimating : bool
}.

(** [useState(true)], [useState(0)], [useState(false)]. *)
Definition initial : State := mkState true 0 false.

(** The callback handed to [useAnimationFrame], with the state update it
    requests applied. *)
Definition frame (deltaTime : float) (st : State) : State :=
  if isAnimating st then
    let prev := animationProgress st in
    let next := prev + (deltaTime * 0.001) in
    if 1 <=? next then mkState (showDistortion st) 1 false
    else mkState (showDistortion st) next (isAnimating st)
  else st.

(** The "Show/Hide Distortion" button. *)
Definition toggle (st : State) : State :=
  if negb (showDistortion st) then mkState (negb (showDistortion st)) 0 true
  else mkState (negb (showDistortion st)) (animationProgress st) (isAnimating st).

(** The "Replay Animation" button, rendered while the distortion shows. *)
Definition replay (st : State) : State :=
  mkState (showDistortion st) 0 true.

Inductive Event : Type :=
| Frame (deltaTime : float)
| Toggle
| Replay.

Definition step (st : State) (ev : Event) : State :=
  match ev with
  | Frame deltaTime => frame deltaTime st
  | Toggle => toggle st
  | Replay => replay st
  end.

Definition run (events : list Event) : State := fold_left step events initial.

(** A frame whose time difference is a number at least zero. *)
Definition forward (ev : Event) : Prop :=
  match ev with
  | Frame deltaTime => (0 <=? deltaTime) = true
  | _ => True
  end.

End Animation.

(** ** Doubling a binary64 number *)

Module Scaling.

Local Open Scope float_scope.

(** Twice a normal binary64 number, on its representation: the exponent
    goes up by one, and past the largest exponent the result is infinite. *)
Definition SFdouble (x : spec_float) : spec_float :=
  match x with
  | S754_finite s m e =>
      if (e + 1 <=? emax - prec)%Z then S754_finite s m (e + 1) else S754_infinity s
  | _ => x
  end.

(** The product [a * b] neither overflows nor underflows when [b] is
    doubled: [2 * b] is not infinite, and the product has a factor that is
    zero or is at least [2^-1021] in magnitude. *)
Definition doubles_exactly (a b : float) : Prop :=
  is_infinity (2 * b) = false /\
  (is_zero a = true \/ is_zero b = true \/ (0x1p-1021 <=? abs (a * b)) = true).

End Scaling.

(** ** More inputs *)

Module Samples.

Import JS Builtins Visualization Grid TensorField Layers MapView Scenarios.
Local Open Scope float_scope.

(** A field with no flow. *)
Definition still_field : list (list VectorField) := repeat (repeat (mkPoint 0 0) 20) 20.

(** Three points, their distorted twins carrying 5, 0 and 25 minutes. *)
Definition twins_5_0_25 : list GridPoint :=
  [sample "a" 0 0 (Some 5); sample "b" 1 0 (Some 0); sample "c" 0 1 (Some 25)].

(** A stand-in for the grid functions of the geometry library: the grid is
    the centre and two more points. *)
Definition three_circle (center : Coord) (radius : float) : result Coord := Ret center.
Definition three_bbox (circle : Coord) : result Coord := Ret circle.
Definition three_pointGrid (bbox : Coord) (cellSize : float) (circle : Coord)
  : result (list Coord) :=
  Ret [circle; (fst circle + cellSize, snd circle); (fst circle, snd circle + cellSize)].

(** A stand-in for [turf.point] and [turf.distance]: the feature of a
    position is the position, and the distance is the planar one. *)
Definition flat_point (c : Coord) : result Coord := Ret c.
Definition flat_distance (a b : Coord) : result float := Ret (planar_distance a b).

(** The points [(0,0)], [(1,0)], [(0,1)] of scenario A moved to [(3,4)],
    [(1,0)] and [(0,2)]. *)
Definition scenario_A_moved : list GridPoint :=
  [mkGridPoint "point-0" (3, 4) None None None;
   mkGridPoint "point-1" (1, 0) None None None;
   mkGridPoint "point-2" (0, 2) None None None].

(** A stand-in for [turf.buffer] on a collection and [turf.coordAll]: the
    buffer is the collection, and its positions are its points. *)
Definition unit_buffer_fc (features : list Coord) : result (option (list Coord)) :=
  Ret (Some features).
Definition unit_coordAll (buffer : list Coord) : result (list Coord) := Ret buffer.





(** The printing of the two hues the test reads. *)
Definition two_hues (hue : float) : string :=
  if hue =? 240 then "240" else if hue =? 0 then "0" else "?".

End Samples.

(** ** Facts on binary64 arithmetic

    Read off the specification of the primitive operations ([SpecFloat]):
    the order is decided by sign, exponent and mantissa; a product or a
    quotient carries the exclusive-or of the signs; [x - x], [x / x] and
    [1 * x] are exact. *)

Module FloatFacts.

Local Open Scope float_scope.

Ltac sf_cmp :=
  repeat match goal with
  | H : context [Z.compare ?a ?b] |- _ => destruct (Z.compare_spec a b); simpl in H
  | |- context [Z.compare ?a ?b] => destruct (Z.compare_spec a b); simpl
  | H : context [Pos.compare_cont Eq ?a ?b] |- _ =>
      change (Pos.compare_cont Eq a b) with (Pos.compare a b) in H
  | |- context [Pos.compare_cont Eq ?a ?b] =>
      change (Pos.compare_cont Eq a b) with (Pos.compare a b)
  | H : context [Pos.compare ?a ?b] |- _ => destruct (Pos.compare_spec a b); simpl in H
  | |- context [Pos.compare ?a ?b] => destruct (Pos.compare_spec a b); simpl
  end.

(** Case analysis on the operands of a comparison, then on the exponents
    and the mantissas. *)
Ltac sf_order :=
  unfold SFleb, SFltb, SFeqb, SFcompare; intros;
  repeat match goal with x : spec_float |- _ => destruct x end;
  repeat match goal with s : bool |- _ => destruct s end;
  simpl in *; try discriminate; try reflexivity;
  sf_cmp; subst; try discriminate; try reflexivity; try lia.

Section Order.

Lemma SFleb_ltb_trans x y z : SFleb x y = true -> SFltb y z = true -> SFltb x z = true.
Proof. revert x y z. sf_order. Qed.

Lemma SFleb_trans x y z : SFleb x y = true -> SFleb y z = true -> SFleb x z = true.
Proof. revert x y z. sf_order. Qed.

Lemma SFltb_leb x y : SFltb x y = true -> SFleb x y = true.
Proof. revert x y. sf_order. Qed.

Lemma SFleb_ltb_false x y : SFleb x y = true -> SFltb y x = false.
Proof. revert x y. sf_order. Qed.

Lemma SFeqb_leb x y : SFeqb x y = true -> SFleb x y = true.
Proof. revert x y. sf_order. Qed.

Lemma SFeqb_sym x y : SFeqb x y = true -> SFeqb y x = true.
Proof. revert x y. sf_order. Qed.

Lemma SFleb_antisym x y : SFleb x y = true -> SFleb y x = true -> SFeqb x y = true.
Proof. revert x y. sf_order. Qed.

Lemma SFleb_refl x : x <> S754_nan -> SFleb x x = true.
Proof. revert x. sf_order; congruence. Qed.

Lemma SFltb_irrefl x : SFltb x x = false.
Proof. revert x. sf_order. Qed.

(** Two numbers that are not [NaN] compare. *)
Lemma SF_total x y :
  x <> S754_nan -> y <> S754_nan ->
  SFltb x y = false -> SFltb y x = false -> SFeqb x y = true.
Proof. revert x y. sf_order; congruence. Qed.

End Order.

Lemma leb_ltb_trans x y z : (x <=? y) = true -> (y <? z) = true -> (x <? z) = true.
Proof. rewrite !leb_spec, !ltb_spec. apply SFleb_ltb_trans. Qed.

Lemma leb_trans x y z : (x <=? y) = true -> (y <=? z) = true -> (x <=? z) = true.
Proof. rewrite !leb_spec. apply SFleb_trans. Qed.

Lemma ltb_leb x y : (x <? y) = true -> (x <=? y) = true.
Proof. rewrite leb_spec, ltb_spec. apply SFltb_leb. Qed.

Lemma leb_ltb_false x y : (x <=? y) = true -> (y <? x) = false.
Proof. rewrite leb_spec, ltb_spec. apply SFleb_ltb_false. Qed.

Lemma eqb_leb x y : (x =? y) = true -> (x <=? y) = true.
Proof. rewrite leb_spec, eqb_spec. apply SFeqb_leb. Qed.

Lemma eqb_sym x y : (x =? y) = true -> (y =? x) = true.
Proof. rewrite !eqb_spec. apply SFeqb_sym. Qed.

Lemma leb_antisym x y : (x <=? y) = true -> (y <=? x) = true -> (x =? y) = true.
Proof. rewrite !leb_spec, eqb_spec. apply SFleb_antisym. Qed.

Lemma ltb_irrefl x : (x <? x) = false.
Proof. rewrite ltb_spec. apply SFltb_irrefl. Qed.

(** [NaN] is the one number that differs from itself. *)
Lemma is_nan_spec x : is_nan x = true <-> Prim2SF x = S754_nan.
Proof.
  unfold is_nan. rewrite eqb_spec. unfold SFeqb, SFcompare.
  destruct (Prim2SF x) as [s|s| |s m e]; simpl.
  - split; discriminate.
  - destruct s; split; discriminate.
  - split; reflexivity.
  - change (Pos.compare_cont Eq m m) with (Pos.compare m m).
    rewrite Z.compare_refl, Pos.compare_refl. destruct s; split; discriminate.
Qed.

Lemma is_nan_false x : is_nan x = false <-> Prim2SF x <> S754_nan.
Proof.
  rewrite <- is_nan_spec. destruct (is_nan x); split; congruence.
Qed.

Lemma leb_refl x : is_nan x = false -> (x <=? x) = true.
Proof. rewrite is_nan_false, leb_spec. apply SFleb_refl. Qed.

Lemma ltb_total x y :
  is_nan x = false -> is_nan y = false ->
  (x <? y) = false -> (y <? x) = false -> (x =? y) = true.
Proof. rewrite !is_nan_false, !ltb_spec, eqb_spec. apply SF_total. Qed.

Lemma leb_not_nan x y : (x <=? y) = true -> is_nan x = false /\ is_nan y = false.
Proof.
  rewrite leb_spec, !is_nan_false. unfold SFleb, SFcompare.
  destruct (Prim2SF x), (Prim2SF y); try discriminate; split; discriminate.
Qed.

Lemma nan_is (x : float) : Prim2SF x = S754_nan -> x = nan.
Proof. intros H. apply Prim2SF_inj. rewrite H. reflexivity. Qed.

End FloatFacts.

Module FloatArith.

Import Signs FloatFacts.
Local Open Scope float_scope.

Lemma signed_nonneg x : signed false x -> nonneg_sf x.
Proof. destruct x; simpl; auto. Qed.

Lemma nonneg_sf_leb x : nonneg_sf x <-> SFleb (S754_zero false) x = true.
Proof.
  unfold SFleb, SFcompare. destruct x as [s|s| |s m e]; simpl.
  - split; auto.
  - destruct s; split; congruence.
  - split; [contradiction | discriminate].
  - destruct s; split; congruence.
Qed.

Lemma nonneg_spec x : (0 <=? x) = true <-> nonneg_sf (Prim2SF x).
Proof. rewrite leb_spec, nonneg_sf_leb. reflexivity. Qed.

Section Rounding.

Lemma iter_pos_inv {A : Type} (P : A -> Prop) (f : A -> A) :
  (forall a, P a -> P (f a)) -> forall p a, P a -> P (iter_pos f p a).
Proof.
  intros Hf p. induction p as [p IH|p IH|]; intros a Ha; simpl; auto.
Qed.

Lemma shr_1_nonneg mrs : (0 <= shr_m mrs)%Z -> (0 <= shr_m (shr_1 mrs))%Z.
Proof.
  destruct mrs as [m r s]. simpl. destruct m as [|[p|p|]|[p|p|]]; simpl; lia.
Qed.

Lemma shr_nonneg mrs e n : (0 <= shr_m mrs)%Z -> (0 <= shr_m (fst (shr mrs e n)))%Z.
Proof.
  intros H. unfold shr. destruct n; simpl; auto.
  apply (iter_pos_inv (fun r => (0 <= shr_m r)%Z)); auto using shr_1_nonneg.
Qed.

Lemma shr_fexp_nonneg m e l :
  (0 <= m)%Z -> (0 <= shr_m (fst (shr_fexp prec emax m e l)))%Z.
Proof.
  intros H. unfold shr_fexp. apply shr_nonneg.
  destruct l as [|[]]; simpl; assumption.
Qed.

Lemma round_nearest_even_nonneg m l : (0 <= m)%Z -> (0 <= round_nearest_even m l)%Z.
Proof.
  intros H. unfold round_nearest_even. destruct l as [|[]]; try lia.
  destruct (Z.even m); lia.
Qed.

(** Rounding a non-negative mantissa keeps the sign it is given. *)
Lemma binary_round_aux_signed s mx ex lx :
  (0 <= mx)%Z -> signed s (binary_round_aux prec emax s mx ex lx).
Proof.
  intros H. unfold binary_round_aux.
  pose proof (shr_fexp_nonneg mx ex lx H) as H1.
  destruct (shr_fexp prec emax mx ex lx) as [mrs' e']. simpl in H1.
  pose proof (shr_fexp_nonneg _ e' loc_Exact
                (round_nearest_even_nonneg _ (loc_of_shr_record mrs') H1)) as H2.
  destruct (shr_fexp prec emax _ e' loc_Exact) as [mrs'' e'']. simpl in H2.
  destruct (shr_m mrs'') as [|p|p]; try lia.
  - reflexivity.
  - destruct (e'' <=? emax - prec)%Z; reflexivity.
Qed.

End Rounding.

Lemma SFmul_nonneg x m e :
  nonneg_sf x -> nonneg_sf (SF64mul x (S754_finite false m e)).
Proof.
  unfold SF64mul, SFmul. destruct x as [s|s| |s mx ex]; simpl; intros H; subst; auto.
  apply signed_nonneg, binary_round_aux_signed. lia.
Qed.

Lemma SFdiv_nonneg x m e :
  nonneg_sf x -> nonneg_sf (SF64div x (S754_finite false m e)).
Proof.
  unfold SF64div, SFdiv. destruct x as [s|s| |s mx ex]; simpl; intros H; subst; auto.
  apply signed_nonneg. unfold SFdiv_core_binary.
  set (e' := Z.min _ _).
  set (m' := match (ex - e - e')%Z with Z0 => _ | Zpos _ => _ | Zneg _ => _ end).
  assert (0 <= m')%Z as Hm.
  { subst m'. destruct (ex - e - e')%Z; try lia. apply Z.shiftl_nonneg. lia. }
  pose proof (Z.div_pos m' (Zpos m) Hm ltac:(lia)) as Hq.
  unfold Z.div in Hq. destruct (Z.div_eucl m' (Z.pos m)) as [q r]. simpl in Hq.
  apply binary_round_aux_signed. assumption.
Qed.

(** A product or quotient of a number at least zero by a positive finite
    number is at least zero. *)
Lemma mul_nonneg x y m e :
  Prim2SF y = S754_finite false m e -> (0 <=? x) = true -> (0 <=? x * y) = true.
Proof.
  rewrite !nonneg_spec, mul_spec. intros ->. apply SFmul_nonneg.
Qed.

Lemma div_nonneg x y m e :
  Prim2SF y = S754_finite false m e -> (0 <=? x) = true -> (0 <=? x / y) = true.
Proof.
  rewrite !nonneg_spec, div_spec. intros ->. apply SFdiv_nonneg.
Qed.

(** [x - x] is [+0], or [NaN] when [x] is infinite or [NaN]. *)
Lemma SFsub_diag x :
  SF64sub x x = S754_zero false \/ SF64sub x x = S754_nan.
Proof.
  unfold SF64sub, SFsub. destruct x as [[]|[]| |s m e]; auto.
  left. rewrite Z.sub_diag. reflexivity.
Qed.

(** The difference of two equal numbers is a zero or [NaN]. *)
Lemma SFsub_eqb x y :
  SFeqb x y = true ->
  (exists s, SF64sub x y = S754_zero s) \/ SF64sub x y = S754_nan.
Proof.
  unfold SFeqb, SFcompare.
  destruct x as [s1|s1| |s1 m1 e1], y as [s2|s2| |s2 m2 e2]; simpl; intros H;
    try discriminate H;
    try solve [destruct s1, s2; try discriminate H;
               ((left; eexists; reflexivity) || (right; reflexivity))];
    try solve [destruct s1; discriminate H];
    try solve [destruct s2; discriminate H].
  assert (s1 = s2 /\ e1 = e2 /\ m1 = m2) as (-> & -> & ->).
  { change (Pos.compare_cont Eq m1 m2) with (Pos.compare m1 m2) in H.
    destruct s1, s2; try discriminate;
      destruct (Z.compare_spec e1 e2); try discriminate;
      destruct (Pos.compare_spec m1 m2); try discriminate; auto. }
  destruct (SFsub_diag (S754_finite s2 m2 e2)) as [E|E];
    [left; eexists; exact E | right; exact E].
Qed.

Lemma SFdiv_zero_or_nan x y :
  ((exists s, x = S754_zero s) \/ x = S754_nan) ->
  ((exists s, y = S754_zero s) \/ y = S754_nan) ->
  SF64div x y = S754_nan.
Proof.
  intros [[s ->]| ->] [[s' ->]| ->]; reflexivity.
Qed.

Lemma div_eucl_shift m : Z.div_eucl (Z.shiftl (Z.pos m) 53) (Z.pos m) = (2 ^ 53, 0)%Z.
Proof.
  rewrite Z.shiftl_mul_pow2 by lia.
  pose proof (Z.div_mul (2 ^ 53) (Z.pos m) ltac:(lia)) as Hd.
  pose proof (Z.mod_mul (2 ^ 53) (Z.pos m) ltac:(lia)) as Hm.
  rewrite (Z.mul_comm (Z.pos m)).
  unfold Z.div, Z.modulo in Hd, Hm.
  destruct (Z.div_eucl (2 ^ 53 * Z.pos m) (Z.pos m)) as [q r]. simpl in *. congruence.
Qed.

(** [x / x] is exactly [1] for a finite non-zero [x]. *)
Lemma SFdiv_diag s m e :
  SF64div (S754_finite s m e) (S754_finite s m e) = S754_finite false 4503599627370496 (-52).
Proof.
  unfold SF64div, SFdiv, SFdiv_core_binary.
  rewrite !Z.sub_diag.
  change (Z.min (fexp prec emax 0) 0) with (-53)%Z.
  change (0 - -53)%Z with 53%Z. cbv iota.
  rewrite div_eucl_shift.
  replace (new_location (Z.pos m) 0) with loc_Exact
    by (unfold new_location; destruct (Z.even (Z.pos m)); reflexivity).
  rewrite xorb_nilpotent. reflexivity.
Qed.

Lemma div_diag x s m e : Prim2SF x = S754_finite s m e -> x / x = 1.
Proof.
  intros H. apply Prim2SF_inj. rewrite div_spec, H, SFdiv_diag. reflexivity.
Qed.

(** [1 * x] is exactly [x]. *)
Lemma SFmul_1_l x :
  valid_binary x = true -> SF64mul (S754_finite false 4503599627370496 (-52)) x = x.
Proof.
  destruct x as [s|s| |s m e]; try reflexivity.
  unfold valid_binary, SpecFloat.valid_binary, bounded, canonical_mantissa.
  intros H. apply andb_prop in H. destruct H as [Hc Hb].
  apply Z.eqb_eq in Hc. apply Z.leb_le in Hb.
  unfold SF64mul, SFmul. cbn [xorb].
  unfold binary_round_aux, shr_fexp, Zdigits2.
  cbn [Pos.mul digits2_pos].
  unfold fexp in *.
  match goal with |- context [shr _ _ ?n] => replace n with 52%Z end.
  2:{ change (SpecFloat.emin prec emax) with (-1074)%Z in *. change prec with 53%Z in *. lia. }
  cbn [shr iter_pos shr_1 shr_record_of_loc orb fst snd shr_m shr_r shr_s
       loc_of_shr_record round_nearest_even].
  unfold Zdigits2.
  replace (-52 + e + 52)%Z with e by lia.
  rewrite Hc, Z.sub_diag. cbn [shr shr_m].
  destruct (e <=? emax - prec)%Z eqn:E; [reflexivity | apply Z.leb_gt in E; lia].
Qed.

Lemma mul_1_l x : 1 * x = x.
Proof.
  apply Prim2SF_inj. rewrite mul_spec.
  change (Prim2SF 1) with (S754_finite false 4503599627370496 (-52)).
  apply SFmul_1_l, Prim2SF_valid.
Qed.

(** *** Addition does not go below its operands

    For operands at least zero, [x + y] rounds a sum that is at least [x];
    rounding to nearest keeps it at least [x], because [x] is itself a
    binary64 number.  The proof follows the rounding algorithm: the mantissa
    of the sum is shifted right to the exponent [fexp] prescribes, which is
    at least the exponent of [x]. *)

Section AddLowerBound.

Local Open Scope Z_scope.

Lemma digits2_size p : digits2_pos p = Pos.size p.
Proof. induction p; simpl; congruence. Qed.

Lemma digits2_bounds p :
  2 ^ (Zpos (digits2_pos p) - 1) <= Zpos p < 2 ^ Zpos (digits2_pos p).
Proof.
  rewrite digits2_size.
  pose proof (Pos.size_gt p) as Hgt. pose proof (Pos.size_le p) as Hle.
  apply Pos2Z.pos_lt_pos in Hgt. apply Pos2Z.pos_le_pos in Hle.
  rewrite Pos2Z.inj_pow in Hgt, Hle.
  rewrite Pos2Z.inj_xO in Hle.
  replace (Z.pos (Pos.size p)) with (Z.succ (Z.pos (Pos.size p) - 1)) in Hle by lia.
  rewrite Z.pow_succ_r in Hle by lia.
  change (2 * 1) with 2 in Hle. change (Z.pos p~0) with (2 * Z.pos p) in Hle. lia.
Qed.

Lemma iter_pos_nat {A : Type} (f : A -> A) p : forall x, iter_pos f p x = Nat.iter (Pos.to_nat p) f x.
Proof.
  induction p as [p IH|p IH|]; intros x; cbn [iter_pos].
  - rewrite !IH, Pos2Nat.inj_xI, <- Nat.iter_succ_r, <- Nat.iter_add.
    f_equal. lia.
  - rewrite !IH, Pos2Nat.inj_xO, <- Nat.iter_add. f_equal. lia.
  - reflexivity.
Qed.

Lemma shr_1_div2 mrs : 0 <= shr_m mrs -> shr_m (shr_1 mrs) = shr_m mrs / 2.
Proof.
  destruct mrs as [m r s]. simpl. intros H.
  destruct m as [|[p|p|]|p]; try lia; simpl.
  - reflexivity.
  - rewrite Pos2Z.inj_xI. apply Z.div_unique with 1; lia.
  - rewrite Pos2Z.inj_xO. apply Z.div_unique with 0; lia.
  - reflexivity.
Qed.

Lemma iter_shr_1 n mrs :
  0 <= shr_m mrs -> shr_m (Nat.iter n shr_1 mrs) = shr_m mrs / 2 ^ Z.of_nat n.
Proof.
  intros H. induction n as [|n IH].
  - simpl. now rewrite Z.div_1_r.
  - change (Nat.iter (S n) shr_1 mrs) with (shr_1 (Nat.iter n shr_1 mrs)).
    rewrite shr_1_div2, IH.
    + rewrite Nat2Z.inj_succ, Z.pow_succ_r by lia.
      rewrite Z.div_div by lia. f_equal. lia.
    + rewrite IH. apply Z.div_pos; lia.
Qed.

(** The first component of [shr_fexp]: the mantissa divided by the power
    of two that brings the exponent to [fexp]. *)
Lemma shr_fexp_spec m e l :
  0 < m ->
  let k := Z.max (fexp prec emax (Zdigits2 m + e) - e) 0 in
  shr_m (fst (shr_fexp prec emax m e l)) = m / 2 ^ k /\
  snd (shr_fexp prec emax m e l) = e + k.
Proof.
  intros Hm k. unfold shr_fexp, shr. subst k.
  assert (shr_m (shr_record_of_loc m l) = m) as Hr by (destruct l as [|[]]; reflexivity).
  destruct (fexp prec emax (Zdigits2 m + e) - e) as [|p|p]; simpl fst; simpl snd.
  - rewrite Hr. simpl. rewrite Z.div_1_r. split; lia.
  - rewrite iter_pos_nat, iter_shr_1 by lia. rewrite Hr, positive_nat_Z.
    rewrite Z.max_l by lia. split; reflexivity.
  - rewrite Hr. rewrite Z.max_r by lia. simpl. rewrite Z.div_1_r. split; lia.
Qed.

Lemma round_nearest_even_bounds m l : m <= round_nearest_even m l <= m + 1.
Proof.
  unfold round_nearest_even. destruct l as [|[]]; try lia. destruct (Z.even m); lia.
Qed.

Lemma fexp_eq z : fexp prec emax z = Z.max (z - 53) (-1074).
Proof. reflexivity. Qed.

Lemma div_pow_ge_1 m k d :
  0 <= k <= d - 1 -> 2 ^ (d - 1) <= m -> 1 <= m / 2 ^ k.
Proof.
  intros Hk Hm. apply Z.div_le_lower_bound; [apply Z.pow_pos_nonneg; lia|].
  rewrite Z.mul_1_r. transitivity (2 ^ (d - 1)); [|exact Hm].
  apply Z.pow_le_mono_r; lia.
Qed.

(** The second half of [binary_round_aux]: renormalising a positive
    mantissa [m1] at an exponent [e'] that is at least [ex], with [m1] at
    least [mx] when the exponents agree, gives a number at least [(mx, ex)]. *)
Lemma renormalise_ge mx ex m1 e' :
  0 < m1 -> -1074 <= ex <= e' -> (e' = ex -> Zpos mx <= m1) ->
  SFleb (S754_finite false mx ex)
    (let '(mrs, e'') := shr_fexp prec emax m1 e' loc_Exact in
     match shr_m mrs with
     | Z0 => S754_zero false
     | Zpos m => if e'' <=? emax - prec then S754_finite false m e'' else S754_infinity false
     | Zneg _ => S754_nan
     end) = true.
Proof.
  intros Hm1 He Hx.
  destruct (shr_fexp_spec m1 e' loc_Exact Hm1) as [H2m H2e].
  destruct (shr_fexp prec emax m1 e' loc_Exact) as [mrs e''].
  simpl fst in H2m. simpl snd in H2e. rewrite fexp_eq in H2m, H2e.
  destruct m1 as [|p1|p1]; try lia.
  pose proof (digits2_bounds p1) as Hd1.
  change (Zdigits2 (Zpos p1)) with (Zpos (digits2_pos p1)) in H2m, H2e.
  set (d1 := Zpos (digits2_pos p1)) in *.
  assert (1 <= d1) as Hd1pos by (subst d1; lia). clearbody d1.
  set (k := Z.max (Z.max (d1 + e' - 53) (-1074) - e') 0) in *.
  assert (0 <= k <= d1 - 1) as Hk by (subst k; lia).
  assert (e' = ex -> e'' = ex -> k = 0) as Hk0 by (subst k; lia).
  assert (ex <= e'') as He'' by lia.
  clearbody k.
  assert (1 <= shr_m mrs) as Hm2.
  { rewrite H2m. apply (div_pow_ge_1 _ _ d1); [exact Hk | apply Hd1]. }
  destruct (shr_m mrs) as [|m2|m2] eqn:Em2; try (exfalso; clear - Hm2; lia).
  destruct (e'' <=? emax - prec); [|reflexivity].
  unfold SFleb, SFcompare.
  change (Pos.compare_cont Eq mx m2) with (Pos.compare mx m2).
  destruct (Z.compare_spec ex e'') as [E|E|E]; try reflexivity.
  - destruct (Pos.compare_spec mx m2) as [Em|Em|Em]; try reflexivity.
    exfalso. assert (e' = ex) as E' by (clear - He He'' H2e E Hk; lia).
    specialize (Hx E'). rewrite (Hk0 E' (eq_sym E)) in H2m.
    rewrite Z.div_1_r in H2m. clear - H2m Hx Em. lia.
  - exfalso. clear - E He''. lia.
Qed.

(** Rounding a mantissa that is at least [mx * 2 ^ (ex - e)] at exponent [e]
    does not go below the number [(mx, ex)]. *)
Lemma binary_round_aux_ge mx ex M e :
  bounded prec emax mx ex = true ->
  e <= ex -> Zpos mx * 2 ^ (ex - e) <= Zpos M ->
  SFleb (S754_finite false mx ex)
        (binary_round_aux prec emax false (Zpos M) e loc_Exact) = true.
Proof.
  intros Hb He HM.
  unfold bounded, canonical_mantissa in Hb. apply andb_prop in Hb.
  destruct Hb as [Hc Hmax]. apply Z.eqb_eq in Hc. apply Z.leb_le in Hmax.
  rewrite fexp_eq in Hc.
  pose proof (digits2_bounds mx) as Hdx. pose proof (digits2_bounds M) as HdM.
  set (dx := Zpos (digits2_pos mx)) in *. set (dM := Zpos (digits2_pos M)) in *.
  assert (dx + ex <= dM + e) as Hd.
  { assert (2 ^ (dx - 1 + (ex - e)) < 2 ^ dM) as Hlt.
    { rewrite Z.pow_add_r by lia.
      apply Z.le_lt_trans with (Zpos M); [|lia].
      transitivity (Zpos mx * 2 ^ (ex - e)); [|exact HM].
      apply Z.mul_le_mono_nonneg_r; [apply Z.pow_nonneg; lia | lia]. }
    apply Z.pow_lt_mono_r_iff in Hlt; lia. }
  unfold binary_round_aux.
  destruct (shr_fexp_spec (Zpos M) e loc_Exact ltac:(lia)) as [H1m H1e].
  destruct (shr_fexp prec emax (Zpos M) e loc_Exact) as [mrs' e'].
  simpl fst in H1m. simpl snd in H1e.
  change (Zdigits2 (Zpos M)) with dM in H1m, H1e. rewrite fexp_eq in H1m, H1e.
  set (q := shr_m mrs') in *.
  pose proof (round_nearest_even_bounds q (loc_of_shr_record mrs')) as Hr.
  set (m1 := round_nearest_even q (loc_of_shr_record mrs')) in *.
  assert (ex <= e') as He' by lia.
  assert (1 <= q /\ (e' = ex -> Zpos mx <= q)) as [Hq1 Hqx].
  { destruct (Z.eq_dec e' ex) as [E|E].
    - assert (Zpos mx <= q) as Hq.
      { rewrite H1m. replace (Z.max (Z.max (dM + e - 53) (-1074) - e) 0) with (ex - e) by lia.
        apply Z.div_le_lower_bound; [apply Z.pow_pos_nonneg; lia|].
        rewrite Z.mul_comm. exact HM. }
      split; [lia | intros _; exact Hq].
    - split; [|intros; contradiction].
      rewrite H1m. apply (div_pow_ge_1 _ _ dM); lia. }
  apply (renormalise_ge mx ex m1 e'); [lia | lia | intros E; specialize (Hqx E); lia].
Qed.

Lemma pos_iter_xO m d : Zpos (Pos.iter xO m d) = Zpos m * 2 ^ Zpos d.
Proof.
  induction d as [|d IH] using Pos.peano_ind.
  - simpl. lia.
  - rewrite Pos.iter_succ, Pos2Z.inj_xO, IH, Pos2Z.inj_succ, Z.pow_succ_r by lia. lia.
Qed.

Lemma shl_align_spec m e e' :
  snd (shl_align m e e') = Z.min e e' /\
  Zpos (fst (shl_align m e e')) = Zpos m * 2 ^ (e - Z.min e e').
Proof.
  unfold shl_align. destruct (e' - e) as [|d|d] eqn:E; simpl fst; simpl snd.
  - rewrite Z.min_l by lia. rewrite Z.sub_diag. simpl. lia.
  - rewrite Z.min_l by lia. rewrite Z.sub_diag. simpl. lia.
  - rewrite Z.min_r by lia. rewrite pos_iter_xO. split; [reflexivity|]. f_equal. f_equal. lia.
Qed.

Lemma binary_round_ge mx ex s e :
  bounded prec emax mx ex = true ->
  e <= ex -> Zpos mx * 2 ^ (ex - e) <= Zpos s ->
  SFleb (S754_finite false mx ex) (binary_round prec emax false s e) = true.
Proof.
  intros Hb He Hs. unfold binary_round.
  destruct (shl_align_spec s e (fexp prec emax (Zpos (digits2_pos s) + e))) as [H2 H1].
  destruct (shl_align s e _) as [mz ez]. simpl fst in H1. simpl snd in H2.
  apply binary_round_aux_ge; [exact Hb | lia |].
  rewrite H1, H2.
  replace (ex - Z.min e (fexp prec emax (Zpos (digits2_pos s) + e)))
    with ((ex - e) + (e - Z.min e (fexp prec emax (Zpos (digits2_pos s) + e)))) by lia.
  rewrite Z.pow_add_r by lia. rewrite Z.mul_assoc.
  apply Z.mul_le_mono_nonneg_r; [apply Z.pow_nonneg; lia | exact Hs].
Qed.

Lemma SFadd_ge x y :
  valid_binary x = true -> valid_binary y = true -> nonneg_sf x -> nonneg_sf y ->
  SFleb x (SF64add x y) = true /\ SFleb y (SF64add x y) = true.
Proof.
  intros Vx Vy Hx Hy. unfold SF64add, SFadd.
  destruct x as [sx|sx| |sx mx ex], y as [sy|sy| |sy my ey]; simpl in Hx, Hy;
    try contradiction; subst;
    try (destruct sx); try (destruct sy); try (split; reflexivity);
    try (split; [reflexivity | apply SFleb_refl; discriminate]);
    try (split; [apply SFleb_refl; discriminate | reflexivity]).
  simpl in Vx, Vy. cbn [cond_Zopp].
  change IntDef.Z.min with Z.min.
  set (ez := Z.min ex ey).
  destruct (shl_align_spec mx ex ez) as [_ Hmx].
  destruct (shl_align_spec my ey ez) as [_ Hmy].
  replace (Z.min ex ez) with ez in Hmx by lia.
  replace (Z.min ey ez) with ez in Hmy by lia.
  rewrite <- Pos2Z.inj_add. unfold binary_normalize.
  assert (0 < 2 ^ (ex - ez) /\ 0 < 2 ^ (ey - ez)) as [Px Py]
    by (split; apply Z.pow_pos_nonneg; lia).
  split; apply binary_round_ge; try assumption; try lia;
    rewrite Pos2Z.inj_add; nia.
Qed.

End AddLowerBound.

Lemma add_ge x y :
  (0 <=? x) = true -> (0 <=? y) = true ->
  (x <=? x + y) = true /\ (y <=? x + y) = true.
Proof.
  rewrite !nonneg_spec, !leb_spec, add_spec. intros Hx Hy.
  apply SFadd_ge; auto using Prim2SF_valid.
Qed.

End FloatArith.

(** ** The numbers of JavaScript, tried *)

Module JSFacts.

Import JS.
Local Open Scope float_scope.

Example Math_floor_values :
  map Math_floor [0.5; -0.5; 7.5; -7.5; -2; 3; 18.999999999999996; -0; nan; infinity]
    = [0; -1; 7; -8; -2; 3; 18; -0; nan; infinity].
Proof. reflexivity. Qed.

Example Math_max_min_values :
  Math_max [5; 25; 15] = 25 /\ Math_min [5; 25; 15] = 5 /\
  Math_max [] = neg_infinity /\ Math_min [] = infinity /\
  Math_max [-0; 0] = 0 /\ Math_min [0; -0] = -0 /\ Math_max [1; nan; 3] = nan.
Proof. repeat split; reflexivity. Qed.

Example or_zero_values :
  map or_zero [Some 7; Some 0; Some (-0); Some nan; None; Some infinity]
    = [7; 0; 0; 0; 0; infinity].
Proof. reflexivity. Qed.

Example array_get_values :
  array_get [10; 20; 30] 2 = Some 30 /\ array_get [10; 20; 30] 3 = None /\
  array_get [10; 20; 30] (-0) = Some 10 /\ array_get [10; 20; 30] 1.5 = None /\
  array_get [10; 20; 30] nan = None /\ array_get [10; 20; 30] (-1) = None.
Proof. repeat split; reflexivity. Qed.

Example float_of_nat_values :
  float_of_nat 10 * 0.1 = 1 /\ float_of_nat 11 * 0.1 = 1.1000000000000001 /\
  0 / 0 = nan /\ 0.1 + 0.2 = 0.30000000000000004.
Proof. repeat split; reflexivity. Qed.

End JSFacts.

(** ** Lists under the array methods *)

Module ArrayFacts.

Import JS.
Local Open Scope nat_scope.

Lemma mapi_from_nth {A B : Type} (f : A -> nat -> B) (l : list A) :
  forall k i, nth_error (mapi_from f k l) i = option_map (fun a => f a (k + i)) (nth_error l i).
Proof.
  induction l as [|a l IH]; intros k i.
  - destruct i; reflexivity.
  - destruct i as [|i]; simpl.
    + rewrite Nat.add_0_r. reflexivity.
    + rewrite IH. rewrite Nat.add_succ_r. reflexivity.
Qed.

Lemma mapi_nth {A B : Type} (f : A -> nat -> B) (l : list A) (i : nat) :
  nth_error (mapi f l) i = option_map (fun a => f a i) (nth_error l i).
Proof. unfold mapi. rewrite mapi_from_nth. reflexivity. Qed.

Lemma mapi_from_length {A B : Type} (f : A -> nat -> B) (l : list A) :
  forall k, length (mapi_from f k l) = length l.
Proof. induction l as [|a l IH]; intros k; simpl; [reflexivity | now rewrite IH]. Qed.

Lemma mapi_length {A B : Type} (f : A -> nat -> B) (l : list A) :
  length (mapi f l) = length l.
Proof. apply mapi_from_length. Qed.


Lemma filteri_from_ext {A : Type} (f g : A -> nat -> bool) (l : list A) :
  forall k, (forall j a, nth_error l j = Some a -> f a (k + j) = g a (k + j)) ->
  filteri_from f k l = filteri_from g k l.
Proof.
  induction l as [|b l IH]; intros k H; simpl; [reflexivity|].
  rewrite (IH (S k)).
  - specialize (H 0 b eq_refl). rewrite Nat.add_0_r in H. rewrite H. reflexivity.
  - intros j a Hj. specialize (H (S j) a Hj). rewrite Nat.add_succ_r in H. exact H.
Qed.

(** [mapM] returns when every call returns, and then position by position. *)
Lemma mapM_Ret {A B : Type} (f : A -> result B) (l : list A) (bs : list B) :
  mapM f l = Ret bs -> Forall2 (fun a b => f a = Ret b) l bs.
Proof.
  revert bs. induction l as [|a l IH]; intros bs H; simpl in H.
  - injection H as <-. constructor.
  - destruct (f a) as [b|] eqn:Ea; simpl in H; [|discriminate].
    destruct (mapM f l) as [bs'|] eqn:El; simpl in H; [|discriminate].
    injection H as <-. constructor; auto.
Qed.

Lemma mapM_total {A B : Type} (f : A -> result B) (g : A -> B) (l : list A) :
  (forall a, In a l -> f a = Ret (g a)) -> mapM f l = Ret (map g l).
Proof.
  induction l as [|a l IH]; intros H; simpl; [reflexivity|].
  rewrite (H a (or_introl eq_refl)). simpl.
  rewrite IH by (intros b Hb; apply H; right; exact Hb). reflexivity.
Qed.

Lemma mapiM_from_Ret {A B : Type} (f : A -> nat -> result B) (l : list A) :
  forall k bs, mapiM_from f k l = Ret bs ->
  length bs = length l /\
  forall i a, nth_error l i = Some a ->
  exists b, nth_error bs i = Some b /\ f a (k + i) = Ret b.
Proof.
  induction l as [|a l IH]; intros k bs H; simpl in H.
  - injection H as <-. split; [reflexivity|]. intros [|i] ? Hi; discriminate.
  - destruct (f a k) as [b|] eqn:Ea; simpl in H; [|discriminate].
    destruct (mapiM_from f (S k) l) as [bs'|] eqn:El; simpl in H; [|discriminate].
    injection H as <-. destruct (IH _ _ El) as [Hlen Hnth].
    split; [simpl; now rewrite Hlen|].
    intros [|i] a' Hi; simpl in Hi.
    + injection Hi as <-. exists b. rewrite Nat.add_0_r. split; [reflexivity | exact Ea].
    + destruct (Hnth i a' Hi) as (b' & Hb' & Hf). exists b'.
      rewrite Nat.add_succ_r. split; assumption.
Qed.

Lemma mapiM_from_total {A B : Type} (f : A -> nat -> result B) (l : list A) :
  forall k, (forall i a, nth_error l i = Some a -> exists b, f a (k + i) = Ret b) ->
  exists bs, mapiM_from f k l = Ret bs.
Proof.
  induction l as [|a l IH]; intros k H; simpl.
  - eexists; reflexivity.
  - destruct (H 0 a eq_refl) as [b Hb]. rewrite Nat.add_0_r in Hb. rewrite Hb. simpl.
    destruct (IH (S k)) as [bs Hbs].
    + intros i a' Hi. destruct (H (S i) a' Hi) as [b' Hb'].
      rewrite Nat.add_succ_r in Hb'. eauto.
    + rewrite Hbs. simpl. eexists; reflexivity.
Qed.

End ArrayFacts.

(** ** Streamlines: termination and length *)

Module StreamlineFacts.

Import JS Visualization Scenarios FloatFacts FloatArith ArrayFacts.
Local Open Scope float_scope.

Section Loop.

Variable vectorField : list (list VectorField).
Variable bounds : Bounds.
Variable options : StreamlineOptions.
Variable h : float.

Let s := stepSize options.
Let L := lineLength options.

(** What the loop guarantees of the line it returns: it only grows, by at
    most one point per iteration, and whenever it grew by two points or more
    the length test was negative at the last point but one. *)
Lemma integrate_loop_inv :
  forall fuel x y line r,
  integrate_loop vectorField bounds options h fuel x y line = Ret r ->
  (length line <= length r <= length line + fuel)%nat /\
  ((length r <= S (length line))%nat \/
   (L <? float_of_nat (length r - 1) * s) = false).
Proof.
  induction fuel as [|fuel IH]; intros x y line r H; simpl in H.
  - injection H as <-. split; [lia | left; lia].
  - destruct (interpolateVector vectorField bounds h x y) as [[vector|]|]; simpl in H;
      try discriminate;
      try (injection H as <-; split; [lia | left; lia]).
    destruct (sqrt _ <? 1e-6);
      try (injection H as <-; split; [lia | left; lia]).
    match type of H with (if ?c then _ else _) = _ => destruct c end;
      try (injection H as <-; split; [lia | left; lia]).
    match type of H with (if ?c then _ else _) = _ => destruct c eqn:Hlen end.
    + injection H as <-. rewrite length_app. simpl. split; [lia | left; lia].
    + apply IH in H. rewrite length_app in H. simpl in H.
      destruct H as [Hb Hc]. split; [lia|].
      destruct Hc as [Hc|Hc]; [|right; exact Hc].
      destruct (Nat.eq_dec (length r) (length line + 2)) as [E|E]; [|left; lia].
      right. rewrite length_app in Hlen. simpl in Hlen.
      replace (length r - 1)%nat with (length line + 1)%nat by lia. exact Hlen.
Qed.

(** The line stops growing at the first length whose test is positive. *)
Lemma integrate_loop_cap n :
  (L <? float_of_nat n * s) = true ->
  forall fuel x y line r,
  (length line < n)%nat ->
  integrate_loop vectorField bounds options h fuel x y line = Ret r ->
  (length r <= n)%nat.
Proof.
  intros Hn. induction fuel as [|fuel IH]; intros x y line r Hline H; simpl in H.
  - injection H as <-. lia.
  - destruct (interpolateVector vectorField bounds h x y) as [[vector|]|]; simpl in H;
      try discriminate;
      try (injection H as <-; lia).
    destruct (sqrt _ <? 1e-6);
      try (injection H as <-; lia).
    match type of H with (if ?c then _ else _) = _ => destruct c end;
      try (injection H as <-; lia).
    rewrite length_app in H. simpl in H.
    match type of H with (if ?c then _ else _) = _ => destruct c eqn:Hlen end.
    + injection H as <-. rewrite length_app. simpl. lia.
    + apply IH in H; [exact H|]. rewrite length_app. simpl.
      destruct (Nat.eq_dec (length line + 1) n) as [E|E]; [|lia].
      rewrite E in Hlen. fold s L in Hlen. rewrite Hn in Hlen. discriminate Hlen.
Qed.

End Loop.

(** A line [integrateLine] returns with more than one point took between one
    and [maxSteps] steps; after two steps or more the length test was
    negative at the last step but one. *)
Lemma integrateLine_steps vf bounds options h x y line :
  integrateLine vf bounds options h x y = Ret line ->
  (1 < length line)%nat ->
  (1 <= steps_of line <= maxSteps options)%nat /\
  (steps_of line = 1%nat \/
   (lineLength options <? traversed (stepSize options) line) = false).
Proof.
  unfold integrateLine, steps_of, traversed. intros H Hlen.
  apply integrate_loop_inv in H. simpl in H. destruct H as [Hb Hc].
  split; [lia|]. destruct Hc as [Hc|Hc]; [left; lia | right; exact Hc].
Qed.

Lemma createStreamlines_lines vf bounds options lines :
  createStreamlines vf bounds options = Ret lines ->
  forall line, In line lines ->
  (1 < length line)%nat /\
  exists h seed, integrateLine vf bounds options h (px seed) (py seed) = Ret line.
Proof.
  unfold createStreamlines, bind. intros H line Hin.
  destruct (field_height vf) as [h|]; [|discriminate].
  destruct (mapM _ (seedPoints bounds)) as [ls|] eqn:Els; [|discriminate].
  injection H as <-. apply filter_In in Hin. destruct Hin as [Hin Hlen].
  apply Nat.ltb_lt in Hlen. split; [exact Hlen|].
  apply mapM_Ret in Els. exists h.
  clear Hlen. induction Els as [|seed l0 seeds ls Hseed _ IH]; [contradiction|].
  destruct Hin as [<-|Hin]; [exists seed; exact Hseed | exact (IH Hin)].
Qed.

(** C2, as stated, fails: with [lineLength = -1] and [stepSize = 0.1] the
    first step is taken before the length is looked at, and the line of one
    step that is returned has traversed [0.1], more than
    [lineLength + stepSize = -0.9]. *)
Lemma negative_lineLength_exceeds :
  exists lines line,
    createStreamlines uniform_field scenario_bounds negative_length_options = Ret lines /\
    In line lines /\
    (0 <? stepSize negative_length_options) = true /\
    (lineLength negative_length_options + stepSize negative_length_options
       <? traversed (stepSize negative_length_options) line) = true.
Proof.
  eexists. exists [mkPoint 0.5 0.5; mkPoint (0.5 + 0.1) 0.5].
  split; [vm_compute; reflexivity|].
  split; [left; reflexivity|]. split; reflexivity.
Qed.

(** C2 (amended): for a positive [stepSize] and a [lineLength] at least
    zero, every line [createStreamlines] returns took at least one and at
    most [maxSteps] integration steps, and its number of steps times
    [stepSize] does not exceed [lineLength + stepSize]. *)
Theorem createStreamlines_bounded vf bounds options lines :
  (0 <? stepSize options) = true ->
  (0 <=? lineLength options) = true ->
  createStreamlines vf bounds options = Ret lines ->
  Forall (fun line =>
            (1 <= steps_of line <= maxSteps options)%nat /\
            (lineLength options + stepSize options
               <? traversed (stepSize options) line) = false)
         lines.
Proof.
  intros Hs HL H. apply Forall_forall. intros line Hin.
  destruct (createStreamlines_lines _ _ _ _ H line Hin) as (Hlen & h & seed & Hline).
  destruct (integrateLine_steps _ _ _ _ _ _ _ Hline Hlen) as [Hsteps Hc].
  split; [exact Hsteps|].
  destruct (add_ge _ _ HL (ltb_leb _ _ Hs)) as [HLs Hss].
  destruct Hc as [Hone|Hc].
  - unfold traversed. rewrite Hone.
    change (float_of_nat 1) with 1. rewrite mul_1_l.
    apply leb_ltb_false. exact Hss.
  - destruct (lineLength options + stepSize options <? traversed (stepSize options) line)
      eqn:E; [|reflexivity].
    rewrite (leb_ltb_trans _ _ _ HLs E) in Hc. discriminate.
Qed.

Lemma createStreamlines_bounded_witness :
  exists lines,
    createStreamlines uniform_field scenario_bounds scenario_options = Ret lines /\
    length lines = 100%nat /\
    Forall (fun line =>
              (1 <= steps_of line <= maxSteps scenario_options)%nat /\
              (lineLength scenario_options + stepSize scenario_options
                 <? traversed (stepSize scenario_options) line) = false)
           lines.
Proof.
  eexists. split; [vm_compute; reflexivity|]. split; [reflexivity|].
  apply (createStreamlines_bounded uniform_field scenario_bounds scenario_options).
  - reflexivity.
  - reflexivity.
  - vm_compute. reflexivity.
Defined.

(** C9, as stated, fails: the line of scenario C has eleven points, not
    ten. *)
Lemma scenario_C_not_ten_points :
  ~ (exists line, scenario_line = Ret line /\ length line = 10%nat).
Proof.
  intros (line & H & Hlen). vm_compute in H. injection H as <-. discriminate Hlen.
Qed.

(** The count depends on the room the bounds leave: over the unit square
    the same seed gives six points, the line stopping at the right edge of
    the bounds. *)
Lemma unit_square_six_points :
  exists line, unit_square_line = Ret line /\ length line = 6%nat.
Proof. eexists. split; [vm_compute; reflexivity | reflexivity]. Qed.

(** With [stepSize = 0.1] and [lineLength = 1], no line has more than
    eleven points, whatever the field, the bounds and the seed. *)
Lemma scenario_C_at_most_eleven vf bounds h x y line :
  integrateLine vf bounds scenario_options h x y = Ret line -> (length line <= 11)%nat.
Proof.
  unfold integrateLine. apply integrate_loop_cap; [reflexivity | simpl; lia].
Qed.

(** C9 (amended): the line of scenario C has exactly eleven points, the
    seed [(5, 5)] followed by ten points; each point is the one before it
    moved by [stepSize] along [x], with [y] unchanged. *)
Theorem scenario_C_eleven_points :
  exists line,
    scenario_line = Ret line /\
    length line = 11%nat /\
    nth_error line 0 = Some (mkPoint 5 5) /\
    forall k p q,
      nth_error line k = Some p -> nth_error line (S k) = Some q ->
      px q = px p + 0.1 /\ py q = py p.
Proof.
  eexists. split; [vm_compute; reflexivity|].
  split; [reflexivity|]. split; [reflexivity|].
  intros k p q Hp Hq.
  do 10 (destruct k as [|k];
         [simpl in Hp, Hq; injection Hp as <-; injection Hq as <-; split; reflexivity|]).
  simpl in Hq. destruct k; discriminate Hq.
Qed.

End StreamlineFacts.

(** ** Metrics: the heat map, centrality, isochrones and coverage *)

Module MetricFacts.

Import JS Grid Statistical Scenarios FloatFacts FloatArith ArrayFacts.
Local Open Scope float_scope.

(** *** Numbers read through [|| 0] and their extrema *)

Lemma or_zero_not_nan o : is_nan (or_zero o) = false.
Proof.
  destruct o as [v|]; simpl; [|reflexivity].
  unfold truthy. destruct (is_nan v) eqn:E; simpl; [reflexivity|].
  destruct (is_zero v); simpl; [reflexivity | exact E].
Qed.

Lemma time_of_not_nan p : is_nan (time_of p) = false.
Proof. apply or_zero_not_nan. Qed.

Lemma max2_ge a b :
  is_nan a = false -> is_nan b = false ->
  is_nan (max2 a b) = false /\ (a <=? max2 a b) = true /\ (b <=? max2 a b) = true.
Proof.
  intros Ha Hb. unfold max2. rewrite Ha, Hb. simpl.
  destruct (a <? b) eqn:Eab.
  - auto using ltb_leb, leb_refl.
  - destruct (b <? a) eqn:Eba.
    + auto using ltb_leb, leb_refl.
    + pose proof (ltb_total a b Ha Hb Eab Eba) as E.
      destruct (get_sign a); auto using eqb_leb, eqb_sym, leb_refl.
Qed.

Lemma min2_le a b :
  is_nan a = false -> is_nan b = false ->
  is_nan (min2 a b) = false /\ (min2 a b <=? a) = true /\ (min2 a b <=? b) = true.
Proof.
  intros Ha Hb. unfold min2. rewrite Ha, Hb. simpl.
  destruct (a <? b) eqn:Eab.
  - auto using ltb_leb, leb_refl.
  - destruct (b <? a) eqn:Eba.
    + auto using ltb_leb, leb_refl.
    + pose proof (ltb_total a b Ha Hb Eab Eba) as E.
      destruct (get_sign a); auto using eqb_leb, eqb_sym, leb_refl.
Qed.

Lemma fold_max2_ge l :
  Forall (fun x => is_nan x = false) l ->
  forall acc, is_nan acc = false ->
  is_nan (fold_left max2 l acc) = false /\
  (acc <=? fold_left max2 l acc) = true /\
  Forall (fun x => (x <=? fold_left max2 l acc) = true) l.
Proof.
  induction 1 as [|x l Hx Hl IH]; intros acc Hacc; simpl.
  - auto using leb_refl.
  - destruct (max2_ge acc x Hacc Hx) as (Hn & Hle1 & Hle2).
    destruct (IH _ Hn) as (Hn' & Hle & Hall).
    split; [exact Hn'|]. split; [eauto using leb_trans|].
    constructor; [eauto using leb_trans | exact Hall].
Qed.

Lemma fold_min2_le l :
  Forall (fun x => is_nan x = false) l ->
  forall acc, is_nan acc = false ->
  is_nan (fold_left min2 l acc) = false /\
  (fold_left min2 l acc <=? acc) = true /\
  Forall (fun x => (fold_left min2 l acc <=? x) = true) l.
Proof.
  induction 1 as [|x l Hx Hl IH]; intros acc Hacc; simpl.
  - auto using leb_refl.
  - destruct (min2_le acc x Hacc Hx) as (Hn & Hle1 & Hle2).
    destruct (IH _ Hn) as (Hn' & Hle & Hall).
    split; [exact Hn'|]. split; [eauto using leb_trans|].
    constructor; [eauto using leb_trans | exact Hall].
Qed.

(** Every travel time lies between the minimum and the maximum. *)
Lemma times_between points p :
  In p points ->
  (Math_min (map time_of points) <=? time_of p) = true /\
  (time_of p <=? Math_max (map time_of points)) = true.
Proof.
  intros Hin.
  assert (Forall (fun x => is_nan x = false) (map time_of points)) as Hn.
  { apply Forall_forall. intros x Hx. apply in_map_iff in Hx.
    destruct Hx as (q & <- & _). apply time_of_not_nan. }
  destruct (fold_max2_ge _ Hn neg_infinity eq_refl) as (_ & _ & Hmax).
  destruct (fold_min2_le _ Hn infinity eq_refl) as (_ & _ & Hmin).
  rewrite Forall_forall in Hmax, Hmin.
  split; [apply Hmin | apply Hmax]; apply in_map; exact Hin.
Qed.

(** *** The heat map *)

Lemma finite_nonzero_spec x :
  finite_nonzero x = true -> exists s m e, Prim2SF x = S754_finite s m e.
Proof.
  unfold finite_nonzero. rewrite negb_true_iff, !orb_false_iff.
  intros [[Hn Hi] Hz]. destruct (Prim2SF x) as [s|s| |s m e] eqn:E.
  - unfold is_zero in Hz. rewrite eqb_spec, E in Hz. discriminate Hz.
  - unfold is_infinity in Hi. rewrite eqb_spec, abs_spec, E in Hi. discriminate Hi.
  - apply is_nan_false in Hn. contradiction.
  - eauto.
Qed.

(** When the range [maxTime - minTime] is finite and not zero, a sample at
    the minimum gets a zero. *)
Lemma intensity_at_min mx mn :
  finite_nonzero (mx - mn) = true -> ((mn - mn) / (mx - mn) =? 0) = true.
Proof.
  intros H. destruct (finite_nonzero_spec _ H) as (s & m & e & Hd).
  rewrite eqb_spec, div_spec, Hd, sub_spec.
  rewrite sub_spec in Hd. unfold SF64sub, SFsub in Hd.
  destruct (Prim2SF mn) as [sn|sn| |sn mn' en].
  - destruct sn; reflexivity.
  - destruct (Prim2SF mx) as [[]|[]| |]; destruct sn; discriminate Hd.
  - destruct (Prim2SF mx); discriminate Hd.
  - unfold SF64sub, SFsub. rewrite Z.sub_diag. destruct s; reflexivity.
Qed.

(** Under the same condition a sample at the maximum gets exactly [1]. *)
Lemma intensity_at_max mx mn :
  finite_nonzero (mx - mn) = true -> (mx - mn) / (mx - mn) = 1.
Proof.
  intros H. destruct (finite_nonzero_spec _ H) as (s & m & e & Hd).
  exact (div_diag _ _ _ _ Hd).
Qed.

Lemma SF_squeeze mn v mx :
  SFleb mn v = true -> SFleb v mx = true -> SFeqb mx mn = true -> SFeqb v mn = true.
Proof. revert mn v mx. sf_order. Qed.

(** When the maximum equals the minimum, the quotient is [0 / 0]. *)
Lemma intensity_degenerate mn v mx :
  (mn <=? v) = true -> (v <=? mx) = true -> (mx =? mn) = true ->
  (v - mn) / (mx - mn) = nan.
Proof.
  rewrite !leb_spec, eqb_spec. intros H1 H2 H3.
  apply nan_is. rewrite div_spec, !sub_spec.
  apply SFdiv_zero_or_nan; apply SFsub_eqb; [eapply SF_squeeze; eassumption | exact H3].
Qed.

(** C4, as stated, fails: on a constant sample set ([maxTime == minTime])
    every intensity is [NaN], not [0]. *)
Lemma constant_heatmap_is_nan :
  Math_max (map time_of samples_constant) = 5 /\
  Math_min (map time_of samples_constant) = 5 /\
  map intensity (generateHeatmapData samples_constant) = [nan; nan].
Proof. repeat split; reflexivity. Qed.

(** The sample at the maximum does not get [1] either when the range is
    not finite: with a travel time of [Infinity] it gets
    [Infinity / Infinity = NaN]. *)
Lemma unbounded_heatmap_is_nan :
  map intensity (generateHeatmapData samples_unbounded) = [0; nan].
Proof. reflexivity. Qed.

(** C4 (amended): every sample gets [(value - min) / (max - min)] over the
    set's own extrema.  When the range [max - min] is finite and not zero, a
    sample at the minimum gets a zero and a sample at the maximum gets [1].
    When [max == min] the quotient is [0 / 0]: every intensity is [NaN]. *)
Theorem generateHeatmapData_intensity points :
  let maxTime := Math_max (map time_of points) in
  let minTime := Math_min (map time_of points) in
  generateHeatmapData points =
    map (fun p => mkHeatmapDatum (coordinates p)
                    ((time_of p - minTime) / (maxTime - minTime))) points /\
  (finite_nonzero (maxTime - minTime) = true ->
   forall p, In p points ->
   (time_of p = minTime ->
    ((time_of p - minTime) / (maxTime - minTime) =? 0) = true) /\
   (time_of p = maxTime ->
    (time_of p - minTime) / (maxTime - minTime) = 1)) /\
  ((maxTime =? minTime) = true ->
   Forall (fun d => intensity d = nan) (generateHeatmapData points)).
Proof.
  intros maxTime minTime. split; [reflexivity|]. split.
  - intros Hr p _. split; intros ->.
    + apply intensity_at_min. exact Hr.
    + apply intensity_at_max. exact Hr.
  - intros Heq. apply Forall_forall. intros d Hd.
    unfold generateHeatmapData in Hd. apply in_map_iff in Hd.
    destruct Hd as (p & <- & Hp). simpl.
    destruct (times_between points p Hp) as [Hmin Hmax].
    apply intensity_degenerate; assumption.
Qed.

Lemma generateHeatmapData_intensity_witness :
  map intensity (generateHeatmapData samples_5_15_25) = [0; 0.5; 1] /\
  ((time_of (sample "a" 0 0 (Some 5)) - 5) / (25 - 5) =? 0) = true /\
  (time_of (sample "c" 0 1 (Some 25)) - 5) / (25 - 5) = 1 /\
  Forall (fun d => intensity d = nan) (generateHeatmapData samples_constant).
Proof.
  destruct (generateHeatmapData_intensity samples_5_15_25) as (_ & Hrange & _).
  destruct (generateHeatmapData_intensity samples_constant) as (_ & _ & Hconst).
  split; [reflexivity|].
  split; [exact (proj1 (Hrange eq_refl (sample "a" 0 0 (Some 5)) (or_introl eq_refl)) eq_refl)|].
  split; [exact (proj2 (Hrange eq_refl (sample "c" 0 1 (Some 25))
                          (or_intror (or_intror (or_introl eq_refl)))) eq_refl)|].
  exact (Hconst eq_refl).
Defined.

(** *** Connectivity and centrality *)

Lemma calculateConnectivity_nth points th i p :
  nth_error points i = Some p ->
  nth_error (calculateConnectivity points th) i =
    Some (length (filteri (connected (match th with Some t => t | None => 20 end) i) points)).
Proof.
  intros H. unfold calculateConnectivity. rewrite mapi_nth, H. reflexivity.
Qed.

Lemma calculateConnectivity_length points th :
  length (calculateConnectivity points th) = length points.
Proof. apply mapi_length. Qed.

Lemma Math_max_zeros l :
  l <> [] -> Forall (fun c => c = 0%nat) l -> Math_max (map float_of_nat l) = 0.
Proof.
  intros Hne Hall. destruct l as [|c l]; [contradiction|].
  inversion Hall as [|? ? -> Hl]; subst. unfold Math_max. simpl.
  change (max2 neg_infinity (float_of_nat 0)) with 0.
  clear Hall Hne. induction Hl as [|c l -> Hl IH]; simpl; [reflexivity|].
  change (max2 0 (float_of_nat 0)) with 0. exact IH.
Qed.

(** C5, as stated, fails: when no point is connected the maximum is [0]
    and every centrality is [0 / 0 = NaN], not [0]. *)
Lemma unconnected_centrality_is_nan :
  calculateConnectivity samples_far None = [0%nat; 0%nat] /\
  findCentralPoints samples_far None = [nan; nan].
Proof. split; reflexivity. Qed.

(** C5 (amended): [findCentralPoints] returns, for each point [i],
    [connectivity[i]] divided by the maximum connectivity; when every
    connectivity is [0], that is [0 / 0], and every entry is [NaN]. *)
Theorem findCentralPoints_ratio points th :
  let connectivity := calculateConnectivity points th in
  length (findCentralPoints points th) = length points /\
  (forall i, (i < length points)%nat ->
   exists c, nth_error connectivity i = Some c /\
   nth_error (findCentralPoints points th) i =
     Some (float_of_nat c / Math_max (map float_of_nat connectivity))) /\
  (Forall (fun c => c = 0%nat) connectivity ->
   Forall (fun x => x = nan) (findCentralPoints points th)).
Proof.
  intros connectivity. split; [apply mapi_length|]. split.
  - intros i Hi.
    destruct (nth_error points i) as [p|] eqn:Ep;
      [|apply nth_error_None in Ep; lia].
    exists (length (filteri (connected (match th with Some t => t | None => 20 end) i) points)).
    pose proof (calculateConnectivity_nth points th i p Ep) as Hc.
    split; [exact Hc|].
    unfold findCentralPoints. rewrite mapi_nth, Ep. simpl.
    fold connectivity. unfold connectivity at 1. rewrite Hc. reflexivity.
  - intros Hall. apply Forall_forall. intros x Hx.
    apply In_nth_error in Hx. destruct Hx as [i Hx].
    unfold findCentralPoints in Hx. rewrite mapi_nth in Hx.
    destruct (nth_error points i) as [p|] eqn:Ep; [|discriminate Hx].
    simpl in Hx. fold connectivity in Hx.
    pose proof (calculateConnectivity_nth points th i p Ep) as Hc.
    fold connectivity in Hc. rewrite Hc in Hx. injection Hx as <-.
    rewrite Math_max_zeros; [| |exact Hall].
    + rewrite Forall_forall in Hall. rewrite (Hall _ (nth_error_In _ _ Hc)). reflexivity.
    + intros E. rewrite E in Hc. destruct i; discriminate Hc.
Qed.

Lemma findCentralPoints_ratio_witness :
  calculateConnectivity samples_5_15_25 None = [1%nat; 1%nat; 2%nat] /\
  findCentralPoints samples_5_15_25 None = [0.5; 0.5; 1] /\
  Forall (fun x => x = nan) (findCentralPoints samples_far None).
Proof.
  split; [reflexivity|]. split; [reflexivity|].
  apply (findCentralPoints_ratio samples_far None).
  repeat constructor.
Defined.

(** *** Isochrones *)

Section Isochrones.

Variables FeatureCollection Polygon : Type.
Variable turf_points : list Coord -> result FeatureCollection.
Variable turf_convex : FeatureCollection -> result (option Polygon).
Variable turf_buffer : Polygon -> result (option Polygon).
Variable ring_of : Polygon -> result (list Coord).

Let body := isochrone_body turf_points turf_convex turf_buffer ring_of.
Let band := isochrone turf_points turf_convex turf_buffer ring_of.
Let the_band := band_of turf_points turf_convex turf_buffer ring_of.

Lemma isochrone_returns points t : band points t = Ret (the_band points t).
Proof.
  unfold the_band, band_of, band, isochrone, try_catch.
  destruct (length _ <? 3)%nat; [reflexivity|].
  destruct (isochrone_body _ _ _ _ _ _); reflexivity.
Qed.

Lemma body_threshold acc t b : body acc t = Ret b -> threshold b = t.
Proof.
  unfold body, isochrone_body, bind. intros H.
  destruct (turf_points acc) as [fc|]; [|discriminate].
  destruct (turf_convex fc) as [[hull|]|]; try discriminate.
  - destruct (turf_buffer hull) as [[buffer|]|]; try discriminate.
    + destruct (ring_of buffer); [|discriminate]. injection H as <-. reflexivity.
    + injection H as <-. reflexivity.
  - injection H as <-. reflexivity.
Qed.

(** C6: [calculateIsochrones] returns (it never throws) one band per
    threshold, in the order of the thresholds; the band of [t] is
    [{t, []}] when fewer than three points have [travelTime <= t], when the
    hull is [null], when the buffer is [null], and when anything in the
    [try] block throws. *)
Theorem calculateIsochrones_bands points timeThresholds :
  exists bands,
    calculateIsochrones turf_points turf_convex turf_buffer ring_of points timeThresholds
      = Ret bands /\
    map threshold bands = timeThresholds /\
    forall i t, nth_error timeThresholds i = Some t ->
    let accessiblePoints := map coordinates (accessible points t) in
    exists b, nth_error bands i = Some b /\ threshold b = t /\
      ((length accessiblePoints < 3)%nat -> b = mkBand t []) /\
      (body accessiblePoints t = Throw -> b = mkBand t []) /\
      (forall fc, turf_points accessiblePoints = Ret fc ->
                  turf_convex fc = Ret None -> b = mkBand t []) /\
      (forall fc hull, turf_points accessiblePoints = Ret fc ->
                       turf_convex fc = Ret (Some hull) ->
                       turf_buffer hull = Ret None -> b = mkBand t []).
Proof.
  exists (map (the_band points) timeThresholds).
  assert (forall t, threshold (the_band points t) = t) as Hth.
  { intros t. unfold the_band, band_of, band, isochrone, try_catch.
    destruct (length _ <? 3)%nat; [reflexivity|].
    destruct (isochrone_body _ _ _ _ _ _) eqn:E; [|reflexivity].
    exact (body_threshold _ _ _ E). }
  split; [|split].
  - unfold calculateIsochrones. apply mapM_total.
    intros t _. apply isochrone_returns.
  - rewrite map_map. erewrite map_ext; [apply map_id | exact Hth].
  - intros i t Hi accessiblePoints. exists (the_band points t).
    split; [rewrite nth_error_map, Hi; reflexivity|].
    split; [apply Hth|].
    unfold the_band, band_of, band, isochrone, try_catch. fold accessiblePoints.
    destruct (length accessiblePoints <? 3)%nat eqn:Elen.
    { repeat split; reflexivity. }
    apply Nat.ltb_ge in Elen. fold (body accessiblePoints t).
    split; [intros; lia|]. split.
    + intros ->. reflexivity.
    + unfold body, isochrone_body, bind. split.
      * intros fc -> ->. reflexivity.
      * intros fc hull -> -> ->. reflexivity.
Qed.

End Isochrones.

(** Scenario D: travel times 5, 15 and 25 against the thresholds 10, 20 and
    30.  One point, then two, then three qualify: only the last band has a
    ring. *)
Lemma scenario_D_bands :
  calculateIsochrones unit_points unit_convex unit_buffer unit_ring
                      samples_5_15_25 [10; 20; 30] =
    Ret [mkBand 10 []; mkBand 20 []; mkBand 30 [(0, 0); (1, 0); (0, 1)]].
Proof. reflexivity. Qed.

(** *** Coverage *)



Lemma filter_length {A : Type} (f : A -> bool) (l : list A) :
  (length (filter f l) <= length l)%nat.
Proof.
  induction l as [|a l IH]; simpl; [lia|]. destruct (f a); simpl; lia.
Qed.

Section Coverage.

Variables FeatureCollection Polygon : Type.
Variable turf_points : list Coord -> result FeatureCollection.
Variable turf_convex : FeatureCollection -> result (option Polygon).
Variable turf_area : Polygon -> result float.

Let coverage := hull_coverage turf_points turf_convex turf_area.
Let areaCoverage := calculateAreaCoverage turf_points turf_convex turf_area.

Lemma calculateAreaCoverage_value points t :
  areaCoverage points t =
    Ret (if (length (accessible points t) <? 3)%nat then 0
         else coverage (accessible points t)).
Proof.
  unfold areaCoverage, calculateAreaCoverage, coverage, hull_coverage, try_catch.
  destruct (length _ <? 3)%nat; [reflexivity|].
  destruct (coverage_body _ _ _ _); reflexivity.
Qed.

(** A hull that is [null], or anything thrown in the [try] block, counts
    as no coverage. *)
Lemma calculateAreaCoverage_failure points t :
  (coverage_body turf_points turf_convex turf_area (accessible points t) = Throw \/
   exists fc, turf_points (map coordinates (accessible points t)) = Ret fc /\
              turf_convex fc = Ret None) ->
  areaCoverage points t = Ret 0.
Proof.
  intros H. rewrite calculateAreaCoverage_value.
  destruct (length (accessible points t) <? 3)%nat; [reflexivity|].
  unfold coverage, hull_coverage, try_catch.
  destruct H as [-> | (fc & Hfc & Hnull)]; [reflexivity|].
  unfold coverage_body, bind. rewrite Hfc, Hnull. reflexivity.
Qed.




End Coverage.



(** *** A point with no travel time *)









Section Missing.

Variables FeatureCollection Polygon : Type.
Variable turf_points : list Coord -> result FeatureCollection.
Variable turf_convex : FeatureCollection -> result (option Polygon).
Variable turf_buffer : Polygon -> result (option Polygon).
Variable ring_of : Polygon -> result (list Coord).
Variable turf_area : Polygon -> result float.

Let areaCoverage := calculateAreaCoverage turf_points turf_convex turf_area.




End Missing.


End MetricFacts.

(** ** Distortion and the travel-time matrix *)

Module DistortionFacts.

Import JS Grid DistortionMap Scenarios FloatFacts FloatArith ArrayFacts.
Local Open Scope float_scope.

(** *** [distortPoints] *)

Section Distort.

Variable M : MathLib.

Lemma distortPoint_returns points timeMatrix f p i row c :
  nth_error timeMatrix i = Some row -> nth_error points 0 = Some c ->
  distortPoint M points timeMatrix f p i =
    Ret (mkGridPoint (id p)
           (fst (coordinates p) + Math_cos M (direction M c p) * (avgTime points row / 60 * f),
            snd (coordinates p) + Math_sin M (direction M c p) * (avgTime points row / 60 * f))
           (originalCoordinates p) (Some (avgTime points row)) (animationProgress p)).
Proof. intros Hrow Hc. unfold distortPoint. rewrite Hrow, Hc. reflexivity. Qed.

(** [distortPoints] returns when the matrix has a row for every point, and
    then point by point. *)
Lemma distortPoints_returns points timeMatrix factor :
  (length points <= length timeMatrix)%nat ->
  exists distorted,
    distortPoints M points timeMatrix factor = Ret distorted /\
    length distorted = length points /\
    forall i p, nth_error points i = Some p ->
    exists row c d,
      nth_error timeMatrix i = Some row /\ nth_error points 0 = Some c /\
      nth_error distorted i = Some d /\
      distortPoint M points timeMatrix (match factor with Some f => f | None => 1 end) p i
        = Ret d.
Proof.
  intros Hlen. unfold distortPoints, mapiM.
  set (f := match factor with Some f => f | None => 1 end).
  assert (forall i p, nth_error points i = Some p ->
          exists row c, nth_error timeMatrix i = Some row /\ nth_error points 0 = Some c)
    as Hrows.
  { intros i p Hp.
    assert (i < length points)%nat as Hi by (apply nth_error_Some; congruence).
    destruct (nth_error timeMatrix i) as [row|] eqn:Er;
      [|apply nth_error_None in Er; lia].
    destruct points as [|c points']; [destruct i; discriminate Hp|].
    exists row, c. split; reflexivity. }
  destruct (mapiM_from_total (distortPoint M points timeMatrix f) points 0) as [distorted Hd].
  { intros i p Hp. destruct (Hrows i p Hp) as (row & c & Hr & Hc).
    eexists. apply (distortPoint_returns _ _ _ _ _ _ _ Hr Hc). }
  exists distorted. split; [exact Hd|].
  destruct (mapiM_from_Ret _ _ _ _ Hd) as [Hl Hnth]. split; [exact Hl|].
  intros i p Hp. destruct (Hrows i p Hp) as (row & c & Hr & Hc).
  destruct (Hnth i p Hp) as (d & Hdi & Hfd).
  exists row, c, d. auto.
Qed.

(** What [distortPoints] returns, point by point. *)
Lemma distortPoints_nth points timeMatrix factor distorted i d :
  distortPoints M points timeMatrix factor = Ret distorted ->
  nth_error distorted i = Some d ->
  exists p row c,
    nth_error points i = Some p /\ nth_error timeMatrix i = Some row /\
    nth_error points 0 = Some c /\
    distortPoint M points timeMatrix (match factor with Some f => f | None => 1 end) p i
      = Ret d.
Proof.
  unfold distortPoints, mapiM. intros H Hd.
  destruct (mapiM_from_Ret _ _ _ _ H) as [Hl Hnth].
  destruct (nth_error points i) as [p|] eqn:Ep.
  - destruct (Hnth i p Ep) as (d' & Hd' & Hf). rewrite Hd in Hd'. injection Hd' as <-.
    simpl in Hf. exists p.
    unfold distortPoint, bind in Hf |- *.
    destruct (nth_error timeMatrix i) as [row|]; [|discriminate Hf].
    destruct (nth_error points 0) as [c|]; [|discriminate Hf].
    exists row, c. auto.
  - apply nth_error_None in Ep.
    assert (i < length distorted)%nat by (apply nth_error_Some; congruence). lia.
Qed.

(** C8: every point [distortPoints] returns has [travelTime] set, to the
    sum of row [i] of the matrix divided by the number of points, which is
    the mean of the row when the row is as long as the point list (a square
    matrix); and [distortPoints] does return, one point per point, when the
    matrix has a row for every point. *)
Theorem distortPoints_travelTime points timeMatrix factor :
  (forall distorted, distortPoints M points timeMatrix factor = Ret distorted ->
   length distorted = length points /\
   forall i d, nth_error distorted i = Some d ->
   exists row, nth_error timeMatrix i = Some row /\
     travelTime d = Some (sum row / float_of_nat (length points)) /\
     (length row = length points -> travelTime d = Some (mean row))) /\
  ((length points <= length timeMatrix)%nat ->
   exists distorted, distortPoints M points timeMatrix factor = Ret distorted).
Proof.
  split.
  - intros distorted H. split.
    + unfold distortPoints, mapiM in H. apply (mapiM_from_Ret _ _ _ _ H).
    + intros i d Hd.
      destruct (distortPoints_nth _ _ _ _ _ _ H Hd) as (p & row & c & Hp & Hrow & Hc & Hf).
      rewrite (distortPoint_returns _ _ _ _ _ _ _ Hrow Hc) in Hf. injection Hf as <-.
      exists row. split; [exact Hrow|]. split; [reflexivity|].
      intros E. simpl. unfold avgTime, mean. rewrite E. reflexivity.
  - intros Hlen.
    destruct (distortPoints_returns points timeMatrix factor Hlen) as (distorted & Hd & _).
    exists distorted. exact Hd.
Qed.

(** The [distortPoints] of utils/distortion.ts leaves [travelTime] as it
    finds it. *)
Lemma distortPoints_utils_travelTime points timeMatrix distorted i p d :
  distortPoints_utils M points timeMatrix = Ret distorted ->
  nth_error points i = Some p -> nth_error distorted i = Some d ->
  travelTime d = travelTime p.
Proof.
  unfold distortPoints_utils, mapiM. intros H Hp Hd.
  destruct (mapiM_from_Ret _ _ _ _ H) as [_ Hnth].
  destruct (Hnth i p Hp) as (d' & Hd' & Hf). rewrite Hd in Hd'. injection Hd' as <-.
  unfold distortPoint_utils, bind in Hf.
  destruct (nth_error timeMatrix (0 + i)); [|discriminate Hf].
  destruct (nth_error points 0); [|discriminate Hf].
  injection Hf as <-. reflexivity.
Qed.

(** The coordinates [distortPoints] returns for point [i] are the original
    ones plus [(cos direction, sin direction)] times
    [scaleFactor = (avgTime / 60) * distortionFactor], where [avgTime] and
    [direction] do not depend on [distortionFactor]. *)
Lemma distortPoints_offset points timeMatrix i p row c :
  (length points <= length timeMatrix)%nat ->
  nth_error points i = Some p -> nth_error timeMatrix i = Some row ->
  nth_error points 0 = Some c ->
  forall f, exists distorted d,
    distortPoints M points timeMatrix (Some f) = Ret distorted /\
    nth_error distorted i = Some d /\
    coordinates d =
      (fst (coordinates p) + Math_cos M (direction M c p) * (avgTime points row / 60 * f),
       snd (coordinates p) + Math_sin M (direction M c p) * (avgTime points row / 60 * f)).
Proof.
  intros Hlen Hp Hrow Hc f.
  destruct (distortPoints_returns points timeMatrix (Some f) Hlen) as (distorted & Hd & _ & Hnth).
  destruct (Hnth i p Hp) as (row' & c' & d & Hr & Hc' & Hdi & Hfd).
  exists distorted, d. split; [exact Hd|]. split; [exact Hdi|].
  rewrite (distortPoint_returns _ _ _ _ _ _ _ Hrow Hc) in Hfd. injection Hfd as <-.
  reflexivity.
Qed.

End Distort.

(** Whatever [Math] is, as long as it is exact at zero, the first point
    moves along [x] by [(-73.97 + 1 * (6 / 60 * f)) - -73.97]. *)
Lemma first_displacement_value M f :
  exact_at_zero M ->
  first_displacement M f =
    Some (-73.97 + 1 * (6 / 60 * f) - -73.97, 40.78 + 0 * (6 / 60 * f) - 40.78).
Proof.
  intros (Ha & Hc & Hs). unfold first_displacement.
  destruct (distortPoints_returns M parallel_points parallel_matrix (Some f) (le_n 2))
    as (distorted & Hd & _ & Hnth).
  destruct (Hnth 0%nat _ eq_refl) as (row & c & d & Hr & Hc0 & Hdi & Hfd).
  rewrite (distortPoint_returns M _ _ _ _ _ _ _ Hr Hc0) in Hfd.
  injection Hr as <-. injection Hc0 as <-. injection Hfd as <-.
  rewrite Hd. destruct distorted as [|d0 distorted]; [discriminate Hdi|].
  injection Hdi as ->. unfold parallel_points, displacement, direction.
  cbn [coordinates fst snd].
  change (40.78 - 40.78) with 0. change (-73.97 - -73.97) with 0.
  rewrite Ha, Hc, Hs. reflexivity.
Qed.

(** C3, as stated, fails: doubling the factor from [1] to [2] takes the
    length of the first point's displacement from [0.099999999999994316] to
    [0.20000000000000284], which is not twice the former
    ([0.19999999999998863]). *)
Lemma displacement_not_doubled :
  ~ (forall M : MathLib, exact_at_zero M ->
     forall points timeMatrix f distorted1 distorted2 i p d1 d2,
     distortPoints M points timeMatrix (Some f) = Ret distorted1 ->
     distortPoints M points timeMatrix (Some (2 * f)) = Ret distorted2 ->
     nth_error points i = Some p ->
     nth_error distorted1 i = Some d1 -> nth_error distorted2 i = Some d2 ->
     norm (displacement p d2) = 2 * norm (displacement p d1)).
Proof.
  intros H.
  specialize (H Math_eastward (conj eq_refl (conj eq_refl eq_refl))
                parallel_points parallel_matrix 1 _ _ 0%nat _ _ _
                eq_refl eq_refl eq_refl eq_refl eq_refl).
  apply (f_equal Prim2SF) in H. vm_compute in H. discriminate H.
Qed.

(** The same for every [Math] that is exact at zero. *)
Lemma first_displacement_not_doubled M :
  exact_at_zero M ->
  exists v1 v2,
    first_displacement M 1 = Some v1 /\ first_displacement M 2 = Some v2 /\
    norm v2 <> 2 * norm v1.
Proof.
  intros HM. do 2 eexists.
  split; [apply first_displacement_value; exact HM|].
  split; [apply first_displacement_value; exact HM|].
  intros H. apply (f_equal Prim2SF) in H. vm_compute in H. discriminate H.
Qed.

Lemma distortPoints_travelTime_witness :
  exists distorted,
    distortPoints Math_eastward parallel_points parallel_matrix None = Ret distorted /\
    map travelTime distorted = [Some 6; Some 6] /\
    length distorted = length parallel_points.
Proof.
  destruct (distortPoints_travelTime Math_eastward parallel_points parallel_matrix None)
    as [Hall Hret].
  destruct (Hret (le_n 2)) as [distorted Hd].
  exists distorted. split; [exact Hd|]. split; [|exact (proj1 (Hall distorted Hd))].
  vm_compute in Hd. injection Hd as <-. reflexivity.
Defined.

(** *** [generateTimeMatrix] *)

Section TimeMatrixFacts.

Variable turf_distance : Coord -> Coord -> float.


(** Minutes at 30 mph for a distance at least zero. *)
Lemma minutes_nonneg d : (0 <=? d) = true -> (0 <=? d / 30 * 60) = true.
Proof.
  intros H. eapply mul_nonneg; [reflexivity|].
  eapply div_nonneg; [reflexivity | exact H].
Qed.


End TimeMatrixFacts.


End DistortionFacts.

(** ** More facts on binary64 arithmetic *)

Module FloatMore.

Import JS Signs FloatFacts FloatArith.
Local Open Scope float_scope.

(** *** Order *)

Lemma SFleb_false_ltb x y :
  x <> S754_nan -> y <> S754_nan -> SFleb x y = false -> SFltb y x = true.
Proof. sf_order; congruence. Qed.

(** Of two numbers, one is at most the other. *)
Lemma leb_false_ltb x y :
  is_nan x = false -> is_nan y = false -> (x <=? y) = false -> (y <? x) = true.
Proof.
  rewrite !is_nan_false, leb_spec, ltb_spec. apply SFleb_false_ltb.
Qed.

Lemma SFltb_not_nan x y : SFltb x y = true -> x <> S754_nan /\ y <> S754_nan.
Proof.
  unfold SFltb, SFcompare. destruct x, y; simpl; intros H; try discriminate H;
    split; discriminate.
Qed.

Lemma ltb_not_nan x y : (x <? y) = true -> is_nan x = false /\ is_nan y = false.
Proof. rewrite !is_nan_false, ltb_spec. apply SFltb_not_nan. Qed.

(** *** Multiplication commutes, and [x * 1] is [x] *)

Lemma SFmul_comm x y : SF64mul x y = SF64mul y x.
Proof.
  unfold SF64mul, SFmul.
  destruct x as [sx|sx| |sx mx ex], y as [sy|sy| |sy my ey];
    rewrite ?(xorb_comm sx sy); try reflexivity.
  rewrite (Pos.mul_comm mx my), (Z.add_comm ex ey). reflexivity.
Qed.

Lemma mul_comm x y : x * y = y * x.
Proof. apply Prim2SF_inj. rewrite !mul_spec. apply SFmul_comm. Qed.

Lemma mul_1_r x : x * 1 = x.
Proof. rewrite mul_comm. apply mul_1_l. Qed.

(** *** Array lengths as numbers *)

Section Lengths.

Local Open Scope Z_scope.

Lemma Zdigits2_pos p : Zdigits2 (Zpos p) = Zpos (digits2_pos p).
Proof. reflexivity. Qed.

(** The number of digits of a mantissa below a power of two. *)
Lemma digits2_le p D : Zpos p < 2 ^ D -> Zpos (digits2_pos p) <= D.
Proof.
  intros H. pose proof (digits2_bounds p) as [Hlo _].
  destruct (Z.le_gt_cases (Zpos (digits2_pos p)) D) as [Hle|Hgt]; [exact Hle|].
  exfalso. assert (2 ^ D <= 2 ^ (Zpos (digits2_pos p) - 1)) as Hp.
  { destruct (Z.le_gt_cases 0 D) as [HD|HD].
    - apply Z.pow_le_mono_r; lia.
    - rewrite (Z.pow_neg_r 2 D) by lia. apply Z.pow_nonneg. lia. }
  lia.
Qed.

Lemma Zdigits2_le m D : 0 <= m < 2 ^ D -> 0 <= D -> Zdigits2 m <= D.
Proof.
  intros [H0 H1] HD. destruct m as [|p|p]; simpl; try lia. apply digits2_le. exact H1.
Qed.

Lemma Zdigits2_ge m D : 0 <= D -> 2 ^ D <= m -> D + 1 <= Zdigits2 m.
Proof.
  intros HD H. assert (0 < 2 ^ D) by (apply Z.pow_pos_nonneg; lia).
  destruct m as [|p|p]; try lia.
  rewrite Zdigits2_pos. pose proof (digits2_bounds p) as [_ Hhi].
  destruct (Z.le_gt_cases (D + 1) (Zpos (digits2_pos p))) as [Hle|Hgt]; [exact Hle|].
  exfalso. assert (2 ^ Zpos (digits2_pos p) <= 2 ^ D) by (apply Z.pow_le_mono_r; lia). lia.
Qed.

(** [shr_fexp] on a mantissa that may be zero. *)
Lemma shr_fexp_value m e l :
  0 <= m ->
  let k := Z.max (fexp prec emax (Zdigits2 m + e) - e) 0 in
  shr_m (fst (shr_fexp prec emax m e l)) = m / 2 ^ k /\
  snd (shr_fexp prec emax m e l) = e + k.
Proof.
  intros Hm k. unfold shr_fexp, shr. subst k.
  assert (shr_m (shr_record_of_loc m l) = m) as Hr by (destruct l as [|[]]; reflexivity).
  destruct (fexp prec emax (Zdigits2 m + e) - e) as [|p|p]; simpl fst; simpl snd.
  - rewrite Hr. simpl. rewrite Z.div_1_r. split; lia.
  - rewrite iter_pos_nat, iter_shr_1 by lia. rewrite Hr, positive_nat_Z.
    rewrite Z.max_l by lia. split; reflexivity.
  - rewrite Hr. rewrite Z.max_r by lia. simpl. rewrite Z.div_1_r. split; lia.
Qed.

(** Rounding a positive mantissa at an exponent [fexp] accepts, below
    [2 ^ 1023], gives a positive finite number. *)
Lemma binary_round_aux_finite M e l :
  -1074 <= e <= fexp prec emax (Zpos (digits2_pos M) + e) ->
  Zpos (digits2_pos M) + e <= 1023 ->
  exists m' e', binary_round_aux prec emax false (Zpos M) e l = S754_finite false m' e'.
Proof.
  intros He Hd. unfold binary_round_aux.
  destruct (shr_fexp_value (Zpos M) e l ltac:(lia)) as [H1m H1e].
  destruct (shr_fexp prec emax (Zpos M) e l) as [mrs' e1].
  simpl fst in H1m. simpl snd in H1e.
  rewrite Zdigits2_pos, fexp_eq in H1m, H1e. rewrite fexp_eq in He.
  pose proof (digits2_bounds M) as HdM.
  set (dM := Zpos (digits2_pos M)) in *.
  assert (1 <= dM) as HdM1 by (subst dM; lia). clearbody dM.
  set (k1 := Z.max (Z.max (dM + e - 53) (-1074) - e) 0) in *.
  assert (0 <= k1 <= dM - 1 /\ e1 = e + k1 /\ e1 <= 970 /\ dM - k1 <= 53) as (Hk1 & He1 & He1' & Hq53)
    by (subst k1; lia).
  clearbody k1. clear H1e.
  set (q := shr_m mrs') in *.
  pose proof (round_nearest_even_bounds q (loc_of_shr_record mrs')) as Hr.
  set (m1 := round_nearest_even q (loc_of_shr_record mrs')) in *. clearbody m1.
  assert (1 <= q < 2 ^ (dM - k1)) as Hq.
  { rewrite H1m. split.
    - apply (div_pow_ge_1 _ _ dM); [lia | apply HdM].
    - apply Z.div_lt_upper_bound; [apply Z.pow_pos_nonneg; lia|].
      rewrite <- Z.pow_add_r by lia. replace (k1 + (dM - k1)) with dM by lia. apply HdM. }
  clear H1m. clearbody q.
  destruct (shr_fexp_value m1 e1 loc_Exact ltac:(lia)) as [H2m H2e].
  destruct (shr_fexp prec emax m1 e1 loc_Exact) as [mrs'' e2].
  simpl fst in H2m. simpl snd in H2e. rewrite fexp_eq in H2m, H2e.
  assert (Zdigits2 m1 <= dM - k1 + 1) as Hd1.
  { apply Zdigits2_le; [|lia]. split; [lia|].
    rewrite Z.pow_add_r by lia. change (2 ^ 1) with 2. lia. }
  assert (1 <= Zdigits2 m1) as Hd1'.
  { apply (Zdigits2_ge m1 0); simpl; lia. }
  pose proof (Zdigits2_ge m1 (Zdigits2 m1 - 1)) as Hlo.
  assert (2 ^ (Zdigits2 m1 - 1) <= m1) as Hm1lo.
  { destruct m1 as [|p1|p1]; try lia. rewrite Zdigits2_pos. apply digits2_bounds. }
  set (d1 := Zdigits2 m1) in *. clearbody d1. clear Hlo.
  set (k2 := Z.max (Z.max (d1 + e1 - 53) (-1074) - e1) 0) in *.
  assert (0 <= k2 <= d1 - 1 /\ e2 = e1 + k2 /\ e2 <= 971) as (Hk2 & He2 & He2')
    by (subst k2; lia).
  clearbody k2. clear H2e.
  assert (1 <= shr_m mrs'') as Hm2.
  { rewrite H2m. apply (div_pow_ge_1 _ _ d1); [lia | exact Hm1lo]. }
  destruct (shr_m mrs'') as [|m2|m2]; try lia.
  replace (e2 <=? emax - prec) with true
    by (symmetry; apply Z.leb_le; change (emax - prec) with 971; lia).
  eexists; eexists; reflexivity.
Qed.

Lemma binary_round_finite p :
  Zpos p < 2 ^ 63 ->
  exists m' e', binary_round prec emax false p 0 = S754_finite false m' e'.
Proof.
  intros Hp. unfold binary_round.
  destruct (shl_align_spec p 0 (fexp prec emax (Zpos (digits2_pos p) + 0))) as [H2 H1].
  destruct (shl_align p 0 _) as [mz ez]. simpl fst in H1. simpl snd in H2.
  rewrite Z.add_0_r in *. rewrite fexp_eq in *.
  pose proof (digits2_bounds p) as Hdp. pose proof (digits2_le p 63 Hp) as Hd63.
  set (dp := Zpos (digits2_pos p)) in *.
  assert (1 <= dp) as Hdp1 by (subst dp; lia). clearbody dp.
  assert (Zpos (digits2_pos mz) = dp - ez) as Hdz.
  { assert (ez <= 0) as Hez by lia.
    assert (0 < 2 ^ (0 - ez)) as Hpow by (apply Z.pow_pos_nonneg; lia).
    apply Z.le_antisymm.
    - apply digits2_le. rewrite H1, <- H2.
      replace (dp - ez) with (dp + (0 - ez)) by lia. rewrite Z.pow_add_r by lia.
      apply Z.mul_lt_mono_pos_r; [exact Hpow | apply Hdp].
    - pose proof (Zdigits2_ge (Zpos mz) (dp - 1 - ez) ltac:(lia)) as Hge.
      rewrite Zdigits2_pos in Hge. rewrite <- Z.sub_add_distr in Hge.
      replace (dp - (1 + ez) + 1) with (dp - ez) in Hge by lia. apply Hge.
      rewrite H1, <- H2. replace (dp - (1 + ez)) with ((dp - 1) + (0 - ez)) by lia.
      rewrite Z.pow_add_r by lia. apply Z.mul_le_mono_nonneg_r; [lia | apply Hdp]. }
  apply binary_round_aux_finite; rewrite Hdz, ?fexp_eq; lia.
Qed.

End Lengths.

(** The length of an array, as a number: never [NaN] and at least zero,
    and a positive finite number for an array that is not empty. *)
Lemma float_of_nat_nonneg n : (0 <=? float_of_nat n) = true.
Proof.
  apply nonneg_spec. unfold float_of_nat, float_of_Z. rewrite of_uint63_spec.
  pose proof (Uint63.to_Z_bounded (Uint63.of_Z (Z.of_nat n))) as Hb.
  destruct (Uint63.to_Z (Uint63.of_Z (Z.of_nat n))) as [|p|p];
    [exact I | | exfalso; lia]. simpl.
  apply signed_nonneg. unfold binary_round.
  destruct (shl_align p 0 _) as [mz ez]. apply binary_round_aux_signed. lia.
Qed.

Lemma float_of_nat_not_nan n : is_nan (float_of_nat n) = false.
Proof. exact (proj2 (leb_not_nan _ _ (float_of_nat_nonneg n))). Qed.

Lemma float_of_nat_finite n :
  (0 < n)%nat -> (Z.of_nat n < 2 ^ 32)%Z ->
  exists m e, Prim2SF (float_of_nat n) = S754_finite false m e.
Proof.
  intros Hn Hmax. unfold float_of_nat, float_of_Z. rewrite of_uint63_spec.
  rewrite Uint63.of_Z_spec, Z.mod_small
    by (split; [lia | apply Z.lt_trans with (2 ^ 32)%Z; [exact Hmax | reflexivity]]).
  destruct (Z.of_nat n) as [|p|p] eqn:E; try lia.
  simpl. apply binary_round_finite. apply Z.lt_trans with (2 ^ 32)%Z; [lia | reflexivity].
Qed.

(** *** Sums of numbers at least zero *)

Lemma fold_add_nonneg l :
  Forall (fun x => (0 <=? x) = true) l ->
  forall acc, (0 <=? acc) = true -> (0 <=? fold_left add l acc) = true.
Proof.
  induction 1 as [|x l Hx _ IH]; intros acc Hacc; simpl; [exact Hacc|].
  apply IH. apply leb_trans with acc; [exact Hacc|].
  apply (add_ge acc x Hacc Hx).
Qed.

Lemma sum_nonneg l : Forall (fun x => (0 <=? x) = true) l -> (0 <=? sum l) = true.
Proof. intros H. apply fold_add_nonneg; [exact H | reflexivity]. Qed.

End FloatMore.

(** ** Loops that may throw *)

Module IterationFacts.

Import JS Builtins ArrayFacts.
Local Open Scope nat_scope.

Lemma element_Ret {A : Type} (arr : list A) i a :
  element arr i = Ret a <-> nth_error arr i = Some a.
Proof.
  unfold element. destruct (nth_error arr i); split; intros H;
    try discriminate; injection H as <-; reflexivity.
Qed.

Lemma element_Throw {A : Type} (arr : list A) i :
  element arr i = Throw <-> length arr <= i.
Proof.
  unfold element. rewrite <- nth_error_None.
  destruct (nth_error arr i); split; intros H; try discriminate; reflexivity.
Qed.

Lemma mapM_length {A B : Type} (f : A -> result B) (l : list A) (bs : list B) :
  mapM f l = Ret bs -> length bs = length l.
Proof.
  intros H. apply mapM_Ret in H. induction H; simpl; congruence.
Qed.

Lemma mapM_returns {A B : Type} (f : A -> result B) (l : list A) :
  (forall a, In a l -> exists b, f a = Ret b) -> exists bs, mapM f l = Ret bs.
Proof.
  induction l as [|a l IH]; intros H; simpl.
  - eexists; reflexivity.
  - destruct (H a (or_introl eq_refl)) as [b ->]. simpl.
    destruct IH as [bs ->]; [intros a' Ha'; apply H; right; exact Ha'|].
    simpl. eexists; reflexivity.
Qed.

Lemma filter_none {A : Type} (f : A -> bool) (l : list A) :
  (forall a, In a l -> f a = false) -> filter f l = [].
Proof.
  induction l as [|a l IH]; intros H; simpl; [reflexivity|].
  rewrite (H a (or_introl eq_refl)). apply IH. intros a' Ha'. apply H. right. exact Ha'.
Qed.

(** A filter whose callback never throws is the plain filter. *)
Lemma filteriM_from_pure {A : Type} (f : A -> nat -> result bool) (g : A -> nat -> bool)
  (l : list A) :
  forall k, (forall j a, nth_error l j = Some a -> f a (k + j) = Ret (g a (k + j))) ->
  filteriM_from f k l = Ret (filteri_from g k l).
Proof.
  induction l as [|a l IH]; intros k H; simpl; [reflexivity|].
  pose proof (H 0 a eq_refl) as H0. rewrite Nat.add_0_r in H0. rewrite H0. simpl.
  rewrite (IH (S k)).
  - simpl. destruct (g a k); reflexivity.
  - intros j a' Hj. specialize (H (S j) a' Hj). rewrite Nat.add_succ_r in H. exact H.
Qed.

(** A filter or a map one of whose calls throws, throws. *)
Lemma filteriM_from_Throw {A : Type} (f : A -> nat -> result bool) (l : list A) :
  forall k j a, nth_error l j = Some a -> f a (k + j) = Throw ->
  filteriM_from f k l = Throw.
Proof.
  induction l as [|a l IH]; intros k j a' Hj Hf; [destruct j; discriminate Hj|].
  simpl. destruct j as [|j]; simpl in Hj.
  - injection Hj as ->. rewrite Nat.add_0_r in Hf. rewrite Hf. reflexivity.
  - destruct (f a k); [|reflexivity]. simpl.
    rewrite (IH (S k) j a' Hj); [reflexivity|]. rewrite Nat.add_succ_r in Hf. exact Hf.
Qed.

Lemma mapiM_from_Throw {A B : Type} (f : A -> nat -> result B) (l : list A) :
  forall k j a, nth_error l j = Some a -> f a (k + j) = Throw ->
  mapiM_from f k l = Throw.
Proof.
  induction l as [|a l IH]; intros k j a' Hj Hf; [destruct j; discriminate Hj|].
  simpl. destruct j as [|j]; simpl in Hj.
  - injection Hj as ->. rewrite Nat.add_0_r in Hf. rewrite Hf. reflexivity.
  - destruct (f a k); [|reflexivity]. simpl.
    rewrite (IH (S k) j a' Hj); [reflexivity|]. rewrite Nat.add_succ_r in Hf. exact Hf.
Qed.

(** What a map with an index returns, when every call is known. *)
Lemma mapiM_from_pure {A B : Type} (f : A -> nat -> result B) (g : A -> nat -> B)
  (l : list A) :
  forall k, (forall j a, nth_error l j = Some a -> f a (k + j) = Ret (g a (k + j))) ->
  mapiM_from f k l = Ret (mapi_from g k l).
Proof.
  induction l as [|a l IH]; intros k H; simpl; [reflexivity|].
  pose proof (H 0 a eq_refl) as H0. rewrite Nat.add_0_r in H0. rewrite H0. simpl.
  rewrite (IH (S k)); [reflexivity|].
  intros j a' Hj. specialize (H (S j) a' Hj). rewrite Nat.add_succ_r in H. exact H.
Qed.

Lemma array_get_In {A : Type} (arr : list A) i a : array_get arr i = Some a -> In a arr.
Proof.
  unfold array_get. destruct (to_integer i) as [z|]; [|discriminate].
  destruct (0 <=? z)%Z; [|discriminate]. apply nth_error_In.
Qed.

End IterationFacts.

(** ** Streamlines: where the lines start and stay *)

Module StreamlineShape.

Import JS Builtins Visualization TensorField Scenarios Samples ArrayFacts IterationFacts.
Local Open Scope float_scope.

Section Loop.

Variable vectorField : list (list VectorField).
Variable bounds : Bounds.
Variable options : StreamlineOptions.
Variable h : float.

(** The loop only appends, and only points that passed the bounds test. *)
Lemma integrate_loop_inside :
  forall fuel x y line r,
  integrate_loop vectorField bounds options h fuel x y line = Ret r ->
  exists added, r = line ++ added /\ Forall (inside bounds) added.
Proof.
  assert (forall line : list Point, exists added,
            line = line ++ added /\ Forall (inside bounds) added) as Hstop.
  { intros line. exists []. split; [symmetry; apply app_nil_r | constructor]. }
  induction fuel as [|fuel IH]; intros x y line r H; simpl in H.
  - injection H as <-. apply Hstop.
  - destruct (interpolateVector vectorField bounds h x y) as [[vector|]|]; simpl in H;
      try discriminate;
      try (injection H as <-; apply Hstop).
    destruct (sqrt _ <? 1e-6);
      try (injection H as <-; apply Hstop).
    match type of H with (if ?c then _ else _) = _ => destruct c eqn:Hb end;
      try (injection H as <-; apply Hstop).
    apply orb_false_elim in Hb. destruct Hb as [Hb H3].
    apply orb_false_elim in Hb. destruct Hb as [Hb H2].
    apply orb_false_elim in Hb. destruct Hb as [H0 H1].
    match type of H with context [line ++ [?q]] => set (p := q) in * end.
    assert (inside bounds p) as Hp by (repeat split; assumption).
    match type of H with (if ?c then _ else _) = _ => destruct c end.
    + injection H as <-. exists [p]. split; [reflexivity | constructor; [exact Hp | constructor]].
    + apply IH in H. destruct H as (added & -> & Hadded).
      exists (p :: added). split; [rewrite <- app_assoc; reflexivity|].
      constructor; assumption.
Qed.

(** With no flow anywhere, the loop returns the line it was given. *)
Lemma integrate_loop_still :
  Forall (Forall (fun v => (magnitude v <? 1e-6) = true)) vectorField ->
  forall fuel x y line r,
  integrate_loop vectorField bounds options h fuel x y line = Ret r -> r = line.
Proof.
  intros Hstill. destruct fuel as [|fuel]; intros x y line r H; simpl in H.
  - injection H as <-. reflexivity.
  - unfold interpolateVector in H.
    match type of H with context [if ?c then Ret (Some (mkPoint 0 0)) else _] =>
      destruct c end.
    + simpl in H. change (sqrt (0 * 0 + 0 * 0) <? 1e-6) with true in H.
      injection H as <-. reflexivity.
    + destruct (array_get vectorField _) as [col|] eqn:Ecol; [|discriminate H].
      simpl in H. destruct (array_get col _) as [v|] eqn:Ev.
      * apply array_get_In in Ecol, Ev.
        rewrite Forall_forall in Hstill. specialize (Hstill col Ecol).
        rewrite Forall_forall in Hstill. specialize (Hstill v Ev).
        unfold magnitude in Hstill. rewrite Hstill in H. injection H as <-. reflexivity.
      * injection H as <-. reflexivity.
Qed.

End Loop.

Lemma seedPoints_length bounds : length (seedPoints bounds) = 100%nat.
Proof. reflexivity. Qed.

(** X1: there are at most a hundred streamlines; each starts at a point of
    the seed lattice and has at least one more point, and every point after
    the seed passed the bounds test: it is neither left of [bounds[0]], right
    of [bounds[2]], below [bounds[1]] nor above [bounds[3]]. *)
Theorem createStreamlines_inside vf bounds options lines :
  createStreamlines vf bounds options = Ret lines ->
  (length lines <= 100)%nat /\
  Forall (fun line =>
            exists seed rest,
              In seed (seedPoints bounds) /\ line = seed :: rest /\ rest <> [] /\
              Forall (inside bounds) rest)
         lines.
Proof.
  unfold createStreamlines, bind. intros H.
  destruct (field_height vf) as [h|]; [|discriminate].
  destruct (mapM _ (seedPoints bounds)) as [ls|] eqn:Els; [|discriminate].
  injection H as <-. split.
  - apply mapM_length in Els. rewrite seedPoints_length in Els. rewrite <- Els.
    clear. induction ls as [|l ls IH]; simpl; [lia|]. destruct (1 <? length l)%nat; simpl; lia.
  - apply Forall_forall. intros line Hin. apply filter_In in Hin. destruct Hin as [Hin Hlen].
    apply Nat.ltb_lt in Hlen. apply mapM_Ret in Els.
    assert (exists seed, In seed (seedPoints bounds) /\
              integrateLine vf bounds options h (px seed) (py seed) = Ret line)
      as (seed & Hseed & Hline).
    { clear Hlen. induction Els as [|seed l0 seeds ls Hs _ IH]; [contradiction|].
      destruct Hin as [<-|Hin].
      - exists seed. split; [left; reflexivity | exact Hs].
      - destruct (IH Hin) as (s' & Hs' & Hl'). exists s'. split; [right; exact Hs' | exact Hl']. }
    unfold integrateLine in Hline. apply integrate_loop_inside in Hline.
    destruct Hline as (added & -> & Hadded).
    exists seed, added. split; [exact Hseed|]. split; [destruct seed; reflexivity|].
    split; [|exact Hadded]. intros ->. simpl in Hlen. lia.
Qed.

Lemma createStreamlines_inside_witness :
  exists lines,
    createStreamlines uniform_field scenario_bounds scenario_options = Ret lines /\
    (length lines <= 100)%nat /\
    Forall (fun line =>
              exists seed rest,
                In seed (seedPoints scenario_bounds) /\ line = seed :: rest /\ rest <> [] /\
                Forall (inside scenario_bounds) rest)
           lines.
Proof.
  eexists. split; [vm_compute; reflexivity|].
  apply (createStreamlines_inside uniform_field scenario_bounds scenario_options).
  vm_compute. reflexivity.
Defined.

(** X2: a field with no flow gives no streamline: when every vector of
    the field is shorter than [1e-6], [createStreamlines] returns the empty
    list (or throws), whatever the bounds and the options. *)
Theorem createStreamlines_still_field vf bounds options lines :
  Forall (Forall (fun v => (magnitude v <? 1e-6) = true)) vf ->
  createStreamlines vf bounds options = Ret lines ->
  lines = [].
Proof.
  intros Hstill. unfold createStreamlines, bind. intros H.
  destruct (field_height vf) as [h|]; [|discriminate].
  destruct (mapM _ (seedPoints bounds)) as [ls|] eqn:Els; [|discriminate].
  injection H as <-. apply filter_none. intros line Hin.
  apply mapM_Ret in Els.
  assert (exists seed, integrateLine vf bounds options h (px seed) (py seed) = Ret line)
    as (seed & Hline).
  { induction Els as [|seed l0 seeds ls Hs _ IH]; [contradiction|].
    destruct Hin as [<-|Hin]; [exists seed; exact Hs | exact (IH Hin)]. }
  unfold integrateLine in Hline.
  apply (integrate_loop_still vf bounds options h Hstill) in Hline. subst line. reflexivity.
Qed.

Lemma still_field_is_still :
  Forall (Forall (fun v => (magnitude v <? 1e-6) = true)) still_field.
Proof.
  apply Forall_forall. intros col Hcol. apply repeat_spec in Hcol. subst col.
  apply Forall_forall. intros v Hv. apply repeat_spec in Hv. subst v. reflexivity.
Defined.

Lemma createStreamlines_still_field_witness :
  exists lines,
    createStreamlines still_field scenario_bounds scenario_options = Ret lines /\
    lines = [].
Proof.
  eexists. split; [vm_compute; reflexivity|].
  apply (createStreamlines_still_field still_field scenario_bounds scenario_options _
           still_field_is_still).
  vm_compute. reflexivity.
Defined.

(** X3: the two edges of the input.  On an empty field
    [createStreamlines] throws (it reads [vectorField[0].length]); with
    [maxSteps = 0] and a field that has a first column, no step is taken and
    no streamline is returned. *)
Theorem createStreamlines_edges bounds options :
  createStreamlines [] bounds options = Throw /\
  (forall vf, vf <> [] -> opt_maxSteps options = Some 0%nat ->
   createStreamlines vf bounds options = Ret []).
Proof.
  split; [reflexivity|]. intros vf Hvf Hmax.
  unfold createStreamlines, bind, field_height.
  destruct vf as [|col vf]; [contradiction|].
  rewrite (mapM_total _ (fun seed => [mkPoint (px seed) (py seed)])).
  - reflexivity.
  - intros seed _. unfold integrateLine, maxSteps. rewrite Hmax. reflexivity.
Qed.

End StreamlineShape.

(** ** The tensor field *)

Module TensorFieldFacts.

Import JS Builtins Visualization Grid TensorField Samples ArrayFacts IterationFacts.
Local Open Scope float_scope.

Lemma accumulate_returns distortions i j acc point idx :
  (idx < length distortions)%nat ->
  exists acc', accumulate distortions i j acc point idx = Ret acc'.
Proof.
  intros Hidx. unfold accumulate.
  match goal with |- context [if ?c then _ else _] => destruct c end;
    [|eexists; reflexivity].
  destruct (nth_error distortions idx) as [d|] eqn:Ed;
    [|apply nth_error_None in Ed; lia].
  apply element_Ret in Ed. rewrite Ed. simpl. eexists; reflexivity.
Qed.

Lemma forEachM_from_returns distortions i j points :
  forall k acc, (k + length points <= length distortions)%nat ->
  exists acc', forEachM_from (accumulate distortions i j) k points acc = Ret acc'.
Proof.
  induction points as [|point points IH]; intros k acc Hlen; simpl.
  - eexists; reflexivity.
  - simpl in Hlen.
    destruct (accumulate_returns distortions i j acc point k ltac:(lia)) as [acc1 ->].
    simpl. apply IH. lia.
Qed.

Lemma cell_returns points distortions i j :
  (length points <= length distortions)%nat ->
  exists v, cell points distortions i j = Ret v.
Proof.
  intros Hlen. unfold cell, forEachM.
  destruct (forEachM_from_returns distortions i j points 0 (mkSums 0 0 0) Hlen) as [s ->].
  simpl. eexists; reflexivity.
Qed.

(** X4: the field [generateTensorField] returns has twenty columns of
    twenty vectors, whatever the points; it returns whenever [distortions]
    has an entry for every point; and with no point at all the field is zero
    everywhere. *)
Theorem generateTensorField_shape points distortions :
  (forall field, generateTensorField points distortions = Ret field ->
     length field = 20%nat /\ Forall (fun column => length column = 20%nat) field) /\
  ((length points <= length distortions)%nat ->
     exists field, generateTensorField points distortions = Ret field) /\
  generateTensorField [] distortions = Ret still_field.
Proof.
  split; [|split].
  - unfold generateTensorField. intros field H. split.
    + apply mapM_length in H. exact H.
    + apply mapM_Ret in H. apply Forall_forall. intros column Hin.
      induction H as [|i column0 is0 field0 Hi _ IH]; [contradiction|].
      destruct Hin as [<-|Hin]; [|exact (IH Hin)].
      apply mapM_length in Hi. exact Hi.
  - intros Hlen. unfold generateTensorField.
    apply mapM_returns. intros i _. apply mapM_returns. intros j _.
    apply cell_returns. exact Hlen.
  - reflexivity.
Qed.

End TensorFieldFacts.

(** ** Connectivity: statistical.ts against the network layer *)

Module ConnectivityFacts.

Import JS Builtins Grid Statistical Layers MapView Scenarios Samples.
Import FloatFacts FloatArith FloatMore ArrayFacts IterationFacts.
Local Open Scope float_scope.

(** *** [calculateConnectivity] *)

(** The filter of [calculateConnectivity] for the outer index [i] drops
    point [i] and otherwise keeps the points below the threshold: its length
    is the number of points below the threshold, less one if point [i] is
    among them. *)
Lemma connected_count T i points :
  forall k,
  length (filter (fun q => time_of q <? T) points) =
  (length (filteri_from (connected T i) k points) +
   match nth_error points (i - k) with
   | Some p => if (k <=? i)%nat && (time_of p <? T)%float then 1 else 0
   | None => 0
   end)%nat.
Proof.
  induction points as [|a points IH]; intros k.
  - simpl. destruct (i - k)%nat; reflexivity.
  - cbn [filter filteri_from]. unfold connected at 1.
    specialize (IH (S k)).
    destruct (Nat.eqb_spec i k) as [E|E].
    + subst k. rewrite Nat.sub_diag. cbn [nth_error]. rewrite Nat.leb_refl. cbn [andb].
      replace (i - S i)%nat with 0%nat in IH by lia.
      replace (S i <=? i)%nat with false in IH by (symmetry; apply Nat.leb_gt; lia).
      cbn [andb] in IH.
      assert (length (filter (fun q => time_of q <? T) points) =
              length (filteri_from (connected T i) (S i) points)) as IH'.
      { rewrite IH. destruct (nth_error points 0); lia. }
      destruct (time_of a <? T); cbn [length]; lia.
    + destruct (Nat.leb_spec k i) as [Hle|Hgt].
      * assert (i - k = S (i - S k))%nat as Ei by lia.
        rewrite Ei. cbn [nth_error].
        replace (S k <=? i)%nat with true in IH by (symmetry; apply Nat.leb_le; lia).
        destruct (time_of a <? T); cbn [length]; lia.
      * replace (i - k)%nat with 0%nat by lia. cbn [nth_error andb].
        replace (i - S k)%nat with 0%nat in IH by lia.
        replace (S k <=? i)%nat with false in IH by (symmetry; apply Nat.leb_gt; lia).
        cbn [andb] in IH.
        assert (length (filter (fun q => time_of q <? T) points) =
                length (filteri_from (connected T i) (S k) points)) as IH'.
        { rewrite IH. destruct (nth_error points 0); lia. }
        destruct (time_of a <? T); cbn [length]; lia.
Qed.

Lemma filteri_from_length {A : Type} (f : A -> nat -> bool) (l : list A) :
  forall k, (length (filteri_from f k l) <= length l)%nat.
Proof.
  induction l as [|a l IH]; intros k; simpl; [lia|].
  specialize (IH (S k)). destruct (f a k); simpl; lia.
Qed.

(** A filter that drops one of its elements is shorter than the list. *)
Lemma filteri_from_drops {A : Type} (f : A -> nat -> bool) (l : list A) :
  forall k j a, nth_error l j = Some a -> f a (k + j)%nat = false ->
  (length (filteri_from f k l) <= length l - 1)%nat.
Proof.
  induction l as [|a l IH]; intros k j a' Hj Hf; [destruct j; discriminate Hj|].
  simpl. destruct j as [|j]; simpl in Hj.
  - injection Hj as ->. rewrite Nat.add_0_r in Hf. rewrite Hf.
    pose proof (filteri_from_length f l (S k)). lia.
  - rewrite Nat.add_succ_r in Hf. specialize (IH (S k) j a' Hj Hf).
    assert (0 < length l)%nat by (destruct l; [destruct j; discriminate Hj | simpl; lia]).
    destruct (f a k); simpl; lia.
Qed.

Lemma connectivity_value points th i p :
  nth_error points i = Some p ->
  nth_error (calculateConnectivity points th) i =
    Some (let T := match th with Some t => t | None => 20 end in
          let total := length (filter (fun q => time_of q <? T) points) in
          if time_of p <? T then (total - 1)%nat else total).
Proof.
  intros Hp. unfold calculateConnectivity. rewrite mapi_nth, Hp. simpl. f_equal.
  set (T := match th with Some t => t | None => 20 end).
  pose proof (connected_count T i points 0) as H.
  rewrite Nat.sub_0_r, Hp in H. simpl in H. unfold filteri.
  destruct (time_of p <? T); lia.
Qed.

(** No point is connected to more than the other points. *)
Lemma connectivity_le points th i c :
  nth_error (calculateConnectivity points th) i = Some c -> (c <= length points - 1)%nat.
Proof.
  intros Hc. unfold calculateConnectivity in Hc. rewrite mapi_nth in Hc.
  destruct (nth_error points i) as [p|] eqn:Hp; [|discriminate Hc].
  simpl in Hc. injection Hc as <-. unfold filteri.
  apply (filteri_from_drops _ points 0 i p Hp).
  unfold connected. simpl. rewrite Nat.eqb_refl. reflexivity.
Qed.

(** X5: the connectivity of point [i] is the number of points whose travel
    time is below the threshold, less one if point [i] is itself below it;
    it is at most the number of other points.  The travel time between two
    points plays no part. *)
Theorem calculateConnectivity_counts points th i p :
  nth_error points i = Some p ->
  let T := match th with Some t => t | None => 20 end in
  let total := length (filter (fun q => time_of q <? T) points) in
  exists c,
    nth_error (calculateConnectivity points th) i = Some c /\
    c = (if time_of p <? T then (total - 1)%nat else total) /\
    (c <= length points - 1)%nat.
Proof.
  intros Hp T total. eexists. split; [apply (connectivity_value points th i p Hp)|].
  split; [reflexivity|].
  apply (connectivity_le points th i). apply (connectivity_value points th i p Hp).
Qed.

Lemma calculateConnectivity_counts_witness :
  exists c,
    nth_error (calculateConnectivity samples_5_15_25 None) 2 = Some c /\
    c = 2%nat /\ (c <= 2)%nat.
Proof.
  exact (calculateConnectivity_counts samples_5_15_25 None 2 (sample "c" 0 1 (Some 25))
           eq_refl).
Defined.

(** X6: the centralities [findCentralPoints] returns take at most two
    values: with [total] the number of points below the threshold and [max]
    the largest connectivity, every centrality is [total / max] or
    [(total - 1) / max]. *)
Theorem findCentralPoints_two_values points th :
  let T := match th with Some t => t | None => 20 end in
  let total := length (filter (fun q => time_of q <? T) points) in
  let maxConnectivity := Math_max (map float_of_nat (calculateConnectivity points th)) in
  Forall (fun x => x = float_of_nat total / maxConnectivity \/
                   x = float_of_nat (total - 1) / maxConnectivity)
         (findCentralPoints points th).
Proof.
  intros T total maxConnectivity. apply Forall_forall. intros x Hx.
  apply In_nth_error in Hx. destruct Hx as [i Hi].
  unfold findCentralPoints in Hi. rewrite mapi_nth in Hi.
  destruct (nth_error points i) as [p|] eqn:Hp; [|discriminate Hi].
  simpl in Hi. rewrite (connectivity_value points th i p Hp) in Hi.
  injection Hi as <-. cbv zeta. fold T. fold total. fold maxConnectivity.
  destruct (time_of p <? T); [right | left]; reflexivity.
Qed.

(** *** [NetworkLayer] *)

Lemma own_filter_length {A : Type} (i : nat) (b : bool) (l : list A) :
  forall k,
  length (filteri_from (fun _ j => negb (i =? j)%nat && b) k l) =
  if b then (length l - (if (k <=? i)%nat && (i <? k + length l)%nat then 1 else 0))%nat
  else 0%nat.
Proof.
  induction l as [|a l IH]; intros k.
  - simpl. destruct b; reflexivity.
  - cbn [filteri_from length]. specialize (IH (S k)).
    destruct b.
    + rewrite andb_true_r in *.
      destruct (Nat.eqb_spec i k) as [E|E]; cbn [negb].
      * subst k. rewrite IH.
        replace (S i <=? i)%nat with false by (symmetry; apply Nat.leb_gt; lia).
        rewrite Nat.leb_refl.
        replace (i <? i + S (length l))%nat with true by (symmetry; apply Nat.ltb_lt; lia).
        simpl. lia.
      * cbn [length]. rewrite IH.
        destruct (Nat.leb_spec (S k) i), (Nat.leb_spec k i); try lia;
          destruct (Nat.ltb_spec i (S k + length l)), (Nat.ltb_spec i (k + S (length l)));
          try lia; simpl; try lia.
    + rewrite andb_false_r. exact IH.
Qed.

Lemma nearby_count distortedPoints i own :
  nth_error distortedPoints i = Some own ->
  exists near,
    filteriM (nearby distortedPoints i) distortedPoints = Ret near /\
    length near = if time_of own <? 20 then (length distortedPoints - 1)%nat else 0%nat.
Proof.
  intros Hown. eexists. split.
  - unfold filteriM.
    apply (filteriM_from_pure _ (fun _ j => negb (i =? j)%nat && (time_of own <? 20))).
    intros j a _. simpl. unfold nearby.
    destruct (i =? j)%nat; [reflexivity|].
    apply element_Ret in Hown. rewrite Hown. reflexivity.
  - rewrite own_filter_length.
    assert (i < length distortedPoints)%nat as Hi by (apply nth_error_Some; congruence).
    destruct (time_of own <? 20); [|reflexivity].
    replace (i <? 0 + length distortedPoints)%nat with true
      by (symmetry; apply Nat.ltb_lt; lia).
    reflexivity.
Qed.

(** X7: in the network layer a point is connected to all or to nothing.
    When every point has a distorted twin, the layer returns one circle per
    point, and the number of connections of point [i] is the number of other
    points if its own travel time is below 20 minutes, and [0] otherwise; the
    radius is [50 + 10 * connections].  When the distorted list is shorter
    than the point list and not empty, the layer throws. *)
Theorem networkData_all_or_nothing points distortedPoints :
  ((length points <= length distortedPoints)%nat ->
   exists data,
     networkData points distortedPoints = Ret data /\
     length data = length points /\
     forall i p own,
       nth_error points i = Some p -> nth_error distortedPoints i = Some own ->
       exists c,
         nth_error data i = Some c /\
         network_center c = coordinates p /\
         connections c =
           (if time_of own <? 20 then (length distortedPoints - 1)%nat else 0%nat) /\
         size c = 50 + float_of_nat (connections c) * 10) /\
  (distortedPoints <> [] -> (length distortedPoints < length points)%nat ->
   networkData points distortedPoints = Throw).
Proof.
  split.
  - intros Hlen. unfold networkData, mapiM.
    assert (forall i p, nth_error points i = Some p ->
            exists own, nth_error distortedPoints i = Some own) as Hown.
    { intros i p Hp.
      assert (i < length points)%nat as Hi by (apply nth_error_Some; congruence).
      destruct (nth_error distortedPoints i) as [own|] eqn:E; [eauto|].
      apply nth_error_None in E. lia. }
    match goal with |- context [mapiM_from ?f 0 points] =>
      destruct (mapiM_from_total f points 0) as [data Hdata] end.
    { intros i p Hp. destruct (Hown i p Hp) as [own Ho].
      destruct (nearby_count distortedPoints i own Ho) as (near & Hnear & _).
      simpl. rewrite Hnear. simpl. eexists; reflexivity. }
    exists data. split; [exact Hdata|].
    destruct (mapiM_from_Ret _ _ _ _ Hdata) as [Hl Hnth]. split; [exact Hl|].
    intros i p own Hp Ho. destruct (Hnth i p Hp) as (c & Hc & Hf).
    exists c. split; [exact Hc|]. simpl in Hf.
    destruct (nearby_count distortedPoints i own Ho) as (near & Hnear & Hcount).
    rewrite Hnear in Hf. simpl in Hf. injection Hf as <-. simpl.
    rewrite Hcount. auto.
  - intros Hne Hlen. unfold networkData, mapiM.
    destruct (nth_error points (length distortedPoints)) as [p|] eqn:Hp;
      [|apply nth_error_None in Hp; lia].
    apply (mapiM_from_Throw _ points 0 (length distortedPoints) p Hp).
    simpl. unfold filteriM.
    destruct distortedPoints as [|d ds] eqn:Eds; [contradiction|].
    rewrite (filteriM_from_Throw _ (d :: ds) 0 0 d eq_refl); [reflexivity|].
    unfold nearby. simpl.
    replace (element (d :: ds) (S (length ds))) with (@Throw GridPoint); [reflexivity|].
    symmetry. apply element_Throw. simpl. lia.
Qed.

Lemma networkData_all_or_nothing_witness :
  exists data,
    networkData twins_5_0_25 twins_5_0_25 = Ret data /\
    map connections data = [2%nat; 2%nat; 0%nat] /\
    map size data = [70; 70; 50] /\
    length data = 3%nat.
Proof.
  destruct (proj1 (networkData_all_or_nothing twins_5_0_25 twins_5_0_25) (le_n 3))
    as (data & Hdata & Hlen & _).
  exists data. split; [exact Hdata|].
  vm_compute in Hdata. injection Hdata as <-.
  split; [reflexivity|]. split; [reflexivity | exact Hlen].
Defined.

(** *** "Connected Points" *)

Lemma is_zero_spec x : is_zero x = true <-> exists s, Prim2SF x = S754_zero s.
Proof.
  unfold is_zero. rewrite eqb_spec. change (Prim2SF 0) with (S754_zero false).
  unfold SFeqb, SFcompare. destruct (Prim2SF x) as [s|s| |s m e]; split;
    try discriminate; try (intros [s' H]; discriminate H); eauto.
  - destruct s; discriminate.
  - destruct s; discriminate.
Qed.

(** The callback of "Connected Points" in terms of [travelTime || 0]: the
    time is below 20 and is not zero. *)
Lemma is_connected_time_of d :
  is_connected d = (time_of d <? 20) && negb (is_zero (time_of d)).
Proof.
  unfold is_connected, time_of, or_zero, truthy.
  destruct (travelTime d) as [t|]; [|reflexivity].
  destruct (is_nan t) eqn:En; [reflexivity|]. cbn [orb].
  destruct (is_zero t) eqn:Ez; cbn [negb andb]; [reflexivity|].
  rewrite Ez. rewrite andb_true_r. reflexivity.
Qed.

Lemma zero_below_20 d : is_zero (time_of d) = true -> (time_of d <? 20) = true.
Proof.
  intros H. apply is_zero_spec in H. destruct H as [s H].
  rewrite ltb_spec, H. reflexivity.
Qed.

Lemma connected_partition ds :
  (length (filter is_connected ds) +
   length (filter (fun d => is_zero (time_of d)) ds))%nat
  = length (filter (fun d => time_of d <? 20) ds).
Proof.
  induction ds as [|d ds IH]; [reflexivity|].
  cbn [filter]. rewrite is_connected_time_of.
  destruct (is_zero (time_of d)) eqn:Ez.
  - rewrite (zero_below_20 d Ez). cbn [andb negb length]. lia.
  - rewrite andb_true_r. destruct (time_of d <? 20); cbn [length]; lia.
Qed.

(** A filter on the points that looks at the twin of each is a filter on
    the twins. *)
Lemma twin_filter_length (g : GridPoint -> bool) (full : list GridPoint) :
  forall (points tail : list GridPoint) k,
  length points = length tail ->
  (forall j, nth_error tail j = nth_error full (k + j)) ->
  exists kept,
    filteriM_from (fun _ i => let* d := element full i in Ret (g d)) k points = Ret kept /\
    length kept = length (filter g tail).
Proof.
  induction points as [|p points IH]; intros tail k Hlen Htail.
  - destruct tail; [|discriminate Hlen]. exists []. split; reflexivity.
  - destruct tail as [|d tail]; [discriminate Hlen|].
    cbn [filteriM_from].
    pose proof (Htail 0%nat) as H0. rewrite Nat.add_0_r in H0. simpl in H0.
    symmetry in H0. apply element_Ret in H0. rewrite H0. cbn [bind].
    destruct (IH tail (S k)) as (kept & Hk & Hl).
    + simpl in Hlen. lia.
    + intros j. specialize (Htail (S j)). rewrite Nat.add_succ_r in Htail. exact Htail.
    + rewrite Hk. cbn [bind filter]. eexists. split; [reflexivity|].
      destruct (g d); cbn [length]; rewrite Hl; reflexivity.
Qed.

(** X8: "Connected Points" counts the distorted points whose travel time
    is present, not zero and below 20.  A travel time that is absent or zero
    is not counted here, although as [travelTime || 0] it is below 20: the
    count and the number of such points add up to the number of points that
    statistical.ts has within 20 minutes. *)
Theorem connectedPoints_skips_zero points distortedPoints :
  length points = length distortedPoints ->
  exists n,
    connectedPoints points distortedPoints = Ret n /\
    n = length (filter is_connected distortedPoints) /\
    (n + length (filter (fun d => is_zero (time_of d)) distortedPoints))%nat
      = length (filter (fun d => time_of d <? 20) distortedPoints).
Proof.
  intros Hlen. unfold connectedPoints.
  destruct (0 <? length points)%nat eqn:E.
  - destruct (twin_filter_length is_connected distortedPoints points distortedPoints 0 Hlen
                ltac:(reflexivity)) as (kept & Hk & Hl).
    unfold filteriM. rewrite Hk. cbn [bind]. exists (length kept).
    split; [reflexivity|]. split; [exact Hl|]. rewrite Hl. apply connected_partition.
  - apply Nat.ltb_ge in E. destruct points; [|simpl in E; lia].
    destruct distortedPoints; [|discriminate Hlen].
    exists 0%nat. split; [reflexivity|]. split; reflexivity.
Qed.

Lemma connectedPoints_skips_zero_witness :
  exists n,
    connectedPoints twins_5_0_25 twins_5_0_25 = Ret n /\
    n = 1%nat /\
    (n + 1)%nat = length (filter (fun d => time_of d <? 20) twins_5_0_25).
Proof.
  exact (connectedPoints_skips_zero twins_5_0_25 twins_5_0_25 eq_refl).
Defined.

End ConnectivityFacts.

(** ** Averages and maxima *)

Module AverageFacts.

Import JS Builtins Grid Statistical Displacement MapView Scenarios Samples.
Import FloatFacts FloatArith FloatMore ArrayFacts IterationFacts.
Local Open Scope float_scope.

Lemma fold_left_time_of points :
  forall acc,
  fold_left (fun sum point => sum + time_of point) points acc =
  fold_left add (map time_of points) acc.
Proof.
  induction points as [|p points IH]; intros acc; simpl; [reflexivity | apply IH].
Qed.

(** X9: the "Average Travel Time" of the panel is [Math.round] of what
    [calculateAverageTime] returns, on a list that is not empty; on the empty
    list the panel shows [0] where [calculateAverageTime] returns [NaN]
    ([0 / 0]). *)
Theorem averageTravelTime_rounds_mean :
  (forall distortedPoints, distortedPoints <> [] ->
     averageTravelTime distortedPoints = Math_round (calculateAverageTime distortedPoints)) /\
  averageTravelTime [] = 0 /\
  calculateAverageTime [] = nan.
Proof.
  split; [|split; reflexivity].
  intros ds Hne. unfold averageTravelTime, calculateAverageTime, sum.
  destruct ds as [|d ds]; [contradiction|].
  cbn [length Nat.ltb Nat.leb]. rewrite fold_left_time_of, length_map. reflexivity.
Qed.

(** X10: the mean travel time of a list that is not empty is a number at
    least zero (so not [NaN]) when no travel time is negative. *)
Theorem calculateAverageTime_nonneg points :
  points <> [] -> (Z.of_nat (length points) < 2 ^ 32)%Z ->
  Forall (fun p => (0 <=? time_of p) = true) points ->
  (0 <=? calculateAverageTime points) = true.
Proof.
  intros Hne Hmax Hpos. unfold calculateAverageTime. rewrite length_map.
  destruct (float_of_nat_finite (length points)) as (m & e & Hn);
    [destruct points; [contradiction | simpl; lia] | exact Hmax |].
  apply (div_nonneg _ _ m e Hn). apply sum_nonneg.
  apply Forall_forall. intros x Hx. apply in_map_iff in Hx. destruct Hx as (p & <- & Hp).
  rewrite Forall_forall in Hpos. apply Hpos. exact Hp.
Qed.

Lemma calculateAverageTime_nonneg_witness :
  (0 <=? calculateAverageTime samples_missing) = true /\
  calculateAverageTime samples_missing = 10.
Proof.
  split; [|reflexivity].
  apply (calculateAverageTime_nonneg samples_missing).
  - discriminate.
  - reflexivity.
  - repeat constructor.
Defined.

(** *** [calculateTimeDistortion] and [calculateMaxDistortion] *)

Section Distances.

Variable Feature : Type.
Variable turf_point : Coord -> result Feature.
Variable turf_distance : Feature -> Feature -> result float.

Let distortion := calculateTimeDistortion turf_point turf_distance.
Let maxDistortion := calculateMaxDistortion turf_point turf_distance.

Lemma timeDistortion_Throw distortedPoints p :
  timeDistortion turf_point turf_distance distortedPoints p (length distortedPoints) = Throw.
Proof.
  unfold timeDistortion. destruct (turf_point (coordinates p)); [|reflexivity].
  simpl. replace (element distortedPoints (length distortedPoints)) with (@Throw GridPoint);
    [reflexivity|].
  symmetry. apply element_Throw. lia.
Qed.

(** X11: [calculateTimeDistortion] returns one distance per point, and
    only if every point has a distorted twin: with fewer distorted points
    than points it throws, and so does [calculateMaxDistortion]. *)
Theorem calculateTimeDistortion_lengths points distortedPoints :
  (forall distortions, distortion points distortedPoints = Ret distortions ->
     length distortions = length points /\
     (length points <= length distortedPoints)%nat) /\
  ((length distortedPoints < length points)%nat ->
     distortion points distortedPoints = Throw /\
     maxDistortion points distortedPoints = Throw).
Proof.
  assert ((length distortedPoints < length points)%nat ->
          distortion points distortedPoints = Throw) as Hthrow.
  { intros Hlen. unfold distortion, calculateTimeDistortion, mapiM.
    destruct (nth_error points (length distortedPoints)) as [p|] eqn:Hp;
      [|apply nth_error_None in Hp; lia].
    apply (mapiM_from_Throw _ points 0 (length distortedPoints) p Hp).
    apply timeDistortion_Throw. }
  split.
  - intros ds H. split.
    + unfold distortion, calculateTimeDistortion, mapiM in H.
      apply (mapiM_from_Ret _ _ _ _ H).
    + destruct (Nat.le_gt_cases (length points) (length distortedPoints)) as [Hle|Hgt];
        [exact Hle|].
      rewrite (Hthrow Hgt) in H. discriminate H.
  - intros Hlen. split; [exact (Hthrow Hlen)|].
    unfold maxDistortion, calculateMaxDistortion. fold distortion.
    rewrite (Hthrow Hlen). reflexivity.
Qed.

Lemma fold_max2_nan l : fold_left max2 l nan = nan.
Proof. induction l as [|x l IH]; simpl; [reflexivity | exact IH]. Qed.

Lemma max2_nan_r a b : is_nan b = true -> max2 a b = nan.
Proof. intros H. unfold max2. rewrite H, orb_true_r. reflexivity. Qed.

Lemma fold_max2_poisoned l :
  Exists (fun d => is_nan d = true) l -> forall acc, fold_left max2 l acc = nan.
Proof.
  induction 1 as [x l Hx|x l _ IH]; intros acc; simpl.
  - rewrite (max2_nan_r acc x Hx). apply fold_max2_nan.
  - apply IH.
Qed.

Lemma max2_cases a b : max2 a b = a \/ max2 a b = b \/ max2 a b = nan.
Proof.
  unfold max2. destruct (is_nan a || is_nan b); [auto|].
  destruct (a <? b); [auto|]. destruct (b <? a); [auto|].
  destruct (get_sign a); auto.
Qed.

Lemma fold_max2_attained l :
  forall acc, fold_left max2 l acc = acc \/ In (fold_left max2 l acc) l \/
              fold_left max2 l acc = nan.
Proof.
  induction l as [|x l IH]; intros acc; simpl; [auto|].
  destruct (IH (max2 acc x)) as [H|[H|H]]; [|auto|auto].
  rewrite H. destruct (max2_cases acc x) as [E|[E|E]]; rewrite E; auto.
Qed.

(** X12: what [calculateMaxDistortion] returns is [Math.max] of the
    distances: [-Infinity] when there is no point, [NaN] as soon as one
    distance is [NaN]; otherwise it is one of the distances and none
    exceeds it. *)
Theorem calculateMaxDistortion_is_max points distortedPoints m :
  maxDistortion points distortedPoints = Ret m ->
  exists distortions,
    distortion points distortedPoints = Ret distortions /\
    (points = [] -> m = neg_infinity) /\
    (Exists (fun d => is_nan d = true) distortions -> m = nan) /\
    (points <> [] -> Forall (fun d => is_nan d = false) distortions ->
       In m distortions /\ Forall (fun d => (d <=? m) = true) distortions).
Proof.
  unfold maxDistortion, calculateMaxDistortion. fold distortion.
  destruct (distortion points distortedPoints) as [ds|] eqn:Eds; [|discriminate].
  simpl. intros H. injection H as <-. exists ds. split; [reflexivity|].
  assert (length ds = length points) as Hlen.
  { unfold distortion, calculateTimeDistortion, mapiM in Eds.
    apply (mapiM_from_Ret _ _ _ _ Eds). }
  split; [|split].
  - intros ->. destruct ds; [reflexivity | discriminate Hlen].
  - intros Hnan. apply fold_max2_poisoned. exact Hnan.
  - intros Hne Hok. unfold Math_max.
    destruct (MetricFacts.fold_max2_ge ds Hok neg_infinity eq_refl) as (Hn & Hacc & Hall).
    split; [|exact Hall].
    destruct (fold_max2_attained ds neg_infinity) as [H|[H|H]].
    + destruct ds as [|d ds']; [destruct points; [contradiction | discriminate Hlen]|].
      rewrite H in Hall |- *. left. inversion Hall as [|? ? Hd _]; subst.
      apply Prim2SF_inj. rewrite leb_spec in Hd.
      change (Prim2SF neg_infinity) with (S754_infinity true) in Hd |- *.
      destruct (Prim2SF d) as [s|[]| |s mm e]; try discriminate Hd; try reflexivity;
        destruct s; discriminate Hd.
    + exact H.
    + rewrite H in Hn. discriminate Hn.
Qed.

End Distances.

Lemma calculateMaxDistortion_is_max_witness :
  calculateMaxDistortion flat_point flat_distance scenario_A scenario_A_moved = Ret 5 /\
  exists distortions,
    calculateTimeDistortion flat_point flat_distance scenario_A scenario_A_moved
      = Ret distortions /\
    (scenario_A <> [] -> Forall (fun d => is_nan d = false) distortions ->
       In 5 distortions /\ Forall (fun d => (d <=? 5) = true) distortions).
Proof.
  split; [reflexivity|].
  destruct (calculateMaxDistortion_is_max _ flat_point flat_distance
              scenario_A scenario_A_moved 5 eq_refl) as (ds & Hds & _ & _ & H).
  exists ds. split; [exact Hds | exact H].
Defined.

End AverageFacts.

(** ** Finite numbers *)

Module FiniteFacts.

Import JS Signs FloatFacts FloatArith FloatMore.
Local Open Scope float_scope.

Lemma is_infinity_spec x : is_infinity x = true <-> exists s, Prim2SF x = S754_infinity s.
Proof.
  unfold is_infinity. rewrite eqb_spec, abs_spec.
  change (Prim2SF infinity) with (S754_infinity false).
  destruct (Prim2SF x) as [s|s| |s m e]; simpl; split;
    try discriminate; try (intros [s' H]; discriminate H); eauto.
Qed.

(** A finite number is a zero or has a mantissa and an exponent. *)
Lemma is_finite_spec x :
  is_finite x = true <->
  (exists s, Prim2SF x = S754_zero s) \/ (exists s m e, Prim2SF x = S754_finite s m e).
Proof.
  unfold is_finite. rewrite negb_true_iff, orb_false_iff.
  split.
  - intros [Hn Hi]. apply is_nan_false in Hn.
    destruct (Prim2SF x) as [s|s| |s m e] eqn:E;
      [left; exists s; reflexivity | exfalso | congruence
       | right; exists s, m, e; reflexivity].
    assert (is_infinity x = true) as H by (apply is_infinity_spec; eauto).
    congruence.
  - intros H. split.
    + apply is_nan_false. destruct H as [[s H]|(s & m & e & H)]; rewrite H; discriminate.
    + destruct (is_infinity x) eqn:E; [|reflexivity].
      apply is_infinity_spec in E. destruct E as [s' E].
      destruct H as [[s H]|(s & m & e & H)]; congruence.
Qed.

(** [x - x] is [+0] for a finite [x]. *)
Lemma sub_diag x : is_finite x = true -> x - x = 0.
Proof.
  intros H. apply Prim2SF_inj. rewrite sub_spec.
  change (Prim2SF 0) with (S754_zero false).
  apply is_finite_spec in H.
  destruct (SFsub_diag (Prim2SF x)) as [E|E]; [exact E|].
  destruct H as [[s H]|(s & m & e & H)]; rewrite H in E |- *.
  - destruct s; discriminate E.
  - unfold SF64sub, SFsub in E |- *. rewrite Z.sub_diag in E |- *. discriminate E.
Qed.

(** A finite number times zero is a zero. *)
Lemma mul_zero_r x z :
  is_finite x = true -> is_zero z = true -> is_zero (x * z) = true.
Proof.
  intros Hx Hz. apply ConnectivityFacts.is_zero_spec in Hz. destruct Hz as [sz Hz].
  apply ConnectivityFacts.is_zero_spec. rewrite mul_spec, Hz.
  apply is_finite_spec in Hx.
  destruct Hx as [[s H]|(s & m & e & H)]; rewrite H; eexists; reflexivity.
Qed.

Lemma mul_zero_l x z :
  is_finite x = true -> is_zero z = true -> is_zero (z * x) = true.
Proof. rewrite mul_comm. apply mul_zero_r. Qed.

(** Adding a zero to a number that is not [NaN] leaves it as it is, up to
    the sign of a zero. *)
Lemma add_zero_r x z : is_nan x = false -> is_zero z = true -> (x + z =? x) = true.
Proof.
  intros Hx Hz. apply ConnectivityFacts.is_zero_spec in Hz. destruct Hz as [sz Hz].
  apply is_nan_false in Hx. rewrite eqb_spec, add_spec, Hz.
  destruct (Prim2SF x) as [s|s| |s m e]; try congruence.
  - destruct s, sz; reflexivity.
  - destruct s; reflexivity.
  - unfold SF64add, SFadd, SFeqb, SFcompare.
    destruct s; rewrite Z.compare_refl, Pos.compare_cont_refl; reflexivity.
Qed.

Lemma is_finite_not_nan x : is_finite x = true -> is_nan x = false.
Proof.
  unfold is_finite. rewrite negb_true_iff, orb_false_iff. intros [H _]. exact H.
Qed.

(** If a difference is finite, so is what is subtracted from. *)
Lemma sub_finite_l x y : is_finite (x - y) = true -> is_nan y = false.
Proof.
  intros H. apply is_finite_spec in H. rewrite sub_spec in H. apply is_nan_false.
  intros E. rewrite E in H. unfold SF64sub, SFsub in H.
  destruct (Prim2SF x) as [sx|sx| |sx mx ex];
    destruct H as [[s H]|(s & m & e & H)]; discriminate H.
Qed.

End FiniteFacts.

(** ** Distortion: the grid, the pipeline, the positions on screen *)

Module PipelineFacts.

Import JS Builtins Grid DistortionMap MapView Scenarios Samples.
Import FloatFacts FloatArith FloatMore FiniteFacts ArrayFacts IterationFacts DistortionFacts.
Local Open Scope float_scope.

(** *** The two [distortPoints] *)

Section Distort.

Variable M : MathLib.

Lemma distortPoint_utils_returns points timeMatrix p i row c :
  nth_error timeMatrix i = Some row -> nth_error points 0 = Some c ->
  distortPoint_utils M points timeMatrix p i =
    Ret (mkGridPoint (id p)
           (fst (coordinates p) + Math_cos M (direction M c p) * (avgTime points row / 60),
            snd (coordinates p) + Math_sin M (direction M c p) * (avgTime points row / 60))
           (originalCoordinates p) (travelTime p) (animationProgress p)).
Proof. intros Hrow Hc. unfold distortPoint_utils. rewrite Hrow, Hc. reflexivity. Qed.

(** Both throw when the matrix has fewer rows than there are points. *)
Lemma distortPoints_Throw points timeMatrix factor :
  (length timeMatrix < length points)%nat ->
  distortPoints M points timeMatrix factor = Throw /\
  distortPoints_utils M points timeMatrix = Throw.
Proof.
  intros Hlen.
  destruct (nth_error points (length timeMatrix)) as [p|] eqn:Hp;
    [|apply nth_error_None in Hp; lia].
  assert (nth_error timeMatrix (length timeMatrix) = None) as Hrow
    by (apply nth_error_None; lia).
  split.
  - unfold distortPoints, mapiM.
    apply (mapiM_from_Throw _ points 0 (length timeMatrix) p Hp).
    unfold distortPoint. simpl. rewrite Hrow. reflexivity.
  - unfold distortPoints_utils, mapiM.
    apply (mapiM_from_Throw _ points 0 (length timeMatrix) p Hp).
    unfold distortPoint_utils. simpl. rewrite Hrow. reflexivity.
Qed.

Lemma distortPoints_needs_rows points timeMatrix factor distorted :
  distortPoints M points timeMatrix factor = Ret distorted ->
  (length points <= length timeMatrix)%nat.
Proof.
  intros H. destruct (Nat.le_gt_cases (length points) (length timeMatrix)) as [Hle|Hgt];
    [exact Hle|].
  rewrite (proj1 (distortPoints_Throw points timeMatrix factor Hgt)) in H. discriminate H.
Qed.

Lemma distortPoints_utils_returns points timeMatrix :
  (length points <= length timeMatrix)%nat ->
  exists distorted,
    distortPoints_utils M points timeMatrix = Ret distorted /\
    length distorted = length points /\
    forall i p, nth_error points i = Some p ->
    exists row c d,
      nth_error timeMatrix i = Some row /\ nth_error points 0 = Some c /\
      nth_error distorted i = Some d /\
      distortPoint_utils M points timeMatrix p i = Ret d.
Proof.
  intros Hlen. unfold distortPoints_utils, mapiM.
  assert (forall i p, nth_error points i = Some p ->
          exists row c, nth_error timeMatrix i = Some row /\ nth_error points 0 = Some c)
    as Hrows.
  { intros i p Hp.
    assert (i < length points)%nat as Hi by (apply nth_error_Some; congruence).
    destruct (nth_error timeMatrix i) as [row|] eqn:Er;
      [|apply nth_error_None in Er; lia].
    destruct points as [|c points']; [destruct i; discriminate Hp|].
    exists row, c. split; reflexivity. }
  destruct (mapiM_from_total (distortPoint_utils M points timeMatrix) points 0)
    as [distorted Hd].
  { intros i p Hp. destruct (Hrows i p Hp) as (row & c & Hr & Hc).
    eexists. apply (distortPoint_utils_returns _ _ _ _ _ _ Hr Hc). }
  exists distorted. split; [exact Hd|].
  destruct (mapiM_from_Ret _ _ _ _ Hd) as [Hl Hnth]. split; [exact Hl|].
  intros i p Hp. destruct (Hrows i p Hp) as (row & c & Hr & Hc).
  destruct (Hnth i p Hp) as (d & Hdi & Hfd).
  exists row, c, d. auto.
Qed.

(** X13: with the default factor, the [distortPoints] of the map component
    moves every point exactly where the [distortPoints] of
    utils/distortion.ts moves it; the two differ only in [travelTime], which
    the latter leaves as it finds it.  They throw on the same inputs. *)
Theorem distortPoints_default_geometry points timeMatrix :
  (forall distorted, distortPoints M points timeMatrix None = Ret distorted ->
     exists distorted',
       distortPoints_utils M points timeMatrix = Ret distorted' /\
       map coordinates distorted' = map coordinates distorted /\
       map id distorted' = map id distorted /\
       map travelTime distorted' = map travelTime points) /\
  (distortPoints M points timeMatrix None = Throw ->
     distortPoints_utils M points timeMatrix = Throw).
Proof.
  split.
  - intros distorted H.
    pose proof (distortPoints_needs_rows _ _ _ _ H) as Hlen.
    destruct (distortPoints_returns M points timeMatrix None Hlen) as (d1 & Hd1 & Hl1 & Hn1).
    rewrite H in Hd1. injection Hd1 as <-.
    destruct (distortPoints_utils_returns points timeMatrix Hlen) as (d2 & Hd2 & Hl2 & Hn2).
    exists d2. split; [exact Hd2|].
    assert (forall i, exists o1 o2,
              nth_error distorted i = o1 /\ nth_error d2 i = o2 /\
              option_map coordinates o2 = option_map coordinates o1 /\
              option_map id o2 = option_map id o1 /\
              option_map travelTime o2 = option_map travelTime (nth_error points i)) as Hall.
    { intros i. destruct (nth_error points i) as [p|] eqn:Hp.
      - destruct (Hn1 i p Hp) as (row & c & e1 & Hr & Hc & He1 & Hf1).
        destruct (Hn2 i p Hp) as (row' & c' & e2 & Hr' & Hc' & He2 & Hf2).
        rewrite (distortPoint_returns M _ _ _ _ _ _ _ Hr Hc) in Hf1.
        rewrite (distortPoint_utils_returns _ _ _ _ _ _ Hr Hc) in Hf2.
        injection Hf1 as <-. injection Hf2 as <-.
        exists (nth_error distorted i), (nth_error d2 i).
        rewrite He1, He2. simpl. rewrite !mul_1_r. auto.
      - exists None, None.
        assert (nth_error distorted i = None) as -> by (apply nth_error_None;
          apply nth_error_None in Hp; lia).
        assert (nth_error d2 i = None) as -> by (apply nth_error_None;
          apply nth_error_None in Hp; lia).
        auto. }
    split; [|split]; apply nth_error_ext; intros i; rewrite !nth_error_map;
      destruct (Hall i) as (o1 & o2 & <- & <- & Hc & Hi & Ht); assumption.
  - intros H.
    destruct (Nat.le_gt_cases (length points) (length timeMatrix)) as [Hle|Hgt].
    + destruct (distortPoints_returns M points timeMatrix None Hle) as (d1 & Hd1 & _).
      rewrite H in Hd1. discriminate Hd1.
    + apply (distortPoints_Throw points timeMatrix None Hgt).
Qed.

(** What [distortPoints] leaves of a point. *)
Lemma distortPoints_fields points timeMatrix factor distorted :
  distortPoints M points timeMatrix factor = Ret distorted ->
  map id distorted = map id points /\
  map originalCoordinates distorted = map originalCoordinates points /\
  map animationProgress distorted = map animationProgress points.
Proof.
  intros H.
  pose proof (distortPoints_needs_rows _ _ _ _ H) as Hlen.
  destruct (distortPoints_returns M points timeMatrix factor Hlen) as (d1 & Hd1 & Hl1 & Hn1).
  rewrite H in Hd1. injection Hd1 as <-.
  assert (forall i,
            option_map id (nth_error distorted i) = option_map id (nth_error points i) /\
            option_map originalCoordinates (nth_error distorted i)
              = option_map originalCoordinates (nth_error points i) /\
            option_map animationProgress (nth_error distorted i)
              = option_map animationProgress (nth_error points i)) as Hall.
  { intros i. destruct (nth_error points i) as [p|] eqn:Hp.
    - destruct (Hn1 i p Hp) as (row & c & e1 & Hr & Hc & He1 & Hf1).
      rewrite (distortPoint_returns M _ _ _ _ _ _ _ Hr Hc) in Hf1.
      injection Hf1 as <-. rewrite He1. auto.
    - assert (nth_error distorted i = None) as -> by (apply nth_error_None;
        apply nth_error_None in Hp; lia).
      auto. }
  split; [|split]; apply nth_error_ext; intros i; rewrite !nth_error_map; apply Hall.
Qed.

(** X14: [distortPoints] returns the points in their order and changes
    nothing of a point but [coordinates] and [travelTime]: [id],
    [originalCoordinates] and [animationProgress] are those of the input.  It
    returns exactly when the matrix has a row for every point. *)
Theorem distortPoints_keeps points timeMatrix factor :
  (forall distorted, distortPoints M points timeMatrix factor = Ret distorted ->
     map id distorted = map id points /\
     map originalCoordinates distorted = map originalCoordinates points /\
     map animationProgress distorted = map animationProgress points) /\
  ((exists distorted, distortPoints M points timeMatrix factor = Ret distorted) <->
   (length points <= length timeMatrix)%nat).
Proof.
  split.
  - intros distorted H. exact (distortPoints_fields _ _ _ _ H).
  - split.
    + intros [distorted H]. exact (distortPoints_needs_rows _ _ _ _ H).
    + intros Hlen.
      destruct (distortPoints_returns M points timeMatrix factor Hlen) as (d & Hd & _).
      exists d. exact Hd.
Qed.

(** X15: the anchor is not a fixed point.  When [Math.atan2(0, 0)] is [0],
    [Math.cos(0)] is [1] and [Math.sin(0)] is [0], as ECMAScript has them, the
    first point, whose direction is measured from itself, is moved along [x]
    by exactly its own [scaleFactor = avgTime / 60 * distortionFactor]. *)
Theorem anchor_moves_east anchor rest timeMatrix row factor :
  exact_at_zero M ->
  nth_error timeMatrix 0 = Some row ->
  (length (anchor :: rest) <= length timeMatrix)%nat ->
  is_finite (fst (coordinates anchor)) = true ->
  is_finite (snd (coordinates anchor)) = true ->
  exists distorted d,
    distortPoints M (anchor :: rest) timeMatrix (Some factor) = Ret distorted /\
    nth_error distorted 0 = Some d /\
    let scaleFactor := avgTime (anchor :: rest) row / 60 * factor in
    coordinates d =
      (fst (coordinates anchor) + scaleFactor, snd (coordinates anchor) + 0 * scaleFactor).
Proof.
  intros (Ha & Hc & Hs) Hrow Hlen Hx Hy.
  destruct (distortPoints_returns M (anchor :: rest) timeMatrix (Some factor) Hlen)
    as (distorted & Hd & _ & Hnth).
  destruct (Hnth 0%nat anchor eq_refl) as (row' & c & d & Hr & Hc0 & Hdi & Hfd).
  rewrite (distortPoint_returns M _ _ _ _ _ _ _ Hr Hc0) in Hfd.
  rewrite Hrow in Hr. injection Hr as <-. injection Hc0 as <-. injection Hfd as <-.
  exists distorted. eexists. split; [exact Hd|]. split; [exact Hdi|].
  cbv zeta. cbn [coordinates]. unfold direction.
  rewrite (sub_diag _ Hx), (sub_diag _ Hy), Ha, Hc, Hs, mul_1_l. reflexivity.
Qed.

End Distort.

Lemma anchor_moves_east_witness :
  exists distorted d,
    distortPoints Math_eastward parallel_points parallel_matrix (Some 2) = Ret distorted /\
    nth_error distorted 0 = Some d /\
    coordinates d = (-73.97 + 6 / 60 * 2, 40.78 + 0 * (6 / 60 * 2)).
Proof.
  exact (anchor_moves_east Math_eastward
           (mkGridPoint "point-0" (-73.97, 40.78) None None None)
           [mkGridPoint "point-1" (-73.96, 40.78) None None None]
           parallel_matrix [0; 12] 2
           (conj eq_refl (conj eq_refl eq_refl)) eq_refl (le_n 2) eq_refl eq_refl).
Defined.

(** *** [generateGrid] *)

Lemma index_to_string_inj i j : index_to_string i = index_to_string j -> i = j.
Proof.
  unfold index_to_string. intros H.
  apply (f_equal NilEmpty.uint_of_string) in H. rewrite !NilEmpty.usu in H.
  injection H as H. apply (f_equal Nat.of_uint) in H.
  rewrite !Unsigned.of_to in H. exact H.
Qed.

Lemma point_id_inj i j : point_id i = point_id j -> i = j.
Proof.
  unfold point_id. simpl. intros H. injection H as H. apply index_to_string_inj. exact H.
Qed.

Lemma mapi_from_ids (grid : list Coord) :
  forall k,
  map id (mapi_from (fun point index =>
                       mkGridPoint (point_id index) point (Some point) None None) k grid)
  = map point_id (seq k (length grid)).
Proof.
  induction grid as [|c grid IH]; intros k; simpl; [reflexivity|]. rewrite IH. reflexivity.
Qed.

Section GridFacts.

Variables Circle BBox : Type.
Variable turf_circle : Coord -> float -> result Circle.
Variable turf_bbox : Circle -> result BBox.
Variable turf_pointGrid : BBox -> float -> Circle -> result (list Coord).

Let grid_of := generateGrid turf_circle turf_bbox turf_pointGrid.

Lemma generateGrid_value center radius pointCount points :
  grid_of center radius pointCount = Ret points ->
  exists circle bbox grid,
    turf_circle center radius = Ret circle /\ turf_bbox circle = Ret bbox /\
    turf_pointGrid bbox (radius * 2 / sqrt pointCount) circle = Ret grid /\
    points = mapi (fun point index =>
                     mkGridPoint (point_id index) point (Some point) None None) grid.
Proof.
  unfold grid_of, generateGrid, bind. intros H.
  destruct (turf_circle center radius) as [circle|] eqn:Ec; [|discriminate H].
  destruct (turf_bbox circle) as [bbox|] eqn:Eb; [|discriminate H].
  destruct (turf_pointGrid bbox _ circle) as [grid|] eqn:Eg; [|discriminate H].
  injection H as <-. exists circle, bbox, grid. auto.
Qed.

(** X16: the points [generateGrid] returns have pairwise distinct ids,
    point [i] being ["point-i"]; each has its coordinates as
    [originalCoordinates] and no [travelTime]. *)
Theorem generateGrid_points center radius pointCount points :
  grid_of center radius pointCount = Ret points ->
  NoDup (map id points) /\
  (forall i p, nth_error points i = Some p ->
     id p = point_id i /\
     originalCoordinates p = Some (coordinates p) /\
     travelTime p = None /\ animationProgress p = None).
Proof.
  intros H. destruct (generateGrid_value _ _ _ _ H) as (circle & bbox & grid & _ & _ & _ & ->).
  split.
  - unfold mapi. rewrite mapi_from_ids.
    apply Injective_map_NoDup; [exact point_id_inj | apply seq_NoDup].
  - intros i p Hp. rewrite mapi_nth in Hp.
    destruct (nth_error grid i) as [c|]; [|discriminate Hp].
    injection Hp as <-. simpl. auto.
Qed.

Variable M : MathLib.
Variable turf_distance : Coord -> Coord -> float.

(** X17: [updateGrid] does not fail past the grid: once the three calls
    that build the grid have returned, [distortPoints] finds a row of the
    matrix for every point and returns one distorted point per point, under
    the same id, and, the distances of the geometry library being at least
    zero, with a travel time that is a number at least zero. *)
Theorem updateGrid_returns center radius gridDensity distortionFactor circle bbox grid :
  turf_circle center radius = Ret circle ->
  turf_bbox circle = Ret bbox ->
  turf_pointGrid bbox (radius * 2 / sqrt gridDensity) circle = Ret grid ->
  (forall a b, In a grid -> In b grid -> (0 <=? turf_distance a b) = true) ->
  (Z.of_nat (length grid) < 2 ^ 32)%Z ->
  exists points distorted,
    updateGrid turf_circle turf_bbox turf_pointGrid M turf_distance
               center radius gridDensity distortionFactor = Ret (points, distorted) /\
    map coordinates points = grid /\
    length distorted = length points /\
    map id distorted = map id points /\
    Forall (fun d => exists t, travelTime d = Some t /\ (0 <=? t) = true) distorted.
Proof.
  intros Hc Hb Hg Hpos Hmax.
  unfold updateGrid, generateGrid, bind. rewrite Hc, Hb, Hg.
  set (points := mapi _ grid).
  assert (map coordinates points = grid) as Hcoords.
  { subst points. apply nth_error_ext. intros i. rewrite nth_error_map, mapi_nth.
    destruct (nth_error grid i); reflexivity. }
  assert (length points = length grid) as Hlen by (subst points; apply mapi_length).
  set (timeMatrix := generateTimeMatrix turf_distance points).
  assert (length points <= length timeMatrix)%nat as Hrows
    by (subst timeMatrix; unfold generateTimeMatrix; rewrite length_map; lia).
  destruct (distortPoints_returns M points timeMatrix (Some distortionFactor) Hrows)
    as (distorted & Hd & Hl & Hnth).
  rewrite Hd. exists points, distorted. split; [reflexivity|].
  split; [exact Hcoords|]. split; [exact Hl|].
  split.
  - exact (proj1 (distortPoints_fields M _ _ _ _ Hd)).
  - apply Forall_forall. intros d Hin. apply In_nth_error in Hin. destruct Hin as [i Hi].
    destruct (nth_error points i) as [p|] eqn:Hp;
      [|apply nth_error_None in Hp;
        assert (i < length distorted)%nat by (apply nth_error_Some; congruence); lia].
    destruct (Hnth i p Hp) as (row & c & d' & Hr & Hc0 & Hd' & Hf).
    rewrite Hi in Hd'. injection Hd' as <-.
    rewrite (distortPoint_returns M _ _ _ _ _ _ _ Hr Hc0) in Hf. injection Hf as <-.
    eexists. split; [reflexivity|]. unfold avgTime.
    destruct (float_of_nat_finite (length points)) as (m & e & Hn);
      [destruct points; [destruct i; discriminate Hp | simpl; lia] | lia |].
    apply (div_nonneg _ _ m e Hn). apply sum_nonneg.
    subst timeMatrix. unfold generateTimeMatrix in Hr. rewrite nth_error_map, Hp in Hr.
    injection Hr as <-. apply Forall_forall. intros x Hx.
    apply in_map_iff in Hx. destruct Hx as (q & <- & Hq).
    apply minutes_nonneg. apply Hpos; rewrite <- Hcoords; apply in_map;
      [exact (nth_error_In _ _ Hp) | exact Hq].
Qed.

End GridFacts.

Lemma generateGrid_points_witness :
  exists points,
    generateGrid three_circle three_bbox three_pointGrid (0, 0) 1 4 = Ret points /\
    map id points = ["point-0"; "point-1"; "point-2"]%string /\
    NoDup (map id points).
Proof.
  eexists. split; [reflexivity|]. split; [reflexivity|].
  exact (proj1 (generateGrid_points _ _ three_circle three_bbox three_pointGrid
                  (0, 0) 1 4 _ eq_refl)).
Defined.

Lemma updateGrid_returns_witness :
  exists points distorted,
    updateGrid three_circle three_bbox three_pointGrid Math_eastward planar_distance
               (0, 0) 1 4 1 = Ret (points, distorted) /\
    map coordinates points = [(0, 0); (0 + 1 * 2 / sqrt 4, 0); (0, 0 + 1 * 2 / sqrt 4)] /\
    length distorted = length points /\
    map id distorted = map id points /\
    Forall (fun d => exists t, travelTime d = Some t /\ (0 <=? t) = true) distorted.
Proof.
  apply (updateGrid_returns _ _ three_circle three_bbox three_pointGrid
           Math_eastward planar_distance (0, 0) 1 4 1 (0, 0) (0, 0)
           [(0, 0); (0 + 1 * 2 / sqrt 4, 0); (0, 0 + 1 * 2 / sqrt 4)]
           eq_refl eq_refl eq_refl).
  - intros a b [<-|[<-|[<-|[]]]] [<-|[<-|[<-|[]]]]; reflexivity.
  - reflexivity.
Defined.

(** *** Positions on screen *)

(** X18: the red circle starts on the blue one and stays there when
    nothing moved.  At [animationProgress = 0], [getCurrentPosition] returns
    the original position, provided the two differences are finite; and when
    the distorted position is the original one it returns that position
    under every finite [animationProgress].  (Equality of numbers: a zero may
    change sign.) *)
Theorem getCurrentPosition_at_rest :
  (forall original distorted,
     is_finite (fst distorted - fst original) = true ->
     is_finite (snd distorted - snd original) = true ->
     (fst (getCurrentPosition 0 original distorted) =? fst original) = true /\
     (snd (getCurrentPosition 0 original distorted) =? snd original) = true) /\
  (forall progress original,
     is_finite progress = true ->
     is_finite (fst original) = true -> is_finite (snd original) = true ->
     (fst (getCurrentPosition progress original original) =? fst original) = true /\
     (snd (getCurrentPosition progress original original) =? snd original) = true).
Proof.
  split.
  - intros original distorted Hx Hy. unfold getCurrentPosition. cbn [fst snd].
    split; apply add_zero_r;
      try (apply (sub_finite_l _ _ Hx)); try (apply (sub_finite_l _ _ Hy));
      apply mul_zero_r; try assumption; reflexivity.
  - intros progress original Hp Hx Hy. unfold getCurrentPosition. cbn [fst snd].
    rewrite (sub_diag _ Hx), (sub_diag _ Hy).
    split; apply add_zero_r; try (apply is_finite_not_nan; assumption);
      apply mul_zero_l; try assumption; reflexivity.
Qed.

End PipelineFacts.

(** ** The animation *)

Module AnimationFacts.

Import JS Animation FloatFacts FloatArith FloatMore.
Local Open Scope float_scope.

(** One frame: the progress stays between [0] and [1], does not go back,
    and an animation that stops has reached [1]. *)
Lemma frame_bounded deltaTime st :
  (0 <=? deltaTime) = true ->
  (0 <=? animationProgress st) = true -> (animationProgress st <=? 1) = true ->
  (0 <=? animationProgress (frame deltaTime st)) = true /\
  (animationProgress (frame deltaTime st) <=? 1) = true /\
  (animationProgress st <=? animationProgress (frame deltaTime st)) = true /\
  (isAnimating st = true -> isAnimating (frame deltaTime st) = false ->
   animationProgress (frame deltaTime st) = 1).
Proof.
  intros Hdt H0 H1. unfold frame.
  destruct (isAnimating st) eqn:Ea.
  - assert ((0 <=? deltaTime * 0.001) = true) as Hy
      by (eapply mul_nonneg; [reflexivity | exact Hdt]).
    destruct (add_ge _ _ H0 Hy) as [Hprev _].
    set (next := animationProgress st + deltaTime * 0.001) in *.
    destruct (1 <=? next) eqn:E1; cbn [animationProgress isAnimating].
    + repeat split; try reflexivity; try exact H1.
    + pose proof (leb_not_nan _ _ Hprev) as [_ Hn].
      repeat split.
      * exact (leb_trans _ _ _ H0 Hprev).
      * apply ltb_leb. apply leb_false_ltb; [reflexivity | exact Hn | exact E1].
      * exact Hprev.
      * intros _ H. discriminate H.
  - repeat split; try assumption.
    + apply leb_refl. exact (proj2 (leb_not_nan _ _ H0)).
    + intros H. discriminate H.
Qed.

Lemma step_bounded st ev :
  forward ev ->
  (0 <=? animationProgress st) = true /\ (animationProgress st <=? 1) = true ->
  (0 <=? animationProgress (step st ev)) = true /\
  (animationProgress (step st ev) <=? 1) = true.
Proof.
  intros Hev [H0 H1]. destruct ev as [deltaTime| |]; simpl in *.
  - destruct (frame_bounded deltaTime st Hev H0 H1) as (A & B & _). split; assumption.
  - unfold toggle. destruct (showDistortion st); simpl; split; auto.
  - split; reflexivity.
Qed.

Lemma run_bounded events :
  Forall forward events ->
  forall st,
  (0 <=? animationProgress st) = true /\ (animationProgress st <=? 1) = true ->
  (0 <=? animationProgress (fold_left step events st)) = true /\
  (animationProgress (fold_left step events st) <=? 1) = true.
Proof.
  induction 1 as [|ev events Hev _ IH]; intros st Hst; simpl; [exact Hst|].
  apply IH. apply step_bounded; assumption.
Qed.

(** X19: the animation progress is always a number between [0] and [1].
    Whatever sequence of frames (of a time difference at least zero), clicks
    on "Show/Hide Distortion" and clicks on "Replay Animation" the component
    has gone through, [animationProgress] is between [0] and [1]; the next
    frame does not move it back, does not take it past [1], and if that frame
    ends the animation, the progress is exactly [1]. *)
Theorem animation_progress_bounded events :
  Forall forward events ->
  (0 <=? animationProgress (run events)) = true /\
  (animationProgress (run events) <=? 1) = true /\
  forall deltaTime, (0 <=? deltaTime) = true ->
    (animationProgress (run events)
       <=? animationProgress (frame deltaTime (run events))) = true /\
    (animationProgress (frame deltaTime (run events)) <=? 1) = true /\
    (isAnimating (run events) = true ->
     isAnimating (frame deltaTime (run events)) = false ->
     animationProgress (frame deltaTime (run events)) = 1).
Proof.
  intros Hev.
  destruct (run_bounded events Hev initial (conj eq_refl eq_refl)) as [H0 H1].
  fold (run events) in H0, H1.
  split; [exact H0|]. split; [exact H1|].
  intros deltaTime Hdt.
  destruct (frame_bounded deltaTime (run events) Hdt H0 H1) as (_ & B & C & D).
  auto.
Qed.

Lemma animation_progress_bounded_witness :
  run [Replay; Frame 400; Frame 700] = mkState true 1 false /\
  map (fun events => animationProgress (run events))
      [[Replay]; [Replay; Frame 400]; [Toggle; Toggle; Frame 16; Frame 17]]
    = [0; 0 + 400 * 0.001; 0 + 16 * 0.001 + 17 * 0.001] /\
  (0 <=? animationProgress (run [Replay; Frame 400])) = true /\
  (animationProgress (run [Replay; Frame 400]) <=? 1) = true.
Proof.
  split; [reflexivity|]. split; [reflexivity|].
  destruct (animation_progress_bounded [Replay; Frame 400]) as (H0 & H1 & _).
  - repeat constructor.
  - split; assumption.
Defined.

End AnimationFacts.

(** ** The layers *)

Module LayerFacts.

Import JS Builtins Grid Statistical Layers Scenarios Samples.
Import FloatFacts FloatArith FloatMore ArrayFacts IterationFacts.
Local Open Scope float_scope.

(** *** [IsochroneLayer] *)

(** The filter of the layer looks at the twin of each point. *)
Lemma within_filter interval (full : list GridPoint) :
  forall (points tail : list GridPoint) k,
  (length points <= length tail)%nat ->
  (forall j, nth_error tail j = nth_error full (k + j)) ->
  filteriM_from (fun _ i => let* distorted := element full i in
                            Ret (time_of distorted <=? interval)) k points
  = Ret (within interval points tail).
Proof.
  induction points as [|p points IH]; intros tail k Hlen Htail; [reflexivity|].
  destruct tail as [|d tail]; [simpl in Hlen; lia|].
  cbn [filteriM_from within].
  pose proof (Htail 0%nat) as H0. rewrite Nat.add_0_r in H0. simpl in H0.
  symmetry in H0. apply element_Ret in H0. rewrite H0. cbn [bind].
  rewrite (IH tail (S k)).
  - cbn [bind]. destruct (time_of d <=? interval); reflexivity.
  - simpl in Hlen. lia.
  - intros j. specialize (Htail (S j)). rewrite Nat.add_succ_r in Htail. exact Htail.
Qed.

Lemma mapM_Forall2 {A B : Type} (P : A -> B -> Prop) (f : A -> result B) (l : list A) :
  (forall a, In a l -> exists b, f a = Ret b /\ P a b) ->
  exists bs, mapM f l = Ret bs /\ Forall2 P l bs.
Proof.
  induction l as [|a l IH]; intros H; simpl.
  - exists []. split; [reflexivity | constructor].
  - destruct (H a (or_introl eq_refl)) as (b & -> & Hb).
    destruct IH as (bs & -> & Hbs); [intros a' Ha'; apply H; right; exact Ha'|].
    simpl. exists (b :: bs). split; [reflexivity | constructor; assumption].
Qed.

Lemma filter_Boolean_length {A : Type} (l : list (option A)) :
  (length (filter_Boolean l) <= length l)%nat.
Proof. induction l as [|[a|] l IH]; simpl; lia. Qed.

Section IsochroneFacts.

Variable Buffered : Type.
Variable turf_buffer : list Coord -> result (option Buffered).
Variable turf_coordAll : Buffered -> result (list Coord).

Let the_zone := zone turf_buffer turf_coordAll.

(** What the callback returns for an interval. *)
Lemma zone_value points distortedPoints t :
  (length points <= length distortedPoints)%nat ->
  exists z,
    the_zone points distortedPoints t = Ret z /\
    match z with
    | Some zn => interval zn = t /\ (3 <= length (within t points distortedPoints))%nat
    | None => True
    end.
Proof.
  intros Hlen. unfold the_zone, zone, filteriM.
  rewrite (within_filter t distortedPoints points distortedPoints 0 Hlen)
    by reflexivity.
  cbn [bind]. destruct (Nat.ltb_spec (length (within t points distortedPoints)) 3) as [H|H].
  - exists None. split; [reflexivity | exact I].
  - unfold zone_body, try_catch, bind.
    destruct (turf_buffer _) as [[buffer|]|]; try (exists None; split; [reflexivity | exact I]).
    destruct (turf_coordAll buffer) as [coords|];
      [|exists None; split; [reflexivity | exact I]].
    eexists. split; [reflexivity|]. simpl. split; [reflexivity | exact H].
Qed.

(** X20: the isochrone layer never shows more than five zones, takes them
    in the order of the intervals 5, 10, 15, 20, 25, and a zone is there only
    if at least three points have a distorted twin within its interval.  The
    layer returns whenever every point has a distorted twin, whatever the
    geometry library does, and throws when it has fewer twins than points. *)
Theorem isochroneData_zones points distortedPoints :
  ((length points <= length distortedPoints)%nat ->
   exists results zones,
     isochroneData turf_buffer turf_coordAll points distortedPoints = Ret zones /\
     zones = filter_Boolean results /\
     (length zones <= 5)%nat /\
     Forall2 (fun t r =>
                match r with
                | Some zn =>
                    interval zn = t /\ (3 <= length (within t points distortedPoints))%nat
                | None => True
                end)
             timeIntervals results) /\
  ((length distortedPoints < length points)%nat ->
   isochroneData turf_buffer turf_coordAll points distortedPoints = Throw).
Proof.
  split.
  - intros Hlen. unfold isochroneData.
    match goal with |- context [Forall2 ?P timeIntervals _] =>
      destruct (mapM_Forall2 P (the_zone points distortedPoints) timeIntervals)
        as (results & Hres & Hall) end.
    { intros t _. apply zone_value. exact Hlen. }
    unfold the_zone in Hres. rewrite Hres. cbn [bind].
    exists results, (filter_Boolean results).
    split; [reflexivity|]. split; [reflexivity|]. split; [|exact Hall].
    apply Forall2_length in Hall. simpl in Hall.
    pose proof (filter_Boolean_length results). lia.
  - intros Hlen. unfold isochroneData, timeIntervals. cbn [mapM].
    replace (zone turf_buffer turf_coordAll points distortedPoints 5)
      with (@Throw (option IsochroneZone)); [reflexivity|].
    symmetry. unfold zone, filteriM.
    destruct (nth_error points (length distortedPoints)) as [p|] eqn:Hp;
      [|apply nth_error_None in Hp; lia].
    rewrite (filteriM_from_Throw _ points 0 (length distortedPoints) p Hp); [reflexivity|].
    simpl. replace (element distortedPoints (length distortedPoints))
      with (@Throw GridPoint); [reflexivity|].
    symmetry. apply element_Throw. lia.
Qed.

End IsochroneFacts.

Lemma isochroneData_zones_witness :
  isochroneData unit_buffer_fc unit_coordAll samples_5_15_25 samples_5_15_25
    = Ret [mkZone 25 [(0, 0); (0, 1); (1, 0)]] /\
  exists results zones,
    isochroneData unit_buffer_fc unit_coordAll samples_5_15_25 samples_5_15_25 = Ret zones /\
    zones = filter_Boolean results /\
    (length zones <= 5)%nat /\
    Forall2 (fun t r =>
               match r with
               | Some zn =>
                   interval zn = t /\
                   (3 <= length (within t samples_5_15_25 samples_5_15_25))%nat
               | None => True
               end)
            timeIntervals results.
Proof.
  split; [reflexivity|].
  exact (proj1 (isochroneData_zones _ unit_buffer_fc unit_coordAll
                  samples_5_15_25 samples_5_15_25) (le_n 3)).
Defined.

(** *** [HeatmapLayer] *)

(** The hue of a normalised time that is zero is [240]. *)
Lemma hue_at_zero n : (n =? 0) = true -> 240 - n * 240 = 240.
Proof.
  intros H. apply Prim2SF_inj. rewrite sub_spec, mul_spec.
  rewrite eqb_spec in H. change (Prim2SF 0) with (S754_zero false) in H.
  destruct (Prim2SF n) as [s|s| |s m e]; try discriminate H.
  - destruct s; reflexivity.
  - destruct s; discriminate H.
  - destruct s; discriminate H.
Qed.

Section HeatmapFacts.

Variable Number_toString : float -> string.

(** X21: in the heat map the shortest travel time is drawn at hue [240] and
    the longest at hue [0].  When every point has a distorted twin and the
    spread [max - min] of the travel times is finite and not zero, the layer
    returns one circle per point, at the position of the point; the circle of
    a point whose twin has the least travel time has colour
    [hsl(240, 70%, 50%)], and that of a point whose twin has the greatest
    travel time has colour [hsl(0, 70%, 50%)]. *)
Theorem heatmapData_hues points distortedPoints :
  (length points <= length distortedPoints)%nat ->
  finite_nonzero (Math_max (map time_of distortedPoints)
                  - Math_min (map time_of distortedPoints)) = true ->
  exists circles,
    heatmapData Number_toString points distortedPoints = Ret circles /\
    length circles = length points /\
    forall i p d,
      nth_error points i = Some p -> nth_error distortedPoints i = Some d ->
      exists c,
        nth_error circles i = Some c /\
        heat_center c = coordinates p /\
        (time_of d = Math_min (map time_of distortedPoints) ->
         color c = hsl Number_toString 240) /\
        (time_of d = Math_max (map time_of distortedPoints) ->
         color c = hsl Number_toString 0).
Proof.
  intros Hlen Hspread. unfold heatmapData, mapiM.
  set (maxTime := Math_max (map time_of distortedPoints)) in *.
  set (minTime := Math_min (map time_of distortedPoints)) in *.
  match goal with |- context [mapiM_from ?f 0 points] =>
    destruct (mapiM_from_total f points 0) as [circles Hc] end.
  { intros i p Hp.
    assert (i < length points)%nat as Hi by (apply nth_error_Some; congruence).
    destruct (nth_error distortedPoints i) as [d|] eqn:Ed;
      [|apply nth_error_None in Ed; lia].
    apply element_Ret in Ed. simpl. rewrite Ed. simpl. eexists; reflexivity. }
  exists circles. split; [exact Hc|].
  destruct (mapiM_from_Ret _ _ _ _ Hc) as [Hl Hnth]. split; [exact Hl|].
  intros i p d Hp Hd. destruct (Hnth i p Hp) as (c & Hci & Hf).
  exists c. split; [exact Hci|]. simpl in Hf.
  apply element_Ret in Hd. rewrite Hd in Hf. simpl in Hf. injection Hf as <-.
  simpl. split; [reflexivity|]. split.
  - intros ->. f_equal. apply hue_at_zero.
    apply MetricFacts.intensity_at_min. exact Hspread.
  - intros ->. f_equal.
    rewrite (MetricFacts.intensity_at_max maxTime minTime Hspread), mul_1_l. reflexivity.
Qed.

End HeatmapFacts.

Lemma heatmapData_hues_witness :
  exists circles,
    heatmapData two_hues samples_5_15_25 samples_5_15_25 = Ret circles /\
    map color circles = ["hsl(240, 70%, 50%)"; "hsl(?, 70%, 50%)"; "hsl(0, 70%, 50%)"]%string
    /\ length circles = 3%nat.
Proof.
  destruct (heatmapData_hues two_hues samples_5_15_25 samples_5_15_25 (le_n 3) eq_refl)
    as (circles & Hc & Hl & _).
  exists circles. split; [exact Hc|]. split; [|exact Hl].
  vm_compute in Hc. injection Hc as <-. reflexivity.
Defined.

End LayerFacts.

(** ** Rounding does not go above a binary64 number

    The counterpart of the lower bound: rounding a value that is at most a
    binary64 number gives at most that number.  It is read off the rounding
    algorithm as the lower bound is, with one more ingredient: the location
    ([loc_Exact] or not) the algorithm carries along says whether the value
    is above the mantissa it has been truncated to. *)

Module RoundingBounds.

Import JS Signs FloatFacts FloatArith FloatMore.
Local Open Scope float_scope.

Section Upper.

Local Open Scope Z_scope.

Lemma loc_of_record_of_loc m l : loc_of_shr_record (shr_record_of_loc m l) = l.
Proof. destruct l as [|[]]; reflexivity. Qed.

(** Shifting an exact record by one bit keeps it exact when the bit is
    zero. *)
Lemma shr_1_even q :
  0 <= q ->
  shr_1 {| shr_m := 2 * q; shr_r := false; shr_s := false |}
  = {| shr_m := q; shr_r := false; shr_s := false |}.
Proof. intros Hq. destruct q as [|p|p]; try lia; reflexivity. Qed.

Lemma iter_shr_even n : forall q,
  0 <= q ->
  Nat.iter n shr_1 {| shr_m := 2 ^ Z.of_nat n * q; shr_r := false; shr_s := false |}
  = {| shr_m := q; shr_r := false; shr_s := false |}.
Proof.
  induction n as [|n IH]; intros q Hq.
  - unfold Nat.iter. cbn [nat_rect]. change (Z.of_nat 0) with 0.
    rewrite Z.pow_0_r, Z.mul_1_l. reflexivity.
  - change (Nat.iter (S n) shr_1 ?x) with (shr_1 (Nat.iter n shr_1 x)).
    rewrite Nat2Z.inj_succ, Z.pow_succ_r by lia.
    replace (2 * 2 ^ Z.of_nat n * q) with (2 ^ Z.of_nat n * (2 * q)) by lia.
    rewrite IH by lia. apply shr_1_even. exact Hq.
Qed.

(** A mantissa that is a multiple of the power of two it is shifted by,
    with an exact location, is truncated exactly. *)
Lemma shr_fexp_exact m e :
  0 <= m ->
  let k := Z.max (fexp prec emax (Zdigits2 m + e) - e) 0 in
  m mod 2 ^ k = 0 ->
  loc_of_shr_record (fst (shr_fexp prec emax m e loc_Exact)) = loc_Exact.
Proof.
  intros Hm k Hmod. unfold shr_fexp, shr. subst k.
  destruct (fexp prec emax (Zdigits2 m + e) - e) as [|p|p]; simpl fst; try reflexivity.
  rewrite Z.max_l in Hmod by lia.
  rewrite iter_pos_nat. simpl shr_record_of_loc.
  assert (m = 2 ^ Z.of_nat (Pos.to_nat p) * (m / 2 ^ Zpos p)) as Em.
  { rewrite positive_nat_Z. apply Z.div_exact in Hmod; [exact Hmod|].
    apply Z.pow_nonzero; lia. }
  rewrite Em at 1. rewrite iter_shr_even; [reflexivity|].
  apply Z.div_pos; [exact Hm | apply Z.pow_pos_nonneg; lia].
Qed.

Lemma pow2_split a b : 0 <= a -> 0 <= b -> 2 ^ (a + b) = 2 ^ a * 2 ^ b.
Proof. intros. apply Z.pow_add_r; assumption. Qed.

(** Rounding a value that is at most the binary64 number [(mx, ex)], and
    below it when it is not exactly the mantissa it is given as, does not go
    above [(mx, ex)]. *)
Lemma binary_round_aux_le mx ex M e l :
  bounded prec emax mx ex = true ->
  0 <= M -> e <= ex ->
  M <= Zpos mx * 2 ^ (ex - e) ->
  (l <> loc_Exact -> M < Zpos mx * 2 ^ (ex - e)) ->
  SFleb (binary_round_aux prec emax false M e l) (S754_finite false mx ex) = true.
Proof.
  intros Hb HM He HX Hl.
  unfold bounded, canonical_mantissa in Hb. apply andb_prop in Hb.
  destruct Hb as [Hc Hmax]. apply Z.eqb_eq in Hc. apply Z.leb_le in Hmax.
  rewrite fexp_eq in Hc. change (emax - prec) with 971 in Hmax.
  pose proof (digits2_bounds mx) as Hdx.
  set (dx := Zpos (digits2_pos mx)) in *.
  assert (1 <= dx) as Hdx1 by (subst dx; lia).
  (* the first shift *)
  unfold binary_round_aux.
  pose proof (shr_fexp_exact M e HM) as Hexact.
  destruct (shr_fexp_value M e l HM) as [H1m H1e].
  assert (Zdigits2 M + e <= dx + ex) as HdM.
  { assert (Zdigits2 M <= dx + ex - e); [|lia].
    apply Zdigits2_le; [|lia]. split; [exact HM|].
    apply Z.le_lt_trans with (Zpos mx * 2 ^ (ex - e)); [exact HX|].
    replace (dx + ex - e) with (dx + (ex - e)) by lia.
    rewrite pow2_split by lia.
    apply Z.mul_lt_mono_pos_r; [apply Z.pow_pos_nonneg; lia | apply Hdx]. }
  rewrite fexp_eq in H1m, H1e, Hexact.
  set (k1 := Z.max (Z.max (Zdigits2 M + e - 53) (-1074) - e) 0) in *.
  assert (0 <= k1 /\ e + k1 <= ex) as [Hk1 He1] by (subst k1; lia).
  clearbody k1.
  assert (loc_of_shr_record (fst (shr_fexp prec emax M e l)) <> loc_Exact ->
          M / 2 ^ k1 < Zpos mx * 2 ^ (ex - (e + k1))) as Hq1.
  { intros Hloc. assert (0 < 2 ^ k1) as Hp by (apply Z.pow_pos_nonneg; lia).
    apply Z.div_lt_upper_bound; [exact Hp|].
    assert (Zpos mx * 2 ^ (ex - e) = 2 ^ k1 * (Zpos mx * 2 ^ (ex - (e + k1)))) as EX.
    { replace (ex - e) with (k1 + (ex - (e + k1))) by lia. rewrite pow2_split by lia. lia. }
    rewrite <- EX.
    destruct l as [|c]; [|apply Hl; discriminate].
    destruct (Z.eq_dec (M mod 2 ^ k1) 0) as [E0|E0]; [elim Hloc; apply Hexact; exact E0|].
    destruct (Z.eq_dec M (Zpos mx * 2 ^ (ex - e))) as [EM|EM]; [|lia].
    elim E0. rewrite EM, EX, Z.mul_comm. apply Z.mod_mul. lia. }
  assert (M / 2 ^ k1 <= Zpos mx * 2 ^ (ex - (e + k1))) as Hq1'.
  { assert (0 < 2 ^ k1) as Hp by (apply Z.pow_pos_nonneg; lia).
    apply Z.div_le_upper_bound; [exact Hp|].
    replace (2 ^ k1 * (Zpos mx * 2 ^ (ex - (e + k1)))) with (Zpos mx * 2 ^ (ex - e)); [exact HX|].
    replace (ex - e) with (k1 + (ex - (e + k1))) by lia. rewrite pow2_split by lia. lia. }
  assert (0 <= M / 2 ^ k1) as Hq0 by (apply Z.div_pos; [exact HM | apply Z.pow_pos_nonneg; lia]).
  clear Hexact HdM.
  destruct (shr_fexp prec emax M e l) as [mrs' e1].
  simpl fst in H1m, Hq1. simpl snd in H1e. subst e1. rewrite <- H1m in Hq1, Hq1', Hq0.
  clear H1m HX Hl HM.
  set (q := shr_m mrs') in *.
  set (e1 := e + k1) in *.
  set (X1 := Zpos mx * 2 ^ (ex - e1)) in *.
  (* rounding *)
  assert (0 <= round_nearest_even q (loc_of_shr_record mrs') <= X1) as Hm1.
  { pose proof (round_nearest_even_bounds q (loc_of_shr_record mrs')) as Hr.
    split; [lia|].
    destruct (loc_of_shr_record mrs') as [|c] eqn:El; [simpl; exact Hq1'|].
    assert (q < X1) by (apply Hq1; discriminate). lia. }
  clear Hq1 Hq1' Hq0. clearbody q.
  set (m1 := round_nearest_even q (loc_of_shr_record mrs')) in *. clearbody m1.
  (* the second shift *)
  destruct (shr_fexp_value m1 e1 loc_Exact (proj1 Hm1)) as [H2m H2e].
  assert (Zdigits2 m1 + e1 <= dx + ex) as Hd1.
  { assert (Zdigits2 m1 <= dx + ex - e1); [|lia].
    apply Zdigits2_le; [|lia]. split; [lia|].
    apply Z.le_lt_trans with X1; [lia|]. subst X1.
    replace (dx + ex - e1) with (dx + (ex - e1)) by lia.
    rewrite pow2_split by lia.
    apply Z.mul_lt_mono_pos_r; [apply Z.pow_pos_nonneg; lia | apply Hdx]. }
  rewrite fexp_eq in H2m, H2e.
  set (k2 := Z.max (Z.max (Zdigits2 m1 + e1 - 53) (-1074) - e1) 0) in *.
  assert (0 <= k2 /\ e1 + k2 <= ex) as [Hk2 He2] by (subst k2; lia).
  clearbody k2.
  assert (0 <= m1 / 2 ^ k2 <= Zpos mx * 2 ^ (ex - (e1 + k2))) as Hm2.
  { assert (0 < 2 ^ k2) as Hp by (apply Z.pow_pos_nonneg; lia). split.
    - apply Z.div_pos; lia.
    - apply Z.div_le_upper_bound; [exact Hp|].
      replace (2 ^ k2 * (Zpos mx * 2 ^ (ex - (e1 + k2)))) with X1; [lia|].
      subst X1. replace (ex - e1) with (k2 + (ex - (e1 + k2))) by lia.
      rewrite pow2_split by lia. lia. }
  destruct (shr_fexp prec emax m1 e1 loc_Exact) as [mrs'' e2].
  simpl fst in H2m. simpl snd in H2e. subst e2. rewrite <- H2m in Hm2.
  clear H2m Hd1 Hm1.
  destruct (shr_m mrs'') as [|m2|m2]; [reflexivity | | lia].
  replace (e1 + k2 <=? emax - prec) with true
    by (symmetry; apply Z.leb_le; change (emax - prec) with 971; lia).
  unfold SFleb, SFcompare.
  change (Pos.compare_cont Eq m2 mx) with (Pos.compare m2 mx).
  destruct (Z.compare_spec (e1 + k2) ex) as [E|E|E]; [|reflexivity | lia].
  rewrite E, Z.sub_diag in Hm2. simpl in Hm2.
  destruct (Pos.compare_spec m2 mx) as [Em|Em|Em]; try reflexivity. lia.
Qed.

(** Of two positive binary64 numbers in order, the smaller has the smaller
    exponent, and the mantissas are in order once brought to the smaller
    exponent. *)
Lemma SFleb_scaled ma ea mb eb :
  bounded prec emax ma ea = true -> bounded prec emax mb eb = true ->
  SFleb (S754_finite false ma ea) (S754_finite false mb eb) = true ->
  ea <= eb /\ Zpos ma <= Zpos mb * 2 ^ (eb - ea) /\
  Zpos (digits2_pos ma) + ea <= Zpos (digits2_pos mb) + eb.
Proof.
  intros Ha Hb H.
  unfold bounded, canonical_mantissa in Ha, Hb.
  apply andb_prop in Ha, Hb. destruct Ha as [Ha _], Hb as [Hb _].
  apply Z.eqb_eq in Ha, Hb. rewrite fexp_eq in Ha, Hb.
  pose proof (digits2_bounds ma) as Hda. pose proof (digits2_bounds mb) as Hdb.
  set (da := Zpos (digits2_pos ma)) in *. set (db := Zpos (digits2_pos mb)) in *.
  assert (1 <= da /\ 1 <= db) as [Hda1 Hdb1] by (subst da db; lia).
  unfold SFleb, SFcompare in H.
  change (Pos.compare_cont Eq ma mb) with (Pos.compare ma mb) in H.
  destruct (Z.compare_spec ea eb) as [E|E|E]; [| |discriminate H].
  - subst eb. rewrite Z.sub_diag. simpl (2 ^ 0). rewrite Z.mul_1_r.
    assert (Zpos ma <= Zpos mb) as Hle
      by (destruct (Pos.compare_spec ma mb); try discriminate H; lia).
    split; [lia|]. split; [exact Hle|].
    assert (da <= db); [|lia]. subst da. apply digits2_le. lia.
  - assert (db = 53 /\ da <= 53) as [Edb Eda] by lia.
    split; [lia|]. split; [|lia].
    apply Z.le_trans with (2 ^ 53).
    + apply Z.lt_le_incl. apply Z.lt_le_trans with (2 ^ da); [apply Hda|].
      apply Z.pow_le_mono_r; lia.
    + rewrite Edb in Hdb. change (2 ^ 53) with (2 ^ 52 * 2 ^ 1).
      apply Z.mul_le_mono_nonneg; try lia.
      apply Z.pow_le_mono_r; lia.
Qed.

Lemma new_location_exact nb r : new_location nb r <> loc_Exact -> r <> 0.
Proof.
  unfold new_location, new_location_even, new_location_odd. intros H ->.
  destruct (Z.even nb); simpl in H; apply H; reflexivity.
Qed.

(** The quotient of a number at least zero by a positive finite number that
    is at least as large is at most one. *)
Lemma SFdiv_le_1 x mb eb :
  valid_binary x = true -> bounded prec emax mb eb = true ->
  nonneg_sf x -> SFleb x (S754_finite false mb eb) = true ->
  SFleb (SF64div x (S754_finite false mb eb)) (S754_finite false 4503599627370496 (-52))
    = true.
Proof.
  intros Vx Vb Hx Hle.
  destruct x as [s|s| |s ma ea]; simpl in Hx; try contradiction.
  - destruct s; reflexivity.
  - subst s. discriminate Hle.
  - subst s. simpl in Vx.
    destruct (SFleb_scaled ma ea mb eb Vx Vb Hle) as (Hea & Hval & Hdig).
    unfold SF64div, SFdiv, SFdiv_core_binary. cbn [xorb].
    change IntDef.Z.min with Z.min. change IntDef.Z.shiftl with Z.shiftl.
    change IntDef.Z.div_eucl with Z.div_eucl.
    rewrite !Zdigits2_pos, fexp_eq.
    set (da := Zpos (digits2_pos ma)) in *. set (db := Zpos (digits2_pos mb)) in *.
    set (e' := Z.min (Z.max (da + ea - (db + eb) - 53) (-1074)) (ea - eb)).
    assert (e' <= -53 /\ 0 <= ea - eb - e') as [He' Hs] by (subst e'; lia).
    clearbody e'.
    set (m' := match ea - eb - e' with
               | 0 => Zpos ma | Zpos _ => Z.shiftl (Zpos ma) (ea - eb - e') | Zneg _ => 0
               end).
    assert (m' = Zpos ma * 2 ^ (ea - eb - e')) as Em'.
    { subst m'. destruct (ea - eb - e') as [|p|p] eqn:Es; try lia.
      rewrite Z.shiftl_mul_pow2 by lia. reflexivity. }
    clearbody m'.
    pose proof (Z.div_mod m' (Zpos mb) ltac:(lia)) as Hdm.
    pose proof (Z.mod_pos_bound m' (Zpos mb) ltac:(lia)) as Hr.
    unfold Z.div, Z.modulo in Hdm, Hr.
    destruct (Z.div_eucl m' (Zpos mb)) as [q r].
    assert (m' <= Zpos mb * 2 ^ (- e')) as Hm'.
    { rewrite Em'. replace (- e') with ((eb - ea) + (ea - eb - e')) by lia.
      rewrite pow2_split by lia. rewrite Z.mul_assoc.
      apply Z.mul_le_mono_nonneg_r; [apply Z.pow_nonneg; lia | exact Hval]. }
    cbv beta iota in Hdm, Hr.
    assert (0 < 2 ^ (- e')) as Hp by (apply Z.pow_pos_nonneg; lia).
    assert (2 ^ (- e') = Zpos 4503599627370496 * 2 ^ (-52 - e')) as EP.
    { change (Zpos 4503599627370496) with (2 ^ 52).
      rewrite <- pow2_split by lia. f_equal. lia. }
    assert (0 <= q) as Hq0.
    { destruct (Z.le_gt_cases 0 q) as [H|H]; [exact H|]. exfalso.
      assert (Zpos mb * q <= Zpos mb * (-1)) by (apply Z.mul_le_mono_nonneg_l; lia).
      assert (0 <= m') by (rewrite Em'; apply Z.mul_nonneg_nonneg;
                           [lia | apply Z.pow_nonneg; lia]).
      lia. }
    assert (q <= 2 ^ (- e')) as Hq.
    { apply Z.mul_le_mono_pos_l with (Zpos mb); lia. }
    apply binary_round_aux_le; try reflexivity; try lia.
    intros Hloc. apply new_location_exact in Hloc.
    rewrite <- EP.
    apply Z.mul_lt_mono_pos_l with (Zpos mb); lia.
Qed.

End Upper.

Lemma div_le_1 a b m e :
  Prim2SF b = S754_finite false m e ->
  (0 <=? a) = true -> (a <=? b) = true -> (a / b <=? 1) = true.
Proof.
  intros Hb Ha Hab. rewrite leb_spec in Hab |- *. rewrite div_spec, Hb in *.
  change (Prim2SF 1) with (S754_finite false 4503599627370496 (-52)).
  apply SFdiv_le_1; try assumption.
  - apply Prim2SF_valid.
  - pose proof (Prim2SF_valid b) as V. rewrite Hb in V. exact V.
  - apply nonneg_spec. exact Ha.
Qed.

End RoundingBounds.

(** ** Centralities lie between zero and one *)

Module CentralityFacts.

Import JS Builtins Grid Statistical Scenarios Samples.
Import FloatFacts FloatArith FloatMore RoundingBounds ArrayFacts IterationFacts.
Import ConnectivityFacts.
Local Open Scope float_scope.

Lemma positive_not_below_zero x m e :
  Prim2SF x = S754_finite false m e -> (x <=? 0) = false /\ (x <=? neg_infinity) = false.
Proof. intros H. rewrite !leb_spec, H. split; reflexivity. Qed.

Lemma findCentralPoints_nth points th i p :
  nth_error points i = Some p ->
  exists c,
    nth_error (calculateConnectivity points th) i = Some c /\
    nth_error (findCentralPoints points th) i =
      Some (float_of_nat c / Math_max (map float_of_nat (calculateConnectivity points th))).
Proof.
  intros Hp. unfold findCentralPoints. rewrite mapi_nth, Hp. simpl.
  destruct (nth_error (calculateConnectivity points th) i) as [c|] eqn:Ec.
  - exists c. split; reflexivity.
  - apply nth_error_None in Ec. rewrite MetricFacts.calculateConnectivity_length in Ec.
    assert (i < length points)%nat by (apply nth_error_Some; congruence). lia.
Qed.

(** The largest connectivity, as a number, when some point is connected:
    it is the connectivity of some point, positive and finite, and no
    connectivity exceeds it. *)
Lemma maxConnectivity_positive points th :
  (Z.of_nat (length points) < 2 ^ 32)%Z ->
  Exists (fun c => c <> 0%nat) (calculateConnectivity points th) ->
  exists i c m e,
    nth_error (calculateConnectivity points th) i = Some c /\
    Math_max (map float_of_nat (calculateConnectivity points th)) = float_of_nat c /\
    Prim2SF (float_of_nat c) = S754_finite false m e /\
    Forall (fun x => (float_of_nat x <=? float_of_nat c) = true)
           (calculateConnectivity points th).
Proof.
  intros Hmax Hex.
  set (conn := calculateConnectivity points th) in *.
  assert (forall i c, nth_error conn i = Some c -> (Z.of_nat c < 2 ^ 32)%Z) as Hsmall.
  { intros i c Hc. apply connectivity_le in Hc. lia. }
  assert (Forall (fun x => is_nan x = false) (map float_of_nat conn)) as Hnn.
  { apply Forall_forall. intros x Hx. apply in_map_iff in Hx.
    destruct Hx as (c & <- & _). apply float_of_nat_not_nan. }
  destruct (MetricFacts.fold_max2_ge _ Hnn neg_infinity eq_refl) as (HMn & _ & Hall).
  fold (Math_max (map float_of_nat conn)) in HMn, Hall.
  set (mx := Math_max (map float_of_nat conn)) in *.
  apply Exists_exists in Hex. destruct Hex as (c0 & Hin0 & Hc0).
  destruct (In_nth_error _ _ Hin0) as [i0 Hi0].
  destruct (float_of_nat_finite c0 ltac:(lia) (Hsmall i0 c0 Hi0)) as (m0 & e0 & H0).
  assert ((float_of_nat c0 <=? mx) = true) as Hc0le.
  { rewrite Forall_forall in Hall. apply Hall. apply in_map. exact Hin0. }
  destruct (positive_not_below_zero _ _ _ H0) as [Hz Hi].
  destruct (AverageFacts.fold_max2_attained (map float_of_nat conn) neg_infinity)
    as [E|[E|E]]; fold (Math_max (map float_of_nat conn)) in E; fold mx in E.
  - rewrite E in Hc0le. congruence.
  - apply in_map_iff in E. destruct E as (c & Ec & Hin).
    destruct (In_nth_error _ _ Hin) as [i Hi'].
    assert (c <> 0%nat) as Hc.
    { intros ->. rewrite <- Ec in Hc0le. change (float_of_nat 0) with 0 in Hc0le. congruence. }
    destruct (float_of_nat_finite c ltac:(lia) (Hsmall i c Hi')) as (m & e & Hm).
    exists i, c, m, e. split; [exact Hi'|]. split; [symmetry; exact Ec|].
    split; [exact Hm|]. rewrite Ec.
    apply Forall_forall. intros x Hx. rewrite Forall_forall in Hall.
    apply Hall. apply in_map. exact Hx.
  - rewrite E in HMn. discriminate HMn.
Qed.

(** X22: as soon as one point is connected to another, every centrality
    [findCentralPoints] returns is a number between [0] and [1], and the
    point of greatest connectivity has centrality exactly [1]. *)
Theorem findCentralPoints_unit_interval points th :
  (Z.of_nat (length points) < 2 ^ 32)%Z ->
  Exists (fun c => c <> 0%nat) (calculateConnectivity points th) ->
  Forall (fun x => (0 <=? x) = true /\ (x <=? 1) = true) (findCentralPoints points th) /\
  Exists (fun x => x = 1) (findCentralPoints points th).
Proof.
  intros Hmax Hex.
  destruct (maxConnectivity_positive points th Hmax Hex) as (i & c & m & e & Hi & EM & Hm & Hall).
  split.
  - apply Forall_forall. intros x Hx. apply In_nth_error in Hx. destruct Hx as [j Hj].
    destruct (nth_error points j) as [p|] eqn:Hp.
    + destruct (findCentralPoints_nth points th j p Hp) as (cj & Hcj & Hxj).
      rewrite Hj in Hxj. injection Hxj as ->. rewrite EM.
      split.
      * apply (div_nonneg _ _ m e Hm). apply float_of_nat_nonneg.
      * apply (div_le_1 _ _ m e Hm); [apply float_of_nat_nonneg|].
        rewrite Forall_forall in Hall. apply Hall. exact (nth_error_In _ _ Hcj).
    + exfalso. apply nth_error_None in Hp.
      assert (j < length (findCentralPoints points th))%nat
        by (apply nth_error_Some; congruence).
      unfold findCentralPoints in H. rewrite mapi_length in H. lia.
  - apply Exists_exists.
    destruct (nth_error points i) as [p|] eqn:Hp.
    + destruct (findCentralPoints_nth points th i p Hp) as (ci & Hci & Hxi).
      rewrite Hi in Hci. injection Hci as <-.
      exists (float_of_nat c / Math_max (map float_of_nat (calculateConnectivity points th))).
      split; [exact (nth_error_In _ _ Hxi)|].
      rewrite EM. apply (div_diag _ false m e Hm).
    + exfalso. apply nth_error_None in Hp.
      assert (i < length (calculateConnectivity points th))%nat
        by (apply nth_error_Some; congruence).
      rewrite MetricFacts.calculateConnectivity_length in H. lia.
Qed.

Lemma findCentralPoints_unit_interval_witness :
  findCentralPoints samples_5_15_25 None = [0.5; 0.5; 1] /\
  Forall (fun x => (0 <=? x) = true /\ (x <=? 1) = true)
         (findCentralPoints samples_5_15_25 None) /\
  Exists (fun x => x = 1) (findCentralPoints samples_5_15_25 None).
Proof.
  split; [reflexivity|].
  apply (findCentralPoints_unit_interval samples_5_15_25 None).
  - reflexivity.
  - left. discriminate.
Defined.

End CentralityFacts.

(** ** Rounding keeps the order

    Two values in order round to two binary64 numbers in order.  The
    rounding algorithm truncates each mantissa to the exponent its number of
    digits prescribes and rounds on the two bits it kept of what it cut off;
    the proof follows it: when the two exponents differ a power of two lies
    between the values, and when they agree the truncated mantissas are in
    order, and so are the kept bits when the mantissas are equal. *)

Module RoundingMonotone.

Import JS Signs FloatFacts FloatArith FloatMore RoundingBounds.
Local Open Scope float_scope.

Section Mono.

Local Open Scope Z_scope.

(** *** What a shift keeps *)

Lemma shr_1_fields m r s :
  0 <= m ->
  shr_1 {| shr_m := m; shr_r := r; shr_s := s |}
  = {| shr_m := m / 2; shr_r := Z.odd m; shr_s := r || s |}.
Proof.
  intros Hm.
  pose proof (shr_1_div2 {| shr_m := m; shr_r := r; shr_s := s |} Hm) as Hd.
  simpl shr_m in Hd. rewrite <- Hd.
  destruct m as [|[p|p|]|p]; try lia; reflexivity.
Qed.

(** After [n + 1] shifts of an exact record: the mantissa is the quotient,
    the round bit is bit [n], and the sticky bit says whether the [n] bits
    below are all zero. *)
Lemma iter_shr_fields n W :
  0 <= W ->
  Nat.iter (S n) shr_1 {| shr_m := W; shr_r := false; shr_s := false |}
  = {| shr_m := W / 2 ^ (Z.of_nat n + 1);
       shr_r := Z.odd (W / 2 ^ Z.of_nat n);
       shr_s := negb (W mod 2 ^ Z.of_nat n =? 0) |}.
Proof.
  intros HW. induction n as [|n IH].
  - change (Nat.iter 1 shr_1 ?x) with (shr_1 x). rewrite shr_1_fields by exact HW.
    change (Z.of_nat 0) with 0. rewrite Z.pow_0_r, Z.div_1_r, Z.mod_1_r. reflexivity.
  - change (Nat.iter (S (S n)) shr_1 ?x) with (shr_1 (Nat.iter (S n) shr_1 x)).
    rewrite IH.
    assert (0 < 2 ^ Z.of_nat n) as Hp by (apply Z.pow_pos_nonneg; lia).
    rewrite shr_1_fields by (apply Z.div_pos; [exact HW | apply Z.pow_pos_nonneg; lia]).
    rewrite Nat2Z.inj_succ. unfold Z.succ.
    f_equal.
    + rewrite Z.div_div by lia. f_equal.
      rewrite (Z.pow_add_r 2 (Z.of_nat n + 1) 1) by lia. reflexivity.
    + rewrite (Z.pow_add_r 2 (Z.of_nat n) 1) by lia. change (2 ^ 1) with 2.
      rewrite Z.rem_mul_r by lia. rewrite Zmod_odd.
      pose proof (Z.mod_pos_bound W (2 ^ Z.of_nat n) Hp) as Hb.
      destruct (Z.odd (W / 2 ^ Z.of_nat n)); simpl orb.
      * symmetry. apply negb_true_iff. apply Z.eqb_neq. lia.
      * rewrite Z.mul_0_r, Z.add_0_r. reflexivity.
Qed.

(** What [round_nearest_even] adds, from the two bits. *)
Lemma round_nearest_even_bits q mrs :
  round_nearest_even q (loc_of_shr_record mrs)
  = q + (if shr_r mrs && (shr_s mrs || Z.odd q) then 1 else 0).
Proof.
  destruct mrs as [m r s]. unfold round_nearest_even, loc_of_shr_record. simpl.
  change IntDef.Z.even with Z.even.
  destruct r, s; simpl; try lia.
  rewrite <- Z.negb_odd. destruct (Z.odd q); simpl; lia.
Qed.

(** The record [shr_fexp] returns, as iterated shifts. *)
Lemma shr_fexp_iter m e l :
  fst (shr_fexp prec emax m e l)
  = Nat.iter (Z.to_nat (fexp prec emax (Zdigits2 m + e) - e)) shr_1 (shr_record_of_loc m l).
Proof.
  unfold shr_fexp, shr.
  destruct (fexp prec emax (Zdigits2 m + e) - e) as [|p|p]; simpl fst; try reflexivity.
  rewrite iter_pos_nat. reflexivity.
Qed.

(** Shifting two mantissas in order by the same number of bits and
    rounding keeps them in order. *)
Lemma round_shift_mono n W1 W2 :
  0 <= W1 <= W2 ->
  let r1 := Nat.iter n shr_1 {| shr_m := W1; shr_r := false; shr_s := false |} in
  let r2 := Nat.iter n shr_1 {| shr_m := W2; shr_r := false; shr_s := false |} in
  round_nearest_even (shr_m r1) (loc_of_shr_record r1)
  <= round_nearest_even (shr_m r2) (loc_of_shr_record r2).
Proof.
  intros HW r1 r2. subst r1 r2. destruct n as [|n].
  - simpl. lia.
  - rewrite !iter_shr_fields by lia. rewrite !round_nearest_even_bits. cbn [shr_m shr_r shr_s].
    assert (0 < 2 ^ Z.of_nat n) as Hp by (apply Z.pow_pos_nonneg; lia).
    assert (0 < 2 ^ (Z.of_nat n + 1)) as Hp' by (apply Z.pow_pos_nonneg; lia).
    pose proof (Z.div_le_mono W1 W2 (2 ^ (Z.of_nat n + 1)) Hp' (proj2 HW)) as Hq.
    set (q1 := W1 / 2 ^ (Z.of_nat n + 1)) in *.
    set (q2 := W2 / 2 ^ (Z.of_nat n + 1)) in *.
    destruct (Z.eq_dec q1 q2) as [E|E].
    2:{ repeat match goal with |- context [if ?c then 1 else 0] => destruct c end; lia. }
    (* the same quotient: compare what was cut off *)
    pose proof (Z.div_mod W1 (2 ^ (Z.of_nat n + 1)) ltac:(lia)) as H1.
    pose proof (Z.div_mod W2 (2 ^ (Z.of_nat n + 1)) ltac:(lia)) as H2.
    fold q1 in H1. fold q2 in H2. rewrite <- E in *.
    assert (W1 mod 2 ^ (Z.of_nat n + 1) <= W2 mod 2 ^ (Z.of_nat n + 1)) as Hrem by lia.
    rewrite (Z.pow_add_r 2 (Z.of_nat n) 1) in Hrem by lia. change (2 ^ 1) with 2 in Hrem.
    rewrite !Z.rem_mul_r in Hrem by lia. rewrite !Zmod_odd in Hrem.
    pose proof (Z.mod_pos_bound W1 (2 ^ Z.of_nat n) Hp) as Hb1.
    pose proof (Z.mod_pos_bound W2 (2 ^ Z.of_nat n) Hp) as Hb2.
    set (p := 2 ^ Z.of_nat n) in *. clearbody p.
    destruct (Z.odd (W1 / p)), (Z.odd (W2 / p)); cbn [andb]; try lia;
      destruct (Z.eqb_spec (W1 mod p) 0), (Z.eqb_spec (W2 mod p) 0); cbn [negb orb];
      destruct (Z.odd q1); try lia.
Qed.

(** *** The second half of the algorithm keeps the order *)

(** With an exponent not below the least one, the number of bits to cut
    depends on the number of digits only. *)
Lemma shift_count d e :
  -1074 <= e -> Z.max (Z.max (d + e - 53) (-1074) - e) 0 = Z.max (d - 53) 0.
Proof. lia. Qed.

Lemma Zdigits2_mono m m' : 0 <= m <= m' -> Zdigits2 m <= Zdigits2 m'.
Proof.
  intros [H0 H1]. destruct m' as [|p'|p']; try lia.
  - replace m with 0 by lia. lia.
  - apply Zdigits2_le; [|rewrite Zdigits2_pos; lia].
    split; [exact H0|]. apply Z.le_lt_trans with (Zpos p'); [exact H1|].
    rewrite Zdigits2_pos. apply digits2_bounds.
Qed.

Lemma Zdigits2_low m : 0 < m -> 1 <= Zdigits2 m /\ 2 ^ (Zdigits2 m - 1) <= m.
Proof.
  intros Hm. destruct m as [|p|p]; try lia. rewrite Zdigits2_pos.
  split; [lia | apply digits2_bounds].
Qed.

Lemma renormalise_mono m m' e1 :
  -1074 <= e1 -> 0 <= m <= m' ->
  SFleb
    (let '(mrs, e2) := shr_fexp prec emax m e1 loc_Exact in
     match shr_m mrs with
     | Z0 => S754_zero false
     | Zpos m2 => if e2 <=? emax - prec then S754_finite false m2 e2 else S754_infinity false
     | Zneg _ => S754_nan
     end)
    (let '(mrs, e2) := shr_fexp prec emax m' e1 loc_Exact in
     match shr_m mrs with
     | Z0 => S754_zero false
     | Zpos m2 => if e2 <=? emax - prec then S754_finite false m2 e2 else S754_infinity false
     | Zneg _ => S754_nan
     end) = true.
Proof.
  intros He [Hm0 Hmm].
  destruct (shr_fexp_value m e1 loc_Exact Hm0) as [Am Ae].
  destruct (shr_fexp_value m' e1 loc_Exact ltac:(lia)) as [Bm Be].
  rewrite fexp_eq, shift_count in Am, Ae, Bm, Be by exact He.
  pose proof (Zdigits2_mono m m' (conj Hm0 Hmm)) as Hd.
  destruct (shr_fexp prec emax m e1 loc_Exact) as [mrs a2].
  destruct (shr_fexp prec emax m' e1 loc_Exact) as [mrs' b2].
  simpl fst in Am, Bm. simpl snd in Ae, Be. subst a2 b2.
  set (d := Zdigits2 m) in *. set (d' := Zdigits2 m') in *.
  set (k := Z.max (d - 53) 0) in *. set (k' := Z.max (d' - 53) 0) in *.
  assert (0 <= k <= k') as Hk by (subst k k'; lia).
  assert (0 <= shr_m mrs') as Hb0
    by (rewrite Bm; apply Z.div_pos; [lia | apply Z.pow_pos_nonneg; lia]).
  destruct (Z.eq_dec m 0) as [Ez|Ez].
  { (* the smaller one is zero *)
    rewrite Am, Ez, Z.div_0_l by (apply Z.pow_nonzero; lia).
    destruct (shr_m mrs') as [|p|p]; try lia; try reflexivity.
    destruct (_ <=? _); reflexivity. }
  destruct (Zdigits2_low m ltac:(lia)) as [Hd1 Hlo]. fold d in Hd1, Hlo.
  destruct (Zdigits2_low m' ltac:(lia)) as [Hd1' Hlo']. fold d' in Hd1', Hlo'.
  assert (1 <= shr_m mrs) as Ha1
    by (rewrite Am; apply (div_pow_ge_1 _ _ d); [subst k; lia | exact Hlo]).
  assert (1 <= shr_m mrs') as Hb1
    by (rewrite Bm; apply (div_pow_ge_1 _ _ d'); [subst k'; lia | exact Hlo']).
  assert (k = k' -> shr_m mrs <= shr_m mrs') as Hsame.
  { intros E. rewrite Am, Bm, E. apply Z.div_le_mono; [apply Z.pow_pos_nonneg; lia | lia]. }
  clearbody k k'. clear Am Bm.
  destruct (shr_m mrs) as [|a|a]; try lia.
  destruct (shr_m mrs') as [|b|b]; try lia.
  destruct (Z.leb_spec (e1 + k) (emax - prec)) as [La|La];
    destruct (Z.leb_spec (e1 + k') (emax - prec)) as [Lb|Lb]; try reflexivity; try lia.
  unfold SFleb, SFcompare. change (Pos.compare_cont Eq a b) with (Pos.compare a b).
  destruct (Z.compare_spec (e1 + k) (e1 + k')) as [E|E|E]; try reflexivity; try lia.
  assert (k = k') as Ek by lia. specialize (Hsame Ek).
  destruct (Pos.compare_spec a b); try reflexivity. lia.
Qed.

(** A value at or above [2 ^ 1024] rounds to [+Infinity]. *)
Lemma binary_round_aux_overflow W e :
  0 < W -> -1074 <= e -> 971 < e + Z.max (Zdigits2 W - 53) 0 ->
  binary_round_aux prec emax false W e loc_Exact = S754_infinity false.
Proof.
  intros HW He Hbig. unfold binary_round_aux.
  destruct (shr_fexp_value W e loc_Exact ltac:(lia)) as [H1m H1e].
  rewrite fexp_eq, shift_count in H1m, H1e by exact He.
  destruct (Zdigits2_low W HW) as [Hd Hlo].
  destruct (shr_fexp prec emax W e loc_Exact) as [mrs' e1].
  simpl fst in H1m. simpl snd in H1e.
  set (k1 := Z.max (Zdigits2 W - 53) 0) in *.
  assert (1 <= shr_m mrs') as Hq
    by (rewrite H1m; apply (div_pow_ge_1 _ _ (Zdigits2 W)); [subst k1; lia | exact Hlo]).
  pose proof (round_nearest_even_bounds (shr_m mrs') (loc_of_shr_record mrs')) as Hr.
  set (m1 := round_nearest_even (shr_m mrs') (loc_of_shr_record mrs')) in *.
  assert (-1074 <= e1) as He1 by lia.
  destruct (shr_fexp_value m1 e1 loc_Exact ltac:(lia)) as [H2m H2e].
  rewrite fexp_eq, shift_count in H2m, H2e by exact He1.
  destruct (Zdigits2_low m1 ltac:(lia)) as [Hd1 Hlo1].
  destruct (shr_fexp prec emax m1 e1 loc_Exact) as [mrs'' e2].
  simpl fst in H2m. simpl snd in H2e.
  assert (1 <= shr_m mrs'') as Hm2
    by (rewrite H2m; apply (div_pow_ge_1 _ _ (Zdigits2 m1)); [lia | exact Hlo1]).
  destruct (shr_m mrs'') as [|m2|m2]; try lia.
  replace (e2 <=? emax - prec) with false; [reflexivity|].
  symmetry. apply Z.leb_gt. change (emax - prec) with 971. lia.
Qed.

(** *** Rounding at a given exponent keeps the order of the mantissas *)

Lemma power_bounded c : -1074 <= c <= 971 -> bounded prec emax 4503599627370496 c = true.
Proof.
  intros Hc. unfold bounded, canonical_mantissa.
  change (digits2_pos 4503599627370496) with 53%positive. rewrite fexp_eq.
  apply andb_true_intro. split; [apply Z.eqb_eq; lia | apply Z.leb_le].
  change (emax - prec) with 971. lia.
Qed.

Lemma signed_leb_infinity x : signed false x -> SFleb x (S754_infinity false) = true.
Proof. destruct x as [s|s| |s m e]; simpl; intros H; subst; try contradiction; reflexivity. Qed.

Lemma binary_round_aux_mono W1 W2 e :
  -1074 <= e -> 0 <= W1 <= W2 ->
  SFleb (binary_round_aux prec emax false W1 e loc_Exact)
        (binary_round_aux prec emax false W2 e loc_Exact) = true.
Proof.
  intros He [H0 H12].
  pose proof (Zdigits2_mono W1 W2 (conj H0 H12)) as Hd.
  destruct (Z.eq_dec (Z.max (Zdigits2 W1 - 53) 0) (Z.max (Zdigits2 W2 - 53) 0)) as [Ek|Ek].
  - (* the same exponent after the first shift *)
    unfold binary_round_aux.
    destruct (shr_fexp_value W1 e loc_Exact H0) as [_ A1e].
    destruct (shr_fexp_value W2 e loc_Exact ltac:(lia)) as [_ A2e].
    rewrite fexp_eq, shift_count in A1e, A2e by exact He.
    pose proof (shr_fexp_iter W1 e loc_Exact) as I1.
    pose proof (shr_fexp_iter W2 e loc_Exact) as I2.
    rewrite fexp_eq in I1, I2.
    assert (Z.to_nat (Z.max (Zdigits2 W1 + e - 53) (-1074) - e)
            = Z.to_nat (Z.max (Zdigits2 W2 + e - 53) (-1074) - e)) as En by lia.
    rewrite En in I1.
    pose proof (round_shift_mono
                  (Z.to_nat (Z.max (Zdigits2 W2 + e - 53) (-1074) - e)) W1 W2
                  (conj H0 H12)) as Hround.
    cbv zeta in Hround. simpl shr_record_of_loc in I1, I2.
    rewrite <- I1, <- I2 in Hround.
    assert (0 <= round_nearest_even (shr_m (fst (shr_fexp prec emax W1 e loc_Exact)))
                  (loc_of_shr_record (fst (shr_fexp prec emax W1 e loc_Exact)))) as Hr0.
    { pose proof (round_nearest_even_bounds
                    (shr_m (fst (shr_fexp prec emax W1 e loc_Exact)))
                    (loc_of_shr_record (fst (shr_fexp prec emax W1 e loc_Exact)))) as Hb.
      pose proof (shr_fexp_nonneg W1 e loc_Exact H0). lia. }
    destruct (shr_fexp prec emax W1 e loc_Exact) as [r1 a1].
    destruct (shr_fexp prec emax W2 e loc_Exact) as [r2 a2].
    simpl fst in *. simpl snd in *.
    assert (a1 = a2) as -> by lia.
    apply renormalise_mono; [lia | split; assumption].
  - (* a power of two lies between *)
    assert (Zdigits2 W1 < Zdigits2 W2 /\ 54 <= Zdigits2 W2) as [Hlt H54] by lia.
    assert (0 < W2) as HW2 by (destruct W2; simpl in H54; lia).
    destruct (Z.le_gt_cases (e + (Zdigits2 W2 - 53)) 971) as [Hfin|Hinf].
    + set (c := e + (Zdigits2 W2 - 53)) in *.
      apply SFleb_trans with (S754_finite false 4503599627370496 c).
      * apply binary_round_aux_le; [apply power_bounded; lia | exact H0 | lia | | congruence].
        change (Zpos 4503599627370496) with (2 ^ 52). rewrite <- pow2_split by lia.
        replace (52 + (c - e)) with (Zdigits2 W2 - 1) by lia.
        destruct (Z.eq_dec W1 0) as [->|Hnz]; [apply Z.pow_nonneg; lia|].
        destruct W1 as [|p1|p1]; try lia.
        apply Z.lt_le_incl. apply Z.lt_le_trans with (2 ^ Zdigits2 (Zpos p1)).
        -- rewrite Zdigits2_pos. apply digits2_bounds.
        -- apply Z.pow_le_mono_r; lia.
      * destruct W2 as [|p2|p2]; try lia.
        apply binary_round_aux_ge; [apply power_bounded; lia | lia |].
        change (Zpos 4503599627370496) with (2 ^ 52). rewrite <- pow2_split by lia.
        replace (52 + (c - e)) with (Zdigits2 (Zpos p2) - 1) by lia.
        rewrite Zdigits2_pos. apply digits2_bounds.
    + rewrite (binary_round_aux_overflow W2 e HW2 He) by lia.
      apply signed_leb_infinity. apply binary_round_aux_signed. exact H0.
Qed.

End Mono.

End RoundingMonotone.

(** ** Subtraction keeps the order, and the heat map stays in range *)

Module SubtractionOrder.

Import JS Signs FloatFacts FloatArith FloatMore RoundingBounds RoundingMonotone.
Local Open Scope float_scope.

Section Sub.

Local Open Scope Z_scope.

Lemma Zdigits2_shift N j : 0 < N -> 0 <= j -> Zdigits2 (N * 2 ^ j) = Zdigits2 N + j.
Proof.
  intros HN Hj. destruct (Zdigits2_low N HN) as [Hd Hlo].
  assert (N < 2 ^ Zdigits2 N) as Hhi
    by (destruct N as [|p|p]; try lia; rewrite Zdigits2_pos; apply digits2_bounds).
  assert (0 < 2 ^ j) as Hp by (apply Z.pow_pos_nonneg; lia).
  apply Z.le_antisymm.
  - apply Zdigits2_le; [|lia]. split; [lia|].
    rewrite pow2_split by lia. apply Z.mul_lt_mono_pos_r; assumption.
  - pose proof (Zdigits2_ge (N * 2 ^ j) (Zdigits2 N - 1 + j) ltac:(lia)) as H.
    replace (Zdigits2 N - 1 + j + 1) with (Zdigits2 N + j) in H by lia. apply H.
    rewrite pow2_split by lia. apply Z.mul_le_mono_nonneg_r; lia.
Qed.

(** A mantissa given with [j] more zero bits at an exponent lower by [j]
    is truncated to the same record. *)
Lemma shr_fexp_rescale N a j :
  0 < N -> a <= fexp prec emax (Zdigits2 N + a) -> 0 <= j ->
  shr_fexp prec emax (N * 2 ^ j) (a - j) loc_Exact = shr_fexp prec emax N a loc_Exact.
Proof.
  intros HN Ha Hj.
  assert (0 < 2 ^ j) as Hp by (apply Z.pow_pos_nonneg; lia).
  rewrite (surjective_pairing (shr_fexp prec emax (N * 2 ^ j) (a - j) loc_Exact)).
  rewrite (surjective_pairing (shr_fexp prec emax N a loc_Exact)).
  f_equal.
  - rewrite !shr_fexp_iter, Zdigits2_shift by assumption.
    replace (Zdigits2 N + j + (a - j)) with (Zdigits2 N + a) by lia.
    set (k := fexp prec emax (Zdigits2 N + a) - a) in *.
    replace (fexp prec emax (Zdigits2 N + a) - (a - j)) with (k + j) by (subst k; lia).
    rewrite Z2Nat.inj_add by lia. rewrite Nat.iter_add. f_equal.
    simpl shr_record_of_loc.
    replace (N * 2 ^ j) with (2 ^ Z.of_nat (Z.to_nat j) * N)
      by (rewrite Z2Nat.id by lia; lia).
    apply iter_shr_even. lia.
  - destruct (shr_fexp_value (N * 2 ^ j) (a - j) loc_Exact ltac:(lia)) as [_ ->].
    destruct (shr_fexp_value N a loc_Exact ltac:(lia)) as [_ ->].
    rewrite Zdigits2_shift by assumption.
    replace (Zdigits2 N + j + (a - j)) with (Zdigits2 N + a) by lia. lia.
Qed.

Lemma binary_round_aux_rescale N a j :
  0 < N -> a <= fexp prec emax (Zdigits2 N + a) -> 0 <= j ->
  binary_round_aux prec emax false (N * 2 ^ j) (a - j) loc_Exact
  = binary_round_aux prec emax false N a loc_Exact.
Proof.
  intros HN Ha Hj. unfold binary_round_aux. rewrite shr_fexp_rescale by assumption.
  reflexivity.
Qed.

(** [binary_round] at any exponent low enough. *)
Lemma binary_round_as_aux p z z0 :
  z0 <= z -> z0 <= fexp prec emax (Zpos (digits2_pos p) + z) ->
  binary_round prec emax false p z
  = binary_round_aux prec emax false (Zpos p * 2 ^ (z - z0)) z0 loc_Exact.
Proof.
  intros Hz Hf. unfold binary_round.
  destruct (shl_align_spec p z (fexp prec emax (Zpos (digits2_pos p) + z))) as [H2 H1].
  destruct (shl_align p z _) as [mz ez]. simpl fst in H1. simpl snd in H2.
  set (f := fexp prec emax (Zpos (digits2_pos p) + z)) in *.
  assert (Zdigits2 (Zpos mz) = Zpos (digits2_pos p) + (z - ez)) as Hd.
  { rewrite H1, <- H2. rewrite Zdigits2_shift by lia. reflexivity. }
  rewrite <- (binary_round_aux_rescale (Zpos mz) ez (ez - z0)); try lia.
  - f_equal; [|lia]. rewrite H1, <- H2.
    rewrite <- Z.mul_assoc, <- pow2_split by lia. f_equal. f_equal. lia.
  - rewrite Hd. replace (Zpos (digits2_pos p) + (z - ez) + ez)
      with (Zpos (digits2_pos p) + z) by lia. fold f. lia.
Qed.

Lemma binary_round_mono p1 z1 p2 z2 z :
  -1074 <= z -> z <= z1 -> z <= z2 ->
  Zpos p1 * 2 ^ (z1 - z) <= Zpos p2 * 2 ^ (z2 - z) ->
  SFleb (binary_round prec emax false p1 z1) (binary_round prec emax false p2 z2) = true.
Proof.
  intros Hz Hz1 Hz2 Hle.
  set (z0 := Z.min z (Z.min (fexp prec emax (Zpos (digits2_pos p1) + z1))
                            (fexp prec emax (Zpos (digits2_pos p2) + z2)))).
  assert (-1074 <= z0 <= z /\
          z0 <= fexp prec emax (Zpos (digits2_pos p1) + z1) /\
          z0 <= fexp prec emax (Zpos (digits2_pos p2) + z2)) as (Hz0 & Hf1 & Hf2).
  { subst z0. rewrite !fexp_eq. lia. }
  clearbody z0.
  rewrite (binary_round_as_aux p1 z1 z0), (binary_round_as_aux p2 z2 z0) by lia.
  assert (0 < 2 ^ (z - z0)) as Hp by (apply Z.pow_pos_nonneg; lia).
  apply binary_round_aux_mono; [lia|]. split.
  - apply Z.mul_nonneg_nonneg; [lia | apply Z.pow_nonneg; lia].
  - replace (z1 - z0) with ((z1 - z) + (z - z0)) by lia.
    replace (z2 - z0) with ((z2 - z) + (z - z0)) by lia.
    rewrite !pow2_split by lia. rewrite !Z.mul_assoc.
    apply Z.mul_le_mono_nonneg_r; lia.
Qed.

Lemma binary_round_signed s p e : signed s (binary_round prec emax s p e).
Proof.
  unfold binary_round. destruct (shl_align p e _) as [mz ez].
  apply binary_round_aux_signed. lia.
Qed.

Lemma bounded_exponent m e : bounded prec emax m e = true -> -1074 <= e.
Proof.
  unfold bounded, canonical_mantissa. intros H. apply andb_prop in H.
  destruct H as [H _]. apply Z.eqb_eq in H. rewrite fexp_eq in H. lia.
Qed.

(** Of three positive binary64 numbers in order, the differences from the
    least are in order, and the smaller one is at least zero. *)
Lemma SFsub_order N en T et MX emx :
  bounded prec emax N en = true -> bounded prec emax T et = true ->
  bounded prec emax MX emx = true ->
  SFleb (S754_finite false N en) (S754_finite false T et) = true ->
  SFleb (S754_finite false T et) (S754_finite false MX emx) = true ->
  nonneg_sf (SF64sub (S754_finite false T et) (S754_finite false N en)) /\
  SFleb (SF64sub (S754_finite false T et) (S754_finite false N en))
        (SF64sub (S754_finite false MX emx) (S754_finite false N en)) = true.
Proof.
  intros VN VT VM HNT HTM.
  destruct (SFleb_scaled N en T et VN VT HNT) as (He1 & Hv1 & _).
  destruct (SFleb_scaled T et MX emx VT VM HTM) as (He2 & Hv2 & _).
  pose proof (bounded_exponent N en VN) as Hen.
  unfold SF64sub, SFsub. cbn [cond_Zopp]. change IntDef.Z.min with Z.min.
  rewrite (Z.min_r et en), (Z.min_r emx en) by lia.
  destruct (shl_align_spec T et en) as [_ HT].
  destruct (shl_align_spec MX emx en) as [_ HM].
  destruct (shl_align_spec N en en) as [_ HN].
  rewrite (Z.min_r et en) in HT by lia. rewrite (Z.min_r emx en) in HM by lia.
  rewrite Z.min_id, Z.sub_diag, Z.pow_0_r, Z.mul_1_r in HN.
  rewrite HT, HM, HN.
  assert (0 < 2 ^ (et - en)) as Hp by (apply Z.pow_pos_nonneg; lia).
  assert (Zpos T * 2 ^ (et - en) <= Zpos MX * 2 ^ (emx - en)) as Hle.
  { replace (emx - en) with ((emx - et) + (et - en)) by lia.
    rewrite pow2_split by lia. rewrite Z.mul_assoc.
    apply Z.mul_le_mono_nonneg_r; lia. }
  assert (Zpos N <= Zpos T * 2 ^ (et - en)) as HNle by exact Hv1.
  set (D1 := Zpos T * 2 ^ (et - en) - Zpos N) in *.
  set (D2 := Zpos MX * 2 ^ (emx - en) - Zpos N) in *.
  assert (0 <= D1 <= D2) as HD by (subst D1 D2; lia).
  clearbody D1 D2. unfold binary_normalize.
  destruct D1 as [|p1|p1]; try lia.
  - split; [exact I|]. destruct D2 as [|p2|p2]; try lia; [reflexivity|].
    apply nonneg_sf_leb. apply signed_nonneg. apply binary_round_signed.
  - destruct D2 as [|p2|p2]; try lia. split.
    + apply signed_nonneg. apply binary_round_signed.
    + apply (binary_round_mono p1 en p2 en en); try lia.
      rewrite Z.sub_diag, Z.pow_0_r, !Z.mul_1_r. lia.
Qed.

End Sub.

(** Of three numbers at least zero in order, the greatest not infinite,
    the differences from the least are in order and the smaller one is at
    least zero. *)
Lemma SFsub_mono mn t mx :
  valid_binary mn = true -> valid_binary t = true -> valid_binary mx = true ->
  nonneg_sf mn -> mx <> S754_infinity false ->
  SFleb mn t = true -> SFleb t mx = true ->
  nonneg_sf (SF64sub t mn) /\ SFleb (SF64sub t mn) (SF64sub mx mn) = true.
Proof.
  intros Vn Vt Vm Hn Hm Hnt Htm.
  pose proof Hnt as Hnt'. pose proof Htm as Htm'.
  destruct mn as [[|]|[|]| |[|] N en]; simpl in Hn; try contradiction;
    destruct t as [[|]|[|]| |[|] T et]; cbn [SFleb SFcompare] in Hnt'; try discriminate Hnt';
    destruct mx as [[|]|[|]| |[|] MX emx]; cbn [SFleb SFcompare] in Htm'; try discriminate Htm';
    try congruence;
    first [ apply SFsub_order; assumption
          | unfold SF64sub, SFsub; split; first [exact I | reflexivity | assumption] ].
Qed.

Lemma sub_mono mn t mx :
  (0 <=? mn) = true -> is_infinity mx = false ->
  (mn <=? t) = true -> (t <=? mx) = true ->
  (0 <=? t - mn) = true /\ (t - mn <=? mx - mn) = true.
Proof.
  intros Hn Hm Hnt Htm.
  rewrite nonneg_spec in Hn |- *. rewrite leb_spec in Hnt, Htm |- *. rewrite !sub_spec.
  apply SFsub_mono; try apply Prim2SF_valid; try assumption.
  intros E. assert (is_infinity mx = true) as H; [|congruence].
  apply FiniteFacts.is_infinity_spec. eauto.
Qed.

End SubtractionOrder.

(** ** The heat map: intensities between zero and one *)

Module HeatmapRange.

Import JS Grid Statistical Scenarios Samples.
Import Signs FloatFacts FloatArith FloatMore RoundingBounds SubtractionOrder.
Local Open Scope float_scope.

Lemma min2_nonneg a b :
  (0 <=? a) = true -> (0 <=? b) = true -> (0 <=? min2 a b) = true.
Proof.
  intros Ha Hb. unfold min2.
  destruct (leb_not_nan _ _ Ha) as [_ Na]. destruct (leb_not_nan _ _ Hb) as [_ Nb].
  rewrite Na, Nb. simpl.
  destruct (a <? b); [exact Ha|]. destruct (b <? a); [exact Hb|].
  destruct (get_sign a); assumption.
Qed.

Lemma fold_min2_nonneg l :
  Forall (fun x => (0 <=? x) = true) l ->
  forall acc, (0 <=? acc) = true -> (0 <=? fold_left min2 l acc) = true.
Proof.
  induction 1 as [|x l Hx _ IH]; intros acc Hacc; simpl; [exact Hacc|].
  apply IH. apply min2_nonneg; assumption.
Qed.

(** A number from which something is subtracted to a finite result is not
    infinite. *)
Lemma sub_finite_not_infinity x y s m e :
  Prim2SF (x - y) = S754_finite s m e -> is_infinity x = false.
Proof.
  intros H. destruct (is_infinity x) eqn:E; [|reflexivity].
  apply FiniteFacts.is_infinity_spec in E. destruct E as [sx E].
  rewrite sub_spec, E in H. unfold SF64sub, SFsub in H.
  destruct (Prim2SF y) as [sy|sy| |sy my ey]; try discriminate H.
  destruct sx, sy; discriminate H.
Qed.

(** X23: with travel times at least zero and a spread [max - min] that is
    finite and not zero, every intensity of the heat map is a number between
    [0] and [1]. *)
Theorem generateHeatmapData_unit_interval points :
  Forall (fun p => (0 <=? time_of p) = true) points ->
  finite_nonzero (Math_max (map time_of points) - Math_min (map time_of points)) = true ->
  Forall (fun d => (0 <=? intensity d) = true /\ (intensity d <=? 1) = true)
         (generateHeatmapData points).
Proof.
  intros Hpos Hspread.
  set (maxTime := Math_max (map time_of points)) in *.
  set (minTime := Math_min (map time_of points)) in *.
  destruct (MetricFacts.finite_nonzero_spec _ Hspread) as (s & m & e & Hb).
  assert ((0 <=? minTime) = true) as Hmin.
  { subst minTime. unfold Math_min. apply fold_min2_nonneg; [|reflexivity].
    apply Forall_forall. intros x Hx. apply in_map_iff in Hx.
    destruct Hx as (p & <- & Hp). rewrite Forall_forall in Hpos. apply Hpos. exact Hp. }
  pose proof (sub_finite_not_infinity _ _ _ _ _ Hb) as Hfin.
  apply Forall_forall. intros d Hd. unfold generateHeatmapData in Hd.
  apply in_map_iff in Hd. destruct Hd as (p & <- & Hp). cbn [intensity].
  fold maxTime minTime.
  destruct (MetricFacts.times_between points p Hp) as [Hlo Hhi].
  fold minTime in Hlo. fold maxTime in Hhi.
  destruct (sub_mono minTime (time_of p) maxTime Hmin Hfin Hlo Hhi) as [Ha Hab].
  assert (s = false) as ->.
  { pose proof (leb_trans _ _ _ Ha Hab) as H0. apply nonneg_spec in H0.
    rewrite Hb in H0. exact H0. }
  split.
  - apply (div_nonneg _ _ m e Hb). exact Ha.
  - apply (div_le_1 _ _ m e Hb); assumption.
Qed.

Lemma generateHeatmapData_unit_interval_witness :
  map intensity (generateHeatmapData samples_5_15_25) = [0; 0.5; 1] /\
  Forall (fun d => (0 <=? intensity d) = true /\ (intensity d <=? 1) = true)
         (generateHeatmapData samples_5_15_25).
Proof.
  split; [reflexivity|].
  apply (generateHeatmapData_unit_interval samples_5_15_25).
  - repeat constructor.
  - reflexivity.
Defined.

End HeatmapRange.

(** ** Doubling a factor doubles the product

    [x * (2 * y)] and [2 * (x * y)] round the same real number when nothing
    overflows and the product stays clear of the subnormal range: there the
    rounding keeps 53 digits whatever the exponent, so that one more power of
    two changes the exponent only. *)

Module Doubling.

Import JS Signs Scaling FloatFacts FloatArith FloatMore RoundingBounds RoundingMonotone.
Import SubtractionOrder.
Local Open Scope float_scope.

Section Rounding.

Local Open Scope Z_scope.

Lemma shr_fexp_up m e l :
  fexp prec emax (Zdigits2 m + (e + 1)) = fexp prec emax (Zdigits2 m + e) + 1 ->
  shr_fexp prec emax m (e + 1) l
  = (fst (shr_fexp prec emax m e l), snd (shr_fexp prec emax m e l) + 1).
Proof.
  intros H. unfold shr_fexp. rewrite H.
  replace (fexp prec emax (Zdigits2 m + e) + 1 - (e + 1))
    with (fexp prec emax (Zdigits2 m + e) - e) by lia.
  unfold shr. destruct (fexp prec emax (Zdigits2 m + e) - e); simpl; f_equal; lia.
Qed.

Lemma Zdigits2_div M k :
  0 < M -> 0 <= k < Zdigits2 M -> Zdigits2 M - k <= Zdigits2 (M / 2 ^ k).
Proof.
  intros HM Hk. destruct (Zdigits2_low M HM) as [Hd Hlo].
  pose proof (Zdigits2_ge (M / 2 ^ k) (Zdigits2 M - 1 - k) ltac:(lia)) as H.
  replace (Zdigits2 M - 1 - k + 1) with (Zdigits2 M - k) in H by lia. apply H.
  apply Z.div_le_lower_bound; [apply Z.pow_pos_nonneg; lia|].
  rewrite <- pow2_split by lia. replace (k + (Zdigits2 M - 1 - k)) with (Zdigits2 M - 1) by lia.
  exact Hlo.
Qed.

(** In the normal range, one more power of two on the input is one more on
    the output. *)
Lemma binary_round_aux_up s M e :
  0 < M -> -1021 <= Zdigits2 M + e ->
  binary_round_aux prec emax s M (e + 1) loc_Exact
  = SFdouble (binary_round_aux prec emax s M e loc_Exact).
Proof.
  intros HM Hn. unfold binary_round_aux.
  destruct (Zdigits2_low M HM) as [Hd Hlo].
  rewrite shr_fexp_up by (rewrite !fexp_eq; lia).
  destruct (shr_fexp_value M e loc_Exact ltac:(lia)) as [H1m H1e].
  destruct (shr_fexp prec emax M e loc_Exact) as [rec1 e1]. simpl fst in *. simpl snd in *.
  set (m1 := round_nearest_even (shr_m rec1) (loc_of_shr_record rec1)).
  assert (Zdigits2 M <= Zdigits2 m1 + (e1 - e)) as Hd1.
  { rewrite fexp_eq in H1m, H1e.
    set (k := Z.max (Z.max (Zdigits2 M + e - 53) (-1074) - e) 0) in *.
    assert (0 <= k < Zdigits2 M) as Hk by (subst k; lia).
    pose proof (Zdigits2_div M k HM Hk) as Hq.
    pose proof (round_nearest_even_bounds (shr_m rec1) (loc_of_shr_record rec1)) as Hr.
    assert (0 <= M / 2 ^ k) as Hq0 by (apply Z.div_pos; [lia | apply Z.pow_pos_nonneg; lia]).
    pose proof (Zdigits2_mono (M / 2 ^ k) m1 ltac:(subst m1; rewrite <- H1m; lia)) as Hm.
    lia. }
  rewrite shr_fexp_up by (rewrite !fexp_eq; lia).
  destruct (shr_fexp prec emax m1 e1 loc_Exact) as [rec2 e2]. simpl fst. simpl snd.
  destruct (shr_m rec2) as [|m2|m2]; try reflexivity.
  change (emax - prec) with 971.
  destruct (Z.leb_spec e2 971) as [E|E]; simpl; change (emax - prec) with 971.
  - reflexivity.
  - destruct (Z.leb_spec (e2 + 1) 971) as [E'|E']; [lia | reflexivity].
Qed.

(** A mantissa that is where the format wants it is not rounded. *)
Lemma binary_round_aux_exact s N a :
  a = fexp prec emax (Zpos (digits2_pos N) + a) ->
  binary_round_aux prec emax s (Zpos N) a loc_Exact
  = if a <=? emax - prec then S754_finite s N a else S754_infinity s.
Proof.
  intros Ha. unfold binary_round_aux, shr_fexp.
  rewrite Zdigits2_pos, <- Ha, Z.sub_diag. cbn [shr shr_record_of_loc fst snd shr_m].
  cbn [loc_of_shr_record shr_r shr_s round_nearest_even].
  rewrite Zdigits2_pos, <- Ha, Z.sub_diag. cbn [shr shr_record_of_loc fst snd shr_m].
  reflexivity.
Qed.

Lemma binary_round_aux_rescale_signed s N a j :
  0 < N -> a <= fexp prec emax (Zdigits2 N + a) -> 0 <= j ->
  binary_round_aux prec emax s (N * 2 ^ j) (a - j) loc_Exact
  = binary_round_aux prec emax s N a loc_Exact.
Proof.
  intros HN Ha Hj. unfold binary_round_aux. rewrite shr_fexp_rescale by assumption.
  reflexivity.
Qed.

(** A result that is infinite, or finite above the subnormal exponents,
    comes from the normal range. *)
Lemma normal_range s M e :
  0 < M -> e <= fexp prec emax (Zdigits2 M + e) ->
  (binary_round_aux prec emax s M e loc_Exact = S754_infinity s \/
   exists m' e', binary_round_aux prec emax s M e loc_Exact = S754_finite s m' e' /\
                 -1073 <= e') ->
  -1021 <= Zdigits2 M + e.
Proof.
  intros HM Ha Hres.
  destruct (Z.le_gt_cases (-1021) (Zdigits2 M + e)) as [Hok|Hlow]; [exact Hok|].
  exfalso. destruct (Zdigits2_low M HM) as [Hd Hlo].
  assert (M < 2 ^ Zdigits2 M) as Hhi
    by (destruct M as [|p|p]; try lia; rewrite Zdigits2_pos; apply digits2_bounds).
  unfold binary_round_aux in Hres.
  destruct (shr_fexp_value M e loc_Exact ltac:(lia)) as [H1m H1e].
  rewrite fexp_eq in H1m, H1e, Ha.
  destruct (shr_fexp prec emax M e loc_Exact) as [rec1 e1]. simpl fst in *. simpl snd in *.
  set (k := Z.max (Z.max (Zdigits2 M + e - 53) (-1074) - e) 0) in *.
  assert (k = -1074 - e /\ 0 <= k) as [Ek Hk] by (subst k; lia).
  set (m1 := round_nearest_even (shr_m rec1) (loc_of_shr_record rec1)) in *.
  assert (0 <= m1 <= 2 ^ 52) as Hm1.
  { pose proof (round_nearest_even_bounds (shr_m rec1) (loc_of_shr_record rec1)) as Hr.
    fold m1 in Hr. rewrite H1m in Hr.
    assert (0 < 2 ^ k) as Hpk by (apply Z.pow_pos_nonneg; lia).
    assert (0 <= M / 2 ^ k) by (apply Z.div_pos; lia).
    assert (M / 2 ^ k < 2 ^ 52); [|lia].
    apply Z.div_lt_upper_bound; [exact Hpk|].
    apply Z.lt_le_trans with (2 ^ Zdigits2 M); [exact Hhi|].
    rewrite <- pow2_split by lia. apply Z.pow_le_mono_r; lia. }
  assert (Zdigits2 m1 <= 53) as Hd1.
  { apply Z.le_trans with (Zdigits2 (2 ^ 52)); [apply Zdigits2_mono; exact Hm1 | reflexivity]. }
  destruct (shr_fexp_value m1 e1 loc_Exact ltac:(lia)) as [_ H2e].
  rewrite fexp_eq in H2e.
  destruct (shr_fexp prec emax m1 e1 loc_Exact) as [rec2 e2]. simpl snd in H2e.
  assert (e2 = -1074) as -> by lia.
  destruct (shr_m rec2) as [|m2|m2]; destruct Hres as [Hres|(m' & e' & Hres & He')];
    try discriminate Hres.
  change (-1074 <=? emax - prec) with true in Hres. cbv iota in Hres.
  injection Hres as _ <-. lia.
Qed.

Lemma Zdigits2_mul mx my :
  Zdigits2 (Zpos mx) <= Zdigits2 (Zpos (mx * my)) <= Zdigits2 (Zpos mx) + Zdigits2 (Zpos my).
Proof.
  split.
  - apply Zdigits2_mono. rewrite Pos2Z.inj_mul. nia.
  - apply Zdigits2_le; [|rewrite !Zdigits2_pos; lia].
    rewrite Pos2Z.inj_mul, !Zdigits2_pos, pow2_split by lia.
    pose proof (digits2_bounds mx) as [_ Hx]. pose proof (digits2_bounds my) as [_ Hy].
    nia.
Qed.

Lemma bounded_canonical m e :
  bounded prec emax m e = true ->
  e = fexp prec emax (Zpos (digits2_pos m) + e) /\ e <= 971.
Proof.
  unfold bounded, canonical_mantissa. intros H. apply andb_prop in H.
  destruct H as [Hc Hb]. apply Z.eqb_eq in Hc. apply Z.leb_le in Hb.
  change (emax - prec) with 971 in Hb. split; [symmetry; exact Hc | exact Hb].
Qed.

(** Twice a finite binary64 number: the exponent goes up for a normal
    number, the mantissa is doubled for a subnormal one. *)
Lemma SFmul_two_finite s m e :
  bounded prec emax m e = true ->
  SF64mul (S754_finite false 4503599627370496 (-51)) (S754_finite s m e)
  = if Zpos (digits2_pos m) =? 53 then SFdouble (S754_finite s m e)
    else S754_finite s (m~0) e.
Proof.
  intros Hb. destruct (bounded_canonical m e Hb) as [Hc He]. rewrite fexp_eq in Hc.
  unfold SF64mul, SFmul. cbn [xorb].
  rewrite Pos2Z.inj_mul, Z.mul_comm. change (Zpos 4503599627370496) with (2 ^ 52).
  destruct (Z.eqb_spec (Zpos (digits2_pos m)) 53) as [E|E].
  - replace (-51 + e) with (e + 1 - 52) by lia.
    rewrite binary_round_aux_rescale_signed
      by (rewrite ?Zdigits2_pos, ?fexp_eq; lia).
    rewrite binary_round_aux_exact by (rewrite fexp_eq; lia). reflexivity.
  - assert (e = -1074 /\ Zpos (digits2_pos m) <= 52) as [-> Hd] by lia.
    replace (Zpos m * 2 ^ 52) with (Zpos m~0 * 2 ^ 51)
      by (rewrite (Pos2Z.inj_xO m); change (2 ^ 52) with (2 * 2 ^ 51); lia).
    change (-51 + -1074) with (-1074 - 51).
    assert (Zpos (digits2_pos m~0) = Zpos (digits2_pos m) + 1) as Hd2
      by (simpl; lia).
    rewrite binary_round_aux_rescale_signed
      by (rewrite ?Zdigits2_pos, ?fexp_eq; lia).
    rewrite binary_round_aux_exact by (rewrite fexp_eq; lia). reflexivity.
Qed.

End Rounding.

Section Product.

Local Open Scope Z_scope.

(** The product of two finite numbers is rounded from a mantissa that is
    not above the place the format gives it. *)
Lemma product_aligned mx ex my ey :
  bounded prec emax mx ex = true -> bounded prec emax my ey = true ->
  ex + ey <= fexp prec emax (Zdigits2 (Zpos (mx * my)) + (ex + ey)).
Proof.
  intros Vx Vy.
  destruct (bounded_canonical mx ex Vx) as [Hcx _].
  destruct (bounded_canonical my ey Vy) as [Hcy _].
  pose proof (Zdigits2_mul mx my) as [Hdx _].
  pose proof (Zdigits2_mul my mx) as [Hdy _]. rewrite (Pos.mul_comm my mx) in Hdy.
  rewrite !Zdigits2_pos in *. rewrite fexp_eq in *. lia.
Qed.

(** The main case: two finite numbers whose product is infinite or at
    least [2^-1021] in magnitude. *)
Lemma SFmul_double_finite sx mx ex sy my ey :
  bounded prec emax mx ex = true -> bounded prec emax my ey = true ->
  valid_binary (SF64mul (S754_finite sx mx ex) (S754_finite sy my ey)) = true ->
  (forall s, SF64mul (S754_finite false 4503599627370496 (-51)) (S754_finite sy my ey)
             <> S754_infinity s) ->
  SFleb (S754_finite false 4503599627370496 (-1073))
        (SFabs (SF64mul (S754_finite sx mx ex) (S754_finite sy my ey))) = true ->
  SF64mul (S754_finite sx mx ex)
          (SF64mul (S754_finite false 4503599627370496 (-51)) (S754_finite sy my ey))
  = SF64mul (S754_finite false 4503599627370496 (-51))
            (SF64mul (S754_finite sx mx ex) (S754_finite sy my ey)).
Proof.
  intros Vx Vy Vr Hfin Hrange.
  pose proof (SFmul_two_finite sy my ey Vy) as H2y.
  pose proof (product_aligned mx ex my ey Vx Vy) as Hal.
  destruct (bounded_canonical mx ex Vx) as [Hcx _].
  destruct (bounded_canonical my ey Vy) as [Hcy Hey].
  pose proof (Zdigits2_mul mx my) as [Hdx Hdxy].
  rewrite H2y in Hfin |- *. clear H2y.
  set (s := xorb sx sy).
  set (M := Zpos (mx * my)) in *. set (e := ex + ey) in *.
  assert (SF64mul (S754_finite sx mx ex) (S754_finite sy my ey)
          = binary_round_aux prec emax s M e loc_Exact) as Er by reflexivity.
  rewrite Er in Vr, Hrange |- *.
  pose proof (binary_round_aux_signed s M e loc_Exact ltac:(subst M; lia)) as Hs.
  assert (0 < M) as HM by (subst M; lia).
  (* the product lies in the normal range *)
  assert (-1021 <= Zdigits2 M + e) as Hn.
  { apply (normal_range s M e HM Hal).
    destruct (binary_round_aux prec emax s M e loc_Exact) as [s'|s'| |s' m' e'];
      simpl in Hs; try contradiction; subst s'.
    - discriminate Hrange.
    - left. reflexivity.
    - right. exists m', e'. split; [reflexivity|].
      simpl in Hrange, Vr.
      destruct (SFleb_scaled _ _ _ _ (power_bounded (-1073) ltac:(lia)) Vr Hrange)
        as (He' & _). exact He'. }
  (* the right-hand side *)
  assert (SF64mul (S754_finite false 4503599627370496 (-51))
                  (binary_round_aux prec emax s M e loc_Exact)
          = SFdouble (binary_round_aux prec emax s M e loc_Exact)) as ->.
  { destruct (binary_round_aux prec emax s M e loc_Exact) as [s'|s'| |s' m' e'];
      try reflexivity.
    simpl in Hrange, Vr.
    destruct (SFleb_scaled _ _ _ _ (power_bounded (-1073) ltac:(lia)) Vr Hrange)
      as (He' & _).
    rewrite (SFmul_two_finite s' m' e' Vr).
    destruct (bounded_canonical m' e' Vr) as [Hc' _]. rewrite fexp_eq in Hc'.
    destruct (Z.eqb_spec (Zpos (digits2_pos m')) 53) as [E|E]; [reflexivity | lia]. }
  (* the left-hand side *)
  rewrite <- (binary_round_aux_up s M e HM Hn).
  rewrite fexp_eq in Hcx, Hcy. rewrite !Zdigits2_pos in Hdx, Hdxy.
  destruct (Z.eqb_spec (Zpos (digits2_pos my)) 53) as [E|E].
  - unfold SFdouble in Hfin |- *. change (emax - prec) with 971 in *.
    destruct (Z.leb_spec (ey + 1) 971) as [E1|E1];
      [|exfalso; apply (Hfin sy); reflexivity].
    unfold SF64mul, SFmul. fold s. fold M.
    replace (ex + (ey + 1)) with (e + 1) by (subst e; lia). reflexivity.
  - unfold SF64mul, SFmul. fold s.
    replace (Zpos (mx * my~0)) with (M * 2 ^ 1)
      by (subst M; rewrite !Pos2Z.inj_mul, (Pos2Z.inj_xO my); lia).
    fold e. replace e with (e + 1 - 1) at 1 by lia.
    apply binary_round_aux_rescale_signed; [exact HM | | lia].
    rewrite fexp_eq. subst M e. rewrite Zdigits2_pos in *. lia.
Qed.

End Product.

(** [x * (2 * y) = 2 * (x * y)] on representations. *)
Lemma SFmul_double x y :
  valid_binary x = true -> valid_binary y = true ->
  valid_binary (SF64mul x y) = true ->
  (forall s, SF64mul (S754_finite false 4503599627370496 (-51)) y <> S754_infinity s) ->
  ((exists s, x = S754_zero s) \/ (exists s, y = S754_zero s) \/
   SFleb (S754_finite false 4503599627370496 (-1073)) (SFabs (SF64mul x y)) = true) ->
  SF64mul x (SF64mul (S754_finite false 4503599627370496 (-51)) y)
  = SF64mul (S754_finite false 4503599627370496 (-51)) (SF64mul x y).
Proof.
  intros Vx Vy Vr Hfin Hrange.
  destruct y as [sy|sy| |sy my ey].
  - destruct x as [sx|sx| |sx mx ex]; reflexivity.
  - exfalso. apply (Hfin sy). reflexivity.
  - destruct x as [sx|sx| |sx mx ex]; reflexivity.
  - destruct x as [sx|sx| |sx mx ex].
    + pose proof (SFmul_two_finite sy my ey Vy) as H2y. rewrite H2y in Hfin |- *.
      destruct (Zpos (digits2_pos my) =? 53)%Z; [|reflexivity].
      unfold SFdouble in Hfin |- *.
      destruct (ey + 1 <=? emax - prec)%Z; [reflexivity|].
      exfalso. apply (Hfin sy). reflexivity.
    + pose proof (SFmul_two_finite sy my ey Vy) as H2y. rewrite H2y in Hfin |- *.
      destruct (Zpos (digits2_pos my) =? 53)%Z; [|reflexivity].
      unfold SFdouble in Hfin |- *.
      destruct (ey + 1 <=? emax - prec)%Z; [reflexivity|].
      exfalso. apply (Hfin sy). reflexivity.
    + reflexivity.
    + apply SFmul_double_finite; try assumption.
      destruct Hrange as [[s H]|[[s H]|H]]; [discriminate H | discriminate H | exact H].
Qed.

(** Doubling the second factor of a product doubles the product. *)
Lemma mul_double x y : doubles_exactly x y -> x * (2 * y) = 2 * (x * y).
Proof.
  intros [Hfin Hrange]. apply Prim2SF_inj. rewrite !mul_spec.
  change (Prim2SF 2) with (S754_finite false 4503599627370496 (-51)).
  apply SFmul_double.
  - apply Prim2SF_valid.
  - apply Prim2SF_valid.
  - rewrite <- mul_spec. apply Prim2SF_valid.
  - intros s E. assert (is_infinity (2 * y) = true) as H; [|congruence].
    apply FiniteFacts.is_infinity_spec. exists s. rewrite mul_spec. exact E.
  - destruct Hrange as [H|[H|H]].
    + left. apply ConnectivityFacts.is_zero_spec. exact H.
    + right. left. apply ConnectivityFacts.is_zero_spec. exact H.
    + right. right. rewrite leb_spec, abs_spec, mul_spec in H. exact H.
Qed.

End Doubling.

(** ** The offset [distortPoints] applies is linear in the factor *)

Module LinearityFacts.

Import JS Grid DistortionMap Scaling Scenarios.
Import FloatFacts FloatArith FloatMore Doubling DistortionFacts.
Local Open Scope float_scope.

(** C3 (amended): [distortPoints] moves point [i] by adding to its
    coordinates [(cos direction, sin direction)] times
    [scaleFactor = (avgTime / 60) * distortionFactor], where [avgTime] and
    [direction] do not depend on the factor; and under the factor [2 * f]
    each component of this offset is exactly twice what it is under [f], as
    long as no product overflows or underflows. *)
Theorem distortPoints_offset_doubles M points timeMatrix i p row c f :
  (length points <= length timeMatrix)%nat ->
  nth_error points i = Some p -> nth_error timeMatrix i = Some row ->
  nth_error points 0 = Some c ->
  let scaleFactor := avgTime points row / 60 * f in
  let cos_d := Math_cos M (direction M c p) in
  let sin_d := Math_sin M (direction M c p) in
  doubles_exactly (avgTime points row / 60) f ->
  doubles_exactly cos_d scaleFactor -> doubles_exactly sin_d scaleFactor ->
  exists distorted1 distorted2 d1 d2,
    distortPoints M points timeMatrix (Some f) = Ret distorted1 /\
    distortPoints M points timeMatrix (Some (2 * f)) = Ret distorted2 /\
    nth_error distorted1 i = Some d1 /\ nth_error distorted2 i = Some d2 /\
    coordinates d1 =
      (fst (coordinates p) + cos_d * scaleFactor,
       snd (coordinates p) + sin_d * scaleFactor) /\
    coordinates d2 =
      (fst (coordinates p) + 2 * (cos_d * scaleFactor),
       snd (coordinates p) + 2 * (sin_d * scaleFactor)).
Proof.
  intros Hlen Hp Hrow Hc scaleFactor cos_d sin_d Hs Hcos Hsin.
  destruct (distortPoints_offset M points timeMatrix i p row c Hlen Hp Hrow Hc f)
    as (distorted1 & d1 & H1 & Hd1 & Hc1).
  destruct (distortPoints_offset M points timeMatrix i p row c Hlen Hp Hrow Hc (2 * f))
    as (distorted2 & d2 & H2 & Hd2 & Hc2).
  exists distorted1, distorted2, d1, d2.
  repeat (split; [assumption|]).
  rewrite Hc2. rewrite (mul_double _ _ Hs).
  fold scaleFactor. fold cos_d. fold sin_d.
  rewrite (mul_double _ _ Hcos), (mul_double _ _ Hsin). reflexivity.
Qed.

Lemma distortPoints_offset_doubles_witness :
  exists distorted1 distorted2 d1 d2,
    distortPoints Math_eastward parallel_points parallel_matrix (Some 1) = Ret distorted1 /\
    distortPoints Math_eastward parallel_points parallel_matrix (Some (2 * 1))
      = Ret distorted2 /\
    nth_error distorted1 0 = Some d1 /\ nth_error distorted2 0 = Some d2 /\
    coordinates d1 = (-73.97 + 1 * (6 / 60 * 1), 40.78 + 0 * (6 / 60 * 1)) /\
    coordinates d2 = (-73.97 + 2 * (1 * (6 / 60 * 1)), 40.78 + 2 * (0 * (6 / 60 * 1))).
Proof.
  apply (distortPoints_offset_doubles Math_eastward parallel_points parallel_matrix 0
           (mkGridPoint "point-0" (-73.97, 40.78) None None None) [0; 12]
           (mkGridPoint "point-0" (-73.97, 40.78) None None None) 1
           (le_n 2) eq_refl eq_refl eq_refl).
  - split; [reflexivity | right; right; reflexivity].
  - split; [reflexivity | right; right; reflexivity].
  - split; [reflexivity | left; reflexivity].
Defined.

End LinearityFacts.
